(** * HexagonOptimize: peephole optimisation of vector IR for Hexagon HVX

    A shallow embedding of [src/HexagonOptimize.cpp]: the pattern
    tables and the pattern engine [apply_patterns], the instruction
    selector [OptimizePatterns], the interleave eliminator
    [EliminateInterleaves], the [UpperBound] helper and the shuffle
    optimiser [OptimizeShuffles], followed by the properties of the
    specification that hold (or fail) on them.

    The expression tree, the structural matcher, the simplifier and the
    other collaborators live outside [HexagonOptimize.cpp]; the passes
    are written over an interface ([Collaborators]) for them, and a
    small executable instance is given to run the passes on concrete
    trees. *)

From Stdlib Require Import ZArith List String Bool Lia.
Import ListNotations.
Open Scope string_scope.
Open Scope list_scope.
Open Scope Z_scope.

Set Implicit Arguments.
Set Warnings "-register-all".

(* ================================================================= *)
(** ** Types of the IR                                                *)
(* ================================================================= *)

(** Modelled from the spec: the type of an IR value, "element kind
    (signed/unsigned int, float) x bit width x lane count (0 =
    wildcard)".  [Type.h] is not part of the translated file. *)
Inductive TypeCode := TInt | TUInt | TFloat | THandle.

Record HType := mkType { code : TypeCode; bits : Z; lanes : Z }.

Definition Int (b l : Z) : HType := mkType TInt b l.
Definition UInt (b l : Z) : HType := mkType TUInt b l.
Definition Bool_ (l : Z) : HType := mkType TUInt 1 l.

Definition with_bits (t : HType) (b : Z) : HType := mkType (code t) b (lanes t).
Definition with_lanes_t (t : HType) (l : Z) : HType := mkType (code t) (bits t) l.
Definition with_code (t : HType) (c : TypeCode) : HType := mkType c (bits t) (lanes t).
Definition element_of (t : HType) : HType := with_lanes_t t 1.

(** A type is scalar when it has exactly one lane; everything else,
    the lane wildcard 0 included, counts as a vector. *)
Definition is_scalar (t : HType) : bool := lanes t =? 1.
Definition is_vector (t : HType) : bool := negb (lanes t =? 1).
Definition is_uint (t : HType) : bool :=
  match code t with TUInt => true | _ => false end.
Definition is_int (t : HType) : bool :=
  match code t with TInt => true | _ => false end.

Definition TypeCode_eqb (a b : TypeCode) : bool :=
  match a, b with
  | TInt, TInt | TUInt, TUInt | TFloat, TFloat | THandle, THandle => true
  | _, _ => false
  end.

Definition HType_eqb (a b : HType) : bool :=
  TypeCode_eqb (code a) (code b) && (bits a =? bits b) && (lanes a =? lanes b).

(* ================================================================= *)
(** ** Expressions and statements                                     *)
(* ================================================================= *)

Inductive BinOp :=
| OpAdd | OpSub | OpMul | OpDiv | OpMod | OpMin | OpMax
| OpEQ | OpNE | OpLT | OpLE | OpGT | OpGE | OpAnd | OpOr.

Inductive CallType :=
| Image | Extern | PureExtern | Halide | Intrinsic | PureIntrinsic.

(** The immutable expression tree.  The binary node classes of the
    source ([Add], [Sub], ..., [Or]) share one constructor tagged by
    the operator, the way [visit_binary<T>] treats them; the [image]
    and [param] fields of loads and calls are opaque handles that the
    passes only copy, and are left out. *)
Inductive Expr :=
| IntImm (t : HType) (v : Z)
| UIntImm (t : HType) (v : Z)
| Cast (t : HType) (value : Expr)
| Variable_ (t : HType) (name : string)
| Binary (op : BinOp) (a b : Expr)
| Not (a : Expr)
| Select (condition true_value false_value : Expr)
| Load (t : HType) (name : string) (index : Expr)
| Ramp (base stride : Expr) (n : Z)
| Broadcast (value : Expr) (n : Z)
| Call (t : HType) (name : string) (args : list Expr) (call_type : CallType)
| LetE (name : string) (value body : Expr).

Abbreviation Add := (Binary OpAdd).
Abbreviation Sub := (Binary OpSub).
Abbreviation Mul := (Binary OpMul).
Abbreviation Div := (Binary OpDiv).
Abbreviation Mod := (Binary OpMod).
Abbreviation Min := (Binary OpMin).
Abbreviation Max := (Binary OpMax).
Abbreviation LT := (Binary OpLT).

Inductive Stmt :=
| LetStmt (name : string) (value : Expr) (body : Stmt)
| Evaluate (value : Expr)
| Store (name : string) (value index : Expr)
| Block (first rest : Stmt).

(** Induction over expressions that also covers the arguments of a
    call. *)
Section ExprInduction.
Variable P : Expr -> Prop.
Hypothesis HIntImm : forall t v, P (IntImm t v).
Hypothesis HUIntImm : forall t v, P (UIntImm t v).
Hypothesis HCast : forall t e, P e -> P (Cast t e).
Hypothesis HVariable : forall t n, P (Variable_ t n).
Hypothesis HBinary : forall op a b, P a -> P b -> P (Binary op a b).
Hypothesis HNot : forall a, P a -> P (Not a).
Hypothesis HSelect : forall c t f, P c -> P t -> P f -> P (Select c t f).
Hypothesis HLoad : forall t n i, P i -> P (Load t n i).
Hypothesis HRamp : forall b s n, P b -> P s -> P (Ramp b s n).
Hypothesis HBroadcast : forall v n, P v -> P (Broadcast v n).
Hypothesis HCall : forall t n args ct, Forall P args -> P (Call t n args ct).
Hypothesis HLet : forall n v b, P v -> P b -> P (LetE n v b).

Fixpoint Expr_ind' (e : Expr) : P e :=
  match e with
  | IntImm t v => HIntImm t v
  | UIntImm t v => HUIntImm t v
  | Cast t e => HCast t (Expr_ind' e)
  | Variable_ t n => HVariable t n
  | Binary op a b => HBinary op (Expr_ind' a) (Expr_ind' b)
  | Not a => HNot (Expr_ind' a)
  | Select c t f => HSelect (Expr_ind' c) (Expr_ind' t) (Expr_ind' f)
  | Load t n i => HLoad t n (Expr_ind' i)
  | Ramp b s n => HRamp n (Expr_ind' b) (Expr_ind' s)
  | Broadcast v n => HBroadcast n (Expr_ind' v)
  | Call t n args ct =>
      HCall t n ct
        ((fix go (l : list Expr) : Forall P l :=
            match l with
            | [] => Forall_nil P
            | x :: r => Forall_cons x (Expr_ind' x) (go r)
            end) args)
  | LetE n v b => HLet n (Expr_ind' v) (Expr_ind' b)
  end.
End ExprInduction.

(** Modelled from the spec: the type carried by an expression node
    ([IR.cpp] is not part of the translated file).  Arithmetic nodes
    take the type of their first operand, comparisons and logical
    nodes are boolean vectors of the operand's lane count. *)
Fixpoint type_of (e : Expr) : HType :=
  match e with
  | IntImm t _ | UIntImm t _ | Cast t _ | Variable_ t _ => t
  | Binary op a _ =>
      match op with
      | OpEQ | OpNE | OpLT | OpLE | OpGT | OpGE | OpAnd | OpOr =>
          Bool_ (lanes (type_of a))
      | _ => type_of a
      end
  | Not a => type_of a
  | Select _ t _ => type_of t
  | Load t _ _ => t
  | Ramp b _ n => with_lanes_t (type_of b) n
  | Broadcast v n => with_lanes_t (type_of v) n
  | Call t _ _ _ => t
  | LetE _ _ b => type_of b
  end.

(** Structural equality of trees ([equal] of [IREquality.h]). *)
Definition BinOp_eqb (a b : BinOp) : bool :=
  match a, b with
  | OpAdd, OpAdd | OpSub, OpSub | OpMul, OpMul | OpDiv, OpDiv
  | OpMod, OpMod | OpMin, OpMin | OpMax, OpMax | OpEQ, OpEQ
  | OpNE, OpNE | OpLT, OpLT | OpLE, OpLE | OpGT, OpGT | OpGE, OpGE
  | OpAnd, OpAnd | OpOr, OpOr => true
  | _, _ => false
  end.

Definition CallType_eqb (a b : CallType) : bool :=
  match a, b with
  | Image, Image | Extern, Extern | PureExtern, PureExtern
  | Halide, Halide | Intrinsic, Intrinsic | PureIntrinsic, PureIntrinsic => true
  | _, _ => false
  end.

Fixpoint equal (x y : Expr) {struct x} : bool :=
  match x, y with
  | IntImm t v, IntImm t' v' => HType_eqb t t' && (v =? v')
  | UIntImm t v, UIntImm t' v' => HType_eqb t t' && (v =? v')
  | Cast t e, Cast t' e' => HType_eqb t t' && equal e e'
  | Variable_ t n, Variable_ t' n' => HType_eqb t t' && String.eqb n n'
  | Binary op a b, Binary op' a' b' =>
      BinOp_eqb op op' && equal a a' && equal b b'
  | Not a, Not a' => equal a a'
  | Select c t f, Select c' t' f' => equal c c' && equal t t' && equal f f'
  | Load t n i, Load t' n' i' =>
      HType_eqb t t' && String.eqb n n' && equal i i'
  | Ramp b s n, Ramp b' s' n' => equal b b' && equal s s' && (n =? n')
  | Broadcast v n, Broadcast v' n' => equal v v' && (n =? n')
  | Call t n args ct, Call t' n' args' ct' =>
      HType_eqb t t' && String.eqb n n' && CallType_eqb ct ct' &&
      (fix go (l l' : list Expr) {struct l} : bool :=
         match l, l' with
         | [], [] => true
         | a :: r, a' :: r' => equal a a' && go r r'
         | _, _ => false
         end) args args'
  | LetE n v b, LetE n' v' b' => String.eqb n n' && equal v v' && equal b b'
  | _, _ => false
  end.

(* ================================================================= *)
(** ** Failure and state                                              *)
(* ================================================================= *)

(** [internal_error] is a failed [internal_assert] or an
    [internal_error <<] of the source, [user_error] a failed
    [user_assert] of a function the source calls: in both cases
    translation halts.  [out_of_fuel] belongs to the model only: the
    passes that mutate an expression they have just built recurse on a
    step counter. *)
Inductive failure := internal_error | user_error | out_of_fuel.

Inductive result (A : Type) :=
| Ok (a : A)
| Fail (why : failure).
Arguments Fail {A} why.

(** A mutator is a computation over the mutable members of its class
    (the scope stacks) that may halt. *)
Definition M (S A : Type) : Type := S -> result (A * S).

Definition ret {S A} (a : A) : M S A := fun s => Ok (a, s).
Definition raise {S A} (w : failure) : M S A := fun _ => Fail w.
Definition bind {S A B} (c : M S A) (k : A -> M S B) : M S B :=
  fun s => match c s with
           | Ok (a, s') => k a s'
           | Fail w => Fail w
           end.
Definition lift {S A} (r : result A) : M S A :=
  fun s => match r with Ok a => Ok (a, s) | Fail w => Fail w end.
Definition get {S} : M S S := fun s => Ok (s, s).
Definition modify {S} (f : S -> S) : M S unit := fun s => Ok (tt, f s).

Declare Scope monad_scope.
Notation "x <- c ;; k" := (bind c (fun x => k))
  (at level 61, c at next level, right associativity) : monad_scope.
Notation "c ;;; k" := (bind c (fun _ => k))
  (at level 61, right associativity) : monad_scope.
Open Scope monad_scope.

Fixpoint mapM {S A B} (f : A -> M S B) (l : list A) : M S (list B) :=
  match l with
  | [] => ret []
  | x :: r => y <- f x ;; ys <- mapM f r ;; ret (y :: ys)
  end.

(** [Scope<T>]: per name a stack of values; [push] and [pop] work on
    the innermost entry of a name. *)
Definition Scope (T : Type) : Type := list (string * T).

Definition push {T} (name : string) (v : T) (s : Scope T) : Scope T :=
  (name, v) :: s.

Fixpoint pop {T} (name : string) (s : Scope T) : Scope T :=
  match s with
  | [] => []
  | (n, v) :: r => if String.eqb n name then r else (n, v) :: pop name r
  end.

Definition contains {T} (s : Scope T) (name : string) : bool :=
  existsb (fun nv => String.eqb (fst nv) name) s.

(** A pair of bounds, [Interval] of [Bounds.h].  A bound may be the
    undefined [Expr()], here [None]: the interval is unbounded on that
    side. *)
Record Interval := mkInterval { min : option Expr; max : option Expr }.

(* ================================================================= *)
(** ** Collaborators                                                  *)
(* ================================================================= *)

(** The functions [HexagonOptimize.cpp] calls in the rest of the
    compiler.  An undefined [Expr()] result is [None]. *)
Class Collaborators := {
  (** [IRMatch.h]: the bindings of the wildcards, in template order. *)
  expr_match : Expr -> Expr -> option (list Expr);
  (** [IROperator.h]. *)
  lossless_cast : HType -> Expr -> option Expr;
  is_const_power_of_two_integer : Expr -> option Z;
  is_negative_negatable_const : Expr -> bool;
  is_positive_const : Expr -> bool;
  (** [Simplify.h], [CSE.h], [Substitute.h]. *)
  simplify : Expr -> Expr;
  common_subexpression_elimination : Expr -> Expr;
  substitute : string -> Expr -> Expr -> Expr;
  (** [ExprUsesVar.h]. *)
  expr_uses_var : Expr -> string -> bool;
  stmt_uses_var : Stmt -> string -> bool;
  (** [Bounds.h]. *)
  bounds_of_expr_in_scope : Expr -> Scope Interval -> Interval
}.

(* ================================================================= *)
(** ** Building expressions                                           *)
(* ================================================================= *)

(** Modelled from the spec: the expression builders of [IROperator.h]
    that the pattern tables are written with ([make_const], [cast],
    the arithmetic operators with their type matching, [clamp]).
    Constants of a vector type (lane wildcard 0 included) are
    broadcasts of a scalar constant. *)
Definition make_const_scalar (t : HType) (v : Z) : Expr :=
  match code t with
  | TUInt => UIntImm t v
  | _ => IntImm t v
  end.

Definition make_const (t : HType) (v : Z) : Expr :=
  if is_vector t
  then Broadcast (make_const_scalar (element_of t) v) (lanes t)
  else make_const_scalar t v.

Fixpoint as_const_int (e : Expr) : option Z :=
  match e with
  | IntImm _ v => Some v
  | Broadcast b _ => as_const_int b
  | _ => None
  end.

Fixpoint as_const_uint (e : Expr) : option Z :=
  match e with
  | UIntImm _ v => Some v
  | Broadcast b _ => as_const_uint b
  | _ => None
  end.

Definition as_const (e : Expr) : option Z :=
  match as_const_int e with
  | Some v => Some v
  | None => as_const_uint e
  end.

Definition is_zero (e : Expr) : bool :=
  match as_const e with Some v => v =? 0 | None => false end.

Definition is_one (e : Expr) : bool :=
  match as_const e with Some v => v =? 1 | None => false end.

Definition scalar_cast (t : HType) (a : Expr) : Expr :=
  if HType_eqb (type_of a) t then a else
  match as_const a with
  | Some v => make_const t v
  | None => Cast t a
  end.

Definition cast (t : HType) (a : Expr) : Expr :=
  if HType_eqb (type_of a) t then a else
  match as_const a with
  | Some v => make_const t v
  | None =>
      if is_vector t then
        if is_scalar (type_of a)
        then Broadcast (scalar_cast (element_of t) a) (lanes t)
        else match a with
             | Broadcast v _ => Broadcast (scalar_cast (element_of t) v) (lanes t)
             | _ => Cast t a
             end
      else Cast t a
  end.

Definition match_types (a b : Expr) : Expr * Expr :=
  let ta := type_of a in
  let tb := type_of b in
  if HType_eqb ta tb then (a, b) else
  let '(a, b) :=
    if is_scalar ta && is_vector tb then (Broadcast a (lanes tb), b)
    else if is_vector ta && is_scalar tb then (a, Broadcast b (lanes ta))
    else (a, b) in
  let ta := type_of a in
  let tb := type_of b in
  let c := if is_uint ta && is_uint tb then TUInt else TInt in
  let t := mkType c (Z.max (bits ta) (bits tb)) (lanes ta) in
  (cast t a, cast t b).

Definition binop (op : BinOp) (a b : Expr) : Expr :=
  let '(a, b) := match_types a b in Binary op a b.

Definition binop_int (op : BinOp) (a : Expr) (k : Z) : Expr :=
  Binary op a (make_const (type_of a) k).

Definition shift_right (x y : Expr) : Expr :=
  let '(x, y) := match_types x y in
  Call (type_of x) "shift_right" [x; y] PureIntrinsic.

Definition shift_left (x y : Expr) : Expr :=
  let '(x, y) := match_types x y in
  Call (type_of x) "shift_left" [x; y] PureIntrinsic.

Definition bitwise_not (x : Expr) : Expr :=
  Call (type_of x) "bitwise_not" [x] PureIntrinsic.

Definition count_leading_zeros (x : Expr) : Expr :=
  Call (type_of x) "count_leading_zeros" [x] PureIntrinsic.

Definition clamp (a min_val max_val : Expr) : Expr :=
  Max (Min a (cast (type_of a) max_val)) (cast (type_of a) min_val).

(** Modelled from the spec: [Ramp::make] of [IR.cpp], which asserts
    that a ramp has more than one lane. *)
Definition Ramp_make (base stride : Expr) (lns : Z) : result Expr :=
  if 1 <? lns then Ok (Ramp base stride lns) else Fail internal_error.

(** Modelled from the spec: the value a lane of type [t] holds for
    the integer [v]: lanes have a fixed width and wrap around, two's
    complement for the signed kinds ([IntImm::make] and
    [UIntImm::make] of [IR.cpp] drop the high bits of a constant the
    same way). *)
Definition wrap (t : HType) (v : Z) : Z :=
  match code t with
  | TUInt => v mod 2 ^ bits t
  | TInt => (v + 2 ^ (bits t - 1)) mod 2 ^ bits t - 2 ^ (bits t - 1)
  | _ => v
  end.

Declare Scope hexpr_scope.
Delimit Scope hexpr_scope with hexpr.
Infix "+" := (binop OpAdd) : hexpr_scope.
Infix "-" := (binop OpSub) : hexpr_scope.
Infix "*" := (binop OpMul) : hexpr_scope.
Infix "/" := (binop OpDiv) : hexpr_scope.
Infix ">>" := shift_right (at level 35) : hexpr_scope.
Infix "<<" := shift_left (at level 35) : hexpr_scope.
Notation "a +! k" := (binop_int OpAdd a k) (at level 50, left associativity) : hexpr_scope.
Notation "a /! k" := (binop_int OpDiv a k) (at level 40, left associativity) : hexpr_scope.

(* ================================================================= *)
(** ** Interleave markers                                             *)
(* ================================================================= *)

Definition native_interleave (x : Expr) : result Expr :=
  let b := bits (type_of x) in
  if b =? 8 then Ok (Call (type_of x) "halide.hexagon.interleave.vb" [x] PureExtern)
  else if b =? 16 then Ok (Call (type_of x) "halide.hexagon.interleave.vh" [x] PureExtern)
  else if b =? 32 then Ok (Call (type_of x) "halide.hexagon.interleave.vw" [x] PureExtern)
  else Fail internal_error.

Definition native_deinterleave (x : Expr) : result Expr :=
  let b := bits (type_of x) in
  if b =? 8 then Ok (Call (type_of x) "halide.hexagon.deinterleave.vb" [x] PureExtern)
  else if b =? 16 then Ok (Call (type_of x) "halide.hexagon.deinterleave.vh" [x] PureExtern)
  else if b =? 32 then Ok (Call (type_of x) "halide.hexagon.deinterleave.vw" [x] PureExtern)
  else Fail internal_error.

Definition starts_with (s p : string) : bool := String.prefix p s.

Definition is_native_interleave_op (x : Expr) (name : string) : bool :=
  match x with
  | Call _ n [_] _ => starts_with n name
  | _ => false
  end.

Definition is_native_interleave (x : Expr) : bool :=
  is_native_interleave_op x "halide.hexagon.interleave".

Definition is_native_deinterleave (x : Expr) : bool :=
  is_native_interleave_op x "halide.hexagon.deinterleave".

(** [WithLanes]: give a template with the lane wildcard a lane count. *)
Fixpoint with_lanes (lns : Z) (x : Expr) : Expr :=
  match x with
  | Cast t v =>
      if negb (lanes t =? lns) then Cast (with_lanes_t t lns) (with_lanes lns v)
      else Cast t (with_lanes lns v)
  | Variable_ t n =>
      if negb (lanes t =? lns) then Variable_ (with_lanes_t t lns) n else x
  | Broadcast v n =>
      if negb (n =? lns) then Broadcast v lns else Broadcast (with_lanes lns v) n
  | Binary op a b => Binary op (with_lanes lns a) (with_lanes lns b)
  | Not a => Not (with_lanes lns a)
  | Select c t f => Select (with_lanes lns c) (with_lanes lns t) (with_lanes lns f)
  | Load t n i => Load t n (with_lanes lns i)
  | Ramp b s n => Ramp (with_lanes lns b) (with_lanes lns s) n
  | Call t n args ct => Call t n (map (with_lanes lns) args) ct
  | LetE n v b => LetE n (with_lanes lns v) (with_lanes lns b)
  | IntImm _ _ | UIntImm _ _ => x
  end.

Definition u8 (E : Expr) := cast (UInt 8 (lanes (type_of E))) E.
Definition i8 (E : Expr) := cast (Int 8 (lanes (type_of E))) E.
Definition u16 (E : Expr) := cast (UInt 16 (lanes (type_of E))) E.
Definition i16 (E : Expr) := cast (Int 16 (lanes (type_of E))) E.
Definition u32 (E : Expr) := cast (UInt 32 (lanes (type_of E))) E.
Definition i32 (E : Expr) := cast (Int 32 (lanes (type_of E))) E.
Definition u64 (E : Expr) := cast (UInt 64 (lanes (type_of E))) E.
Definition i64 (E : Expr) := cast (Int 64 (lanes (type_of E))) E.
Definition bc (E : Expr) := Broadcast E 0.

(** [Int(b).min()], [Int(b).max()], [UInt(b).min()], [UInt(b).max()]. *)
Definition type_min (t : HType) : Expr :=
  match code t with
  | TUInt => UIntImm t 0
  | _ => IntImm t (- 2 ^ (bits t - 1))
  end.
Definition type_max (t : HType) : Expr :=
  match code t with
  | TUInt => UIntImm t (2 ^ bits t - 1)
  | _ => IntImm t (2 ^ (bits t - 1) - 1)
  end.

Definition min_i8 := i8 (type_min (Int 8 1)).
Definition max_i8 := i8 (type_max (Int 8 1)).
Definition min_u8 := u8 (type_min (UInt 8 1)).
Definition max_u8 := u8 (type_max (UInt 8 1)).
Definition min_i16 := i16 (type_min (Int 16 1)).
Definition max_i16 := i16 (type_max (Int 16 1)).
Definition min_u16 := u16 (type_min (UInt 16 1)).
Definition max_u16 := u16 (type_max (UInt 16 1)).
Definition min_i32 := i32 (type_min (Int 32 1)).
Definition max_i32 := i32 (type_max (Int 32 1)).
Definition min_u32 := u32 (type_min (UInt 32 1)).
Definition max_u32 := u32 (type_max (UInt 32 1)).

Definition simplified_clamp (x mn mx : Expr) : Expr :=
  if is_uint (type_of x) && is_zero mn
  then binop OpMin x mx
  else clamp x mn mx.

Definition i32c e := i32 (simplified_clamp e min_i32 max_i32).
Definition u32c e := u32 (simplified_clamp e min_u32 max_u32).
Definition i16c e := i16 (simplified_clamp e min_i16 max_i16).
Definition u16c e := u16 (simplified_clamp e min_u16 max_u16).
Definition i8c e := i8 (simplified_clamp e min_i8 max_i8).
Definition u8c e := u8 (simplified_clamp e min_u8 max_u8).

(* ================================================================= *)
(** ** Patterns and the pattern tables                                *)
(* ================================================================= *)

Module Pattern.
(** [enum Flags]: one bit each, the operand number added to the
    position of the group's first bit. *)
Definition InterleaveResult : Z := Z.shiftl 1 0.
Definition SwapOps01 : Z := Z.shiftl 1 1.
Definition SwapOps12 : Z := Z.shiftl 1 2.
Definition ExactLog2Op1 : Z := Z.shiftl 1 3.
Definition ExactLog2Op2 : Z := Z.shiftl 1 4.

Definition DeinterleaveOp0 : Z := Z.shiftl 1 5.
Definition DeinterleaveOp1 : Z := Z.shiftl 1 6.
Definition DeinterleaveOp2 : Z := Z.shiftl 1 7.
Definition DeinterleaveOps : Z :=
  Z.lor (Z.lor DeinterleaveOp0 DeinterleaveOp1) DeinterleaveOp2.

Definition NarrowOp0 : Z := Z.shiftl 1 10.
Definition NarrowOp1 : Z := Z.shiftl 1 11.
Definition NarrowOp2 : Z := Z.shiftl 1 12.
Definition NarrowOps : Z := Z.lor (Z.lor NarrowOp0 NarrowOp1) NarrowOp2.

Definition NarrowUnsignedOp0 : Z := Z.shiftl 1 15.
Definition NarrowUnsignedOp1 : Z := Z.shiftl 1 16.
Definition NarrowUnsignedOp2 : Z := Z.shiftl 1 17.
Definition NarrowUnsignedOps : Z :=
  Z.lor (Z.lor NarrowUnsignedOp0 NarrowUnsignedOp1) NarrowUnsignedOp2.

Record t := make { intrin : string; pattern : Expr; flags : Z }.
End Pattern.

Abbreviation Pattern := Pattern.t.

(** [flags & f], read as a condition. *)
Definition has_flag (flags f : Z) : bool := negb (Z.land flags f =? 0).

Infix "|||" := Z.lor (at level 50, left associativity) : Z_scope.

Definition wild_u8 := Variable_ (UInt 8 1) "*".
Definition wild_u16 := Variable_ (UInt 16 1) "*".
Definition wild_u32 := Variable_ (UInt 32 1) "*".
Definition wild_u64 := Variable_ (UInt 64 1) "*".
Definition wild_i8 := Variable_ (Int 8 1) "*".
Definition wild_i16 := Variable_ (Int 16 1) "*".
Definition wild_i32 := Variable_ (Int 32 1) "*".
Definition wild_i64 := Variable_ (Int 64 1) "*".

Definition wild_u8x := Variable_ (mkType TUInt 8 0) "*".
Definition wild_u16x := Variable_ (mkType TUInt 16 0) "*".
Definition wild_u32x := Variable_ (mkType TUInt 32 0) "*".
Definition wild_u64x := Variable_ (mkType TUInt 64 0) "*".
Definition wild_i8x := Variable_ (mkType TInt 8 0) "*".
Definition wild_i16x := Variable_ (mkType TInt 16 0) "*".
Definition wild_i32x := Variable_ (mkType TInt 32 0) "*".
Definition wild_i64x := Variable_ (mkType TInt 64 0) "*".

Section Tables.
Import Pattern.
Local Open Scope hexpr_scope.
Local Notation "{{ n , p , f }}" := (Pattern.make n p f).
Local Notation "{{ n , p }}" := (Pattern.make n p 0).

Definition casts : list Pattern := [
  (* Averaging *)
  {{ "halide.hexagon.avg.vub.vub", u8 ((wild_u16x + wild_u16x) /! 2), NarrowOps }};
  {{ "halide.hexagon.avg.vuh.vuh", u16 ((wild_u32x + wild_u32x) /! 2), NarrowOps }};
  {{ "halide.hexagon.avg.vh.vh", i16 ((wild_i32x + wild_i32x) /! 2), NarrowOps }};
  {{ "halide.hexagon.avg.vw.vw", i32 ((wild_i64x + wild_i64x) /! 2), NarrowOps }};

  {{ "halide.hexagon.avg_rnd.vub.vub", u8 ((wild_u16x + wild_u16x +! 1) /! 2), NarrowOps }};
  {{ "halide.hexagon.avg_rnd.vuh.vuh", u16 ((wild_u32x + wild_u32x +! 1) /! 2), NarrowOps }};
  {{ "halide.hexagon.avg_rnd.vh.vh", i16 ((wild_i32x + wild_i32x +! 1) /! 2), NarrowOps }};
  {{ "halide.hexagon.avg_rnd.vw.vw", i32 ((wild_i64x + wild_i64x +! 1) /! 2), NarrowOps }};

  {{ "halide.hexagon.navg.vub.vub", i8c ((wild_i16x - wild_i16x) /! 2), NarrowUnsignedOps }};
  {{ "halide.hexagon.navg.vh.vh", i16c ((wild_i32x - wild_i32x) /! 2), NarrowOps }};
  {{ "halide.hexagon.navg.vw.vw", i32c ((wild_i64x - wild_i64x) /! 2), NarrowOps }};

  (* Saturating add/subtract *)
  {{ "halide.hexagon.satub_add.vub.vub", u8c (wild_u16x + wild_u16x), NarrowOps }};
  {{ "halide.hexagon.satuh_add.vuh.vuh", u16c (wild_u32x + wild_u32x), NarrowOps }};
  {{ "halide.hexagon.sath_add.vh.vh", i16c (wild_i32x + wild_i32x), NarrowOps }};
  {{ "halide.hexagon.satw_add.vw.vw", i32c (wild_i64x + wild_i64x), NarrowOps }};

  {{ "halide.hexagon.satub_sub.vub.vub", u8c (wild_i16x - wild_i16x), NarrowUnsignedOps }};
  {{ "halide.hexagon.satuh_sub.vuh.vuh", u16c (wild_i32x - wild_i32x), NarrowUnsignedOps }};
  {{ "halide.hexagon.sath_sub.vh.vh", i16c (wild_i32x - wild_i32x), NarrowOps }};
  {{ "halide.hexagon.satw_sub.vw.vw", i32c (wild_i64x - wild_i64x), NarrowOps }};

  (* Saturating narrowing casts with rounding *)
  {{ "halide.hexagon.trunc_satub_rnd.vh", u8c ((wild_i32x +! 128) /! 256), DeinterleaveOp0 ||| NarrowOp0 }};
  {{ "halide.hexagon.trunc_satb_rnd.vh", i8c ((wild_i32x +! 128) /! 256), DeinterleaveOp0 ||| NarrowOp0 }};
  {{ "halide.hexagon.trunc_satuh_rnd.vw", u16c ((wild_i64x +! 32768) /! 65536), DeinterleaveOp0 ||| NarrowOp0 }};
  {{ "halide.hexagon.trunc_sath_rnd.vw", i16c ((wild_i64x +! 32768) /! 65536), DeinterleaveOp0 ||| NarrowOp0 }};

  (* Saturating narrowing casts *)
  {{ "halide.hexagon.trunc_satub_shr.vh.h", u8c (wild_i16x >> wild_i16), DeinterleaveOp0 }};
  {{ "halide.hexagon.trunc_satuh_shr.vw.w", u16c (wild_i32x >> wild_i32), DeinterleaveOp0 }};
  {{ "halide.hexagon.trunc_sath_shr.vw.w", i16c (wild_i32x >> wild_i32), DeinterleaveOp0 }};
  {{ "halide.hexagon.trunc_satub_shr.vh.h", u8c (wild_i16x / wild_i16), DeinterleaveOp0 ||| ExactLog2Op1 }};
  {{ "halide.hexagon.trunc_satuh_shr.vw.w", u16c (wild_i32x / wild_i32), DeinterleaveOp0 ||| ExactLog2Op1 }};
  {{ "halide.hexagon.trunc_sath_shr.vw.w", i16c (wild_i32x / wild_i32), DeinterleaveOp0 ||| ExactLog2Op1 }};

  (* Non-interleaving packs, replaced later by the interleaving
     instructions where that pays. *)
  {{ "halide.hexagon.pack_satub.vh", u8c wild_i16x }};
  {{ "halide.hexagon.pack_satuh.vw", u16c wild_i32x }};
  {{ "halide.hexagon.pack_satb.vh", i8c wild_i16x }};
  {{ "halide.hexagon.pack_sath.vw", i16c wild_i32x }};

  (* Narrowing casts *)
  {{ "halide.hexagon.trunclo.vh", u8 (wild_u16x /! 256), DeinterleaveOp0 }};
  {{ "halide.hexagon.trunclo.vh", u8 (wild_i16x /! 256), DeinterleaveOp0 }};
  {{ "halide.hexagon.trunclo.vh", i8 (wild_u16x /! 256), DeinterleaveOp0 }};
  {{ "halide.hexagon.trunclo.vh", i8 (wild_i16x /! 256), DeinterleaveOp0 }};
  {{ "halide.hexagon.trunclo.vw", u16 (wild_u32x /! 65536), DeinterleaveOp0 }};
  {{ "halide.hexagon.trunclo.vw", u16 (wild_i32x /! 65536), DeinterleaveOp0 }};
  {{ "halide.hexagon.trunclo.vw", i16 (wild_u32x /! 65536), DeinterleaveOp0 }};
  {{ "halide.hexagon.trunclo.vw", i16 (wild_i32x /! 65536), DeinterleaveOp0 }};
  {{ "halide.hexagon.trunc_shr.vw.w", i16 (wild_i32x >> wild_i32), DeinterleaveOp0 }};
  {{ "halide.hexagon.trunc_shr.vw.w", i16 (wild_i32x / wild_i32), DeinterleaveOp0 ||| ExactLog2Op1 }};

  {{ "halide.hexagon.pack.vh", u8 wild_u16x }};
  {{ "halide.hexagon.pack.vh", u8 wild_i16x }};
  {{ "halide.hexagon.pack.vh", i8 wild_u16x }};
  {{ "halide.hexagon.pack.vh", i8 wild_i16x }};
  {{ "halide.hexagon.pack.vw", u16 wild_u32x }};
  {{ "halide.hexagon.pack.vw", u16 wild_i32x }};
  {{ "halide.hexagon.pack.vw", i16 wild_u32x }};
  {{ "halide.hexagon.pack.vw", i16 wild_i32x }};

  (* Widening casts *)
  {{ "halide.hexagon.zxt.vub", u16 wild_u8x, InterleaveResult }};
  {{ "halide.hexagon.zxt.vub", i16 wild_u8x, InterleaveResult }};
  {{ "halide.hexagon.zxt.vuh", u32 wild_u16x, InterleaveResult }};
  {{ "halide.hexagon.zxt.vuh", i32 wild_u16x, InterleaveResult }};
  {{ "halide.hexagon.sxt.vb", u16 wild_i8x, InterleaveResult }};
  {{ "halide.hexagon.sxt.vb", i16 wild_i8x, InterleaveResult }};
  {{ "halide.hexagon.sxt.vh", u32 wild_i16x, InterleaveResult }};
  {{ "halide.hexagon.sxt.vh", i32 wild_i16x, InterleaveResult }}
].

Definition muls : list Pattern := [
  (* Vector by scalar widening multiplies. *)
  {{ "halide.hexagon.mpy.vub.ub", wild_u16x * bc wild_u16, InterleaveResult ||| NarrowOps }};
  {{ "halide.hexagon.mpy.vub.b", wild_i16x * bc wild_i16, InterleaveResult ||| NarrowUnsignedOp0 ||| NarrowOp1 }};
  {{ "halide.hexagon.mpy.vuh.uh", wild_u32x * bc wild_u32, InterleaveResult ||| NarrowOps }};
  {{ "halide.hexagon.mpy.vh.h", wild_i32x * bc wild_i32, InterleaveResult ||| NarrowOps }};

  (* Widening multiplication *)
  {{ "halide.hexagon.mpy.vub.vub", wild_u16x * wild_u16x, InterleaveResult ||| NarrowOps }};
  {{ "halide.hexagon.mpy.vuh.vuh", wild_u32x * wild_u32x, InterleaveResult ||| NarrowOps }};
  {{ "halide.hexagon.mpy.vb.vb", wild_i16x * wild_i16x, InterleaveResult ||| NarrowOps }};
  {{ "halide.hexagon.mpy.vh.vh", wild_i32x * wild_i32x, InterleaveResult ||| NarrowOps }};

  {{ "halide.hexagon.mpy.vub.vb", wild_i16x * wild_i16x, InterleaveResult ||| NarrowUnsignedOp0 ||| NarrowOp1 }};
  {{ "halide.hexagon.mpy.vh.vuh", wild_i32x * wild_i32x, InterleaveResult ||| NarrowOp0 ||| NarrowUnsignedOp1 }}
].

Definition ReinterleaveOp0 : Z := InterleaveResult ||| DeinterleaveOp0.

Definition adds : list Pattern := [
  (* Shift-accumulates. *)
  {{ "halide.hexagon.add_shr.vw.vw.w", wild_i32x + (wild_i32x >> bc wild_i32) }};
  {{ "halide.hexagon.add_shl.vw.vw.w", wild_i32x + (wild_i32x << bc wild_i32) }};
  {{ "halide.hexagon.add_shl.vw.vw.w", wild_u32x + (wild_u32x << bc wild_u32) }};
  {{ "halide.hexagon.add_shr.vw.vw.w", wild_i32x + (wild_i32x / bc wild_i32), ExactLog2Op2 }};
  {{ "halide.hexagon.add_shl.vw.vw.w", wild_i32x + (wild_i32x * bc wild_i32), ExactLog2Op2 }};
  {{ "halide.hexagon.add_shl.vw.vw.w", wild_u32x + (wild_u32x * bc wild_u32), ExactLog2Op2 }};
  {{ "halide.hexagon.add_shl.vw.vw.w", wild_i32x + (bc wild_i32 * wild_i32x), ExactLog2Op1 ||| SwapOps12 }};
  {{ "halide.hexagon.add_shl.vw.vw.w", wild_u32x + (bc wild_u32 * wild_u32x), ExactLog2Op1 ||| SwapOps12 }};

  (* Widening multiply-accumulates with a scalar. *)
  {{ "halide.hexagon.add_mpy.vuh.vub.ub", wild_u16x + wild_u16x * bc wild_u16, ReinterleaveOp0 ||| NarrowOp1 ||| NarrowOp2 }};
  {{ "halide.hexagon.add_mpy.vh.vub.b", wild_i16x + wild_i16x * bc wild_i16, ReinterleaveOp0 ||| NarrowUnsignedOp1 ||| NarrowOp2 }};
  {{ "halide.hexagon.add_mpy.vuw.vuh.uh", wild_u32x + wild_u32x * bc wild_u32, ReinterleaveOp0 ||| NarrowOp1 ||| NarrowOp2 }};
  {{ "halide.hexagon.add_mpy.vuh.vub.ub", wild_u16x + bc wild_u16 * wild_u16x, ReinterleaveOp0 ||| NarrowOp1 ||| NarrowOp2 ||| SwapOps12 }};
  {{ "halide.hexagon.add_mpy.vh.vub.b", wild_i16x + bc wild_i16 * wild_i16x, ReinterleaveOp0 ||| NarrowOp1 ||| NarrowUnsignedOp2 ||| SwapOps12 }};
  {{ "halide.hexagon.add_mpy.vuw.vuh.uh", wild_u32x + bc wild_u32 * wild_u32x, ReinterleaveOp0 ||| NarrowOp1 ||| NarrowOp2 ||| SwapOps12 }};

  (* The instruction saturates; accepted because 32 bit signed
     overflow is undefined. *)
  {{ "halide.hexagon.satw_add_mpy.vw.vh.h", wild_i32x + wild_i32x * bc wild_i32, ReinterleaveOp0 ||| NarrowOp1 ||| NarrowOp2 }};
  {{ "halide.hexagon.satw_add_mpy.vw.vh.h", wild_i32x + bc wild_i32 * wild_i32x, ReinterleaveOp0 ||| NarrowOp1 ||| NarrowOp2 ||| SwapOps12 }};

  (* Non-widening multiply-accumulates with a scalar. *)
  {{ "halide.hexagon.add_mul.vh.vh.b", wild_i16x + wild_i16x * bc wild_i16, NarrowOp2 }};
  {{ "halide.hexagon.add_mul.vw.vw.h", wild_i32x + wild_i32x * bc wild_i32, NarrowOp2 }};
  {{ "halide.hexagon.add_mul.vh.vh.b", wild_i16x + bc wild_i16 * wild_i16x, NarrowOp1 ||| SwapOps12 }};
  {{ "halide.hexagon.add_mul.vw.vw.h", wild_i32x + bc wild_i32 * wild_i32x, NarrowOp1 ||| SwapOps12 }};

  (* Widening multiply-accumulates. *)
  {{ "halide.hexagon.add_mpy.vuh.vub.vub", wild_u16x + wild_u16x * wild_u16x, ReinterleaveOp0 ||| NarrowOp1 ||| NarrowOp2 }};
  {{ "halide.hexagon.add_mpy.vuw.vuh.vuh", wild_u32x + wild_u32x * wild_u32x, ReinterleaveOp0 ||| NarrowOp1 ||| NarrowOp2 }};
  {{ "halide.hexagon.add_mpy.vh.vb.vb", wild_i16x + wild_i16x * wild_i16x, ReinterleaveOp0 ||| NarrowOp1 ||| NarrowOp2 }};
  {{ "halide.hexagon.add_mpy.vw.vh.vh", wild_i32x + wild_i32x * wild_i32x, ReinterleaveOp0 ||| NarrowOp1 ||| NarrowOp2 }};

  {{ "halide.hexagon.add_mpy.vh.vub.vb", wild_i16x + wild_i16x * wild_i16x, ReinterleaveOp0 ||| NarrowUnsignedOp1 ||| NarrowOp2 }};
  {{ "halide.hexagon.add_mpy.vw.vh.vuh", wild_i32x + wild_i32x * wild_i32x, ReinterleaveOp0 ||| NarrowOp1 ||| NarrowUnsignedOp2 }};
  {{ "halide.hexagon.add_mpy.vh.vub.vb", wild_i16x + wild_i16x * wild_i16x, ReinterleaveOp0 ||| NarrowOp1 ||| NarrowUnsignedOp2 ||| SwapOps12 }};
  {{ "halide.hexagon.add_mpy.vw.vh.vuh", wild_i32x + wild_i32x * wild_i32x, ReinterleaveOp0 ||| NarrowUnsignedOp1 ||| NarrowOp2 ||| SwapOps12 }};

  (* This pattern is very general, so it must come last. *)
  {{ "halide.hexagon.add_mul.vh.vh.vh", wild_i16x + wild_i16x * wild_i16x }}
].
End Tables.

(* ================================================================= *)
(** ** The pattern engine                                             *)
(* ================================================================= *)

Section PatternEngine.
Context {C : Collaborators}.
Variable S : Type.

(** Visit the operands of a match from position [i] on, stopping at
    the first one that is rejected. *)
Fixpoint each_operand (f : Z -> Expr -> option Expr) (i : Z)
    (matches : list Expr) : option (list Expr) :=
  match matches with
  | [] => Some []
  | m :: rest =>
      match f i m with
      | None => None
      | Some m' =>
          match each_operand f (i + 1) rest with
          | None => None
          | Some rest' => Some (m' :: rest')
          end
      end
  end.

(** The first loop of [apply_patterns]: operand [i] is narrowed when
    bit [NarrowOp0 << i] or [NarrowUnsignedOp0 << i] is set. *)
Definition narrow_operand (flags : Z) (i : Z) (m : Expr) : option Expr :=
  let t := type_of m in
  let target_t := with_bits t (Z.quot (bits t) 2) in
  if has_flag flags (Z.shiftl Pattern.NarrowOp0 i) then
    lossless_cast target_t m
  else if has_flag flags (Z.shiftl Pattern.NarrowUnsignedOp0 i) then
    lossless_cast (with_code target_t TUInt) m
  else Some m.

Definition narrow_operands (flags : Z) (matches : list Expr) : option (list Expr) :=
  each_operand (narrow_operand flags) 0 matches.

(** The second loop, from operand 1 on: bit [ExactLog2Op1 << (i - 1)]. *)
Definition exact_log2_operand (flags : Z) (i : Z) (m : Expr) : option Expr :=
  if has_flag flags (Z.shiftl Pattern.ExactLog2Op1 (i - 1)) then
    match is_const_power_of_two_integer m with
    | Some pow => Some (cast (with_lanes_t (type_of m) 1) (IntImm (Int 32 1) pow))
    | None => None
    end
  else Some m.

Definition exact_log2_operands (flags : Z) (matches : list Expr) : option (list Expr) :=
  match matches with
  | [] => Some []
  | m0 :: rest =>
      match each_operand (exact_log2_operand flags) 1 rest with
      | None => None
      | Some rest' => Some (m0 :: rest')
      end
  end.

(** The third loop: bit [DeinterleaveOp0 << i], asserting a vector. *)
Fixpoint deinterleave_operands (flags : Z) (i : Z) (matches : list Expr)
    : result (list Expr) :=
  match matches with
  | [] => Ok []
  | m :: rest =>
      let head :=
        if has_flag flags (Z.shiftl Pattern.DeinterleaveOp0 i) then
          if is_vector (type_of m) then native_deinterleave m
          else Fail internal_error
        else Ok m in
      match head with
      | Fail w => Fail w
      | Ok m' =>
          match deinterleave_operands flags (i + 1) rest with
          | Fail w => Fail w
          | Ok rest' => Ok (m' :: rest')
          end
      end
  end.

Definition swap_ops01 (flags : Z) (matches : list Expr) : result (list Expr) :=
  if has_flag flags Pattern.SwapOps01 then
    match matches with
    | m0 :: m1 :: rest => Ok (m1 :: m0 :: rest)
    | _ => Fail internal_error
    end
  else Ok matches.

Definition swap_ops12 (flags : Z) (matches : list Expr) : result (list Expr) :=
  if has_flag flags Pattern.SwapOps12 then
    match matches with
    | m0 :: m1 :: m2 :: rest => Ok (m0 :: m2 :: m1 :: rest)
    | _ => Fail internal_error
    end
  else Ok matches.

(** What [apply_patterns] does once the operands of [p] passed the
    first two loops. *)
Definition emit (x : Expr) (p : Pattern) (op_mutator : Expr -> M S Expr)
    (matches : list Expr) : M S Expr :=
  matches <- lift (deinterleave_operands (Pattern.flags p) 0 matches) ;;
  matches <- lift (swap_ops01 (Pattern.flags p) matches) ;;
  matches <- lift (swap_ops12 (Pattern.flags p) matches) ;;
  matches <- mapM op_mutator matches ;;
  let x := Call (type_of x) (Pattern.intrin p) matches PureExtern in
  if has_flag (Pattern.flags p) Pattern.InterleaveResult
  then lift (native_interleave x)
  else ret x.

(** The operands of [p] on [x] after the narrowing and exact-log2
    loops; [None] is the [continue] of the source. *)
Definition accepted_operands (p : Pattern) (x : Expr) : option (list Expr) :=
  match expr_match (Pattern.pattern p) x with
  | None => None
  | Some matches =>
      match narrow_operands (Pattern.flags p) matches with
      | None => None
      | Some matches => exact_log2_operands (Pattern.flags p) matches
      end
  end.

(** [apply_patterns]: the result, and whether it is the very [x] that
    was passed in ([same_as]). *)
Fixpoint apply_patterns (x : Expr) (patterns : list Pattern)
    (op_mutator : Expr -> M S Expr) : M S (Expr * bool) :=
  match patterns with
  | [] => ret (x, true)
  | p :: rest =>
      match accepted_operands p x with
      | Some matches => x' <- emit x p op_mutator matches ;; ret (x', false)
      | None => apply_patterns x rest op_mutator
      end
  end.

End PatternEngine.

(* ================================================================= *)
(** ** The generic traversal                                          *)
(* ================================================================= *)

(** Modelled from the spec: the generic "rebuild node from rewritten
    children" traversal ([IRMutator::visit]), which a pass overrides
    per node kind.  A mutated node comes with the answer to
    [same_as]: [true] when it is the node that was passed in.  A
    node is rebuilt when one of its children is not the same. *)
Module IRMutator.
Section Visit.
Variable S : Type.
Variable mutate : Expr -> M S (Expr * bool).

Fixpoint mutate_args (args : list Expr) : M S (list Expr * bool) :=
  match args with
  | [] => ret ([], true)
  | a :: rest =>
      a' <- mutate a ;;
      rest' <- mutate_args rest ;;
      ret (fst a' :: fst rest', snd a' && snd rest')
  end.

Definition visit (op : Expr) : M S (Expr * bool) :=
  match op with
  | IntImm _ _ | UIntImm _ _ | Variable_ _ _ => ret (op, true)
  | Cast t value =>
      value <- mutate value ;;
      if snd value then ret (op, true) else ret (Cast t (fst value), false)
  | Binary o a b =>
      a <- mutate a ;;
      b <- mutate b ;;
      if snd a && snd b then ret (op, true)
      else ret (Binary o (fst a) (fst b), false)
  | Not a =>
      a <- mutate a ;;
      if snd a then ret (op, true) else ret (Not (fst a), false)
  | Select c t f =>
      c <- mutate c ;;
      t <- mutate t ;;
      f <- mutate f ;;
      if snd c && snd t && snd f then ret (op, true)
      else ret (Select (fst c) (fst t) (fst f), false)
  | Load t name index =>
      index <- mutate index ;;
      if snd index then ret (op, true) else ret (Load t name (fst index), false)
  | Ramp base stride n =>
      base <- mutate base ;;
      stride <- mutate stride ;;
      if snd base && snd stride then ret (op, true)
      else ret (Ramp (fst base) (fst stride) n, false)
  | Broadcast value n =>
      value <- mutate value ;;
      if snd value then ret (op, true) else ret (Broadcast (fst value) n, false)
  | Call t name args ct =>
      args <- mutate_args args ;;
      if snd args then ret (op, true) else ret (Call t name (fst args) ct, false)
  | LetE name value body =>
      value <- mutate value ;;
      body <- mutate body ;;
      if snd value && snd body then ret (op, true)
      else ret (LetE name (fst value) (fst body), false)
  end.

Variable mutate_stmt : Stmt -> M S (Stmt * bool).

Definition visit_stmt (op : Stmt) : M S (Stmt * bool) :=
  match op with
  | LetStmt name value body =>
      value <- mutate value ;;
      body <- mutate_stmt body ;;
      if snd value && snd body then ret (op, true)
      else ret (LetStmt name (fst value) (fst body), false)
  | Evaluate value =>
      value <- mutate value ;;
      if snd value then ret (op, true) else ret (Evaluate (fst value), false)
  | Store name value index =>
      value <- mutate value ;;
      index <- mutate index ;;
      if snd value && snd index then ret (op, true)
      else ret (Store name (fst value) (fst index), false)
  | Block first rest =>
      first <- mutate_stmt first ;;
      rest <- mutate_stmt rest ;;
      if snd first && snd rest then ret (op, true)
      else ret (Block (fst first) (fst rest), false)
  end.
End Visit.
End IRMutator.

(* ================================================================= *)
(** ** Instruction selection                                          *)
(* ================================================================= *)

Section LosslessNegate.
Context {C : Collaborators}.

(** Unary minus of [IROperator.h]: zero minus the operand. *)
Definition neg (x : Expr) : Expr := Sub (make_const (type_of x) 0) x.

Fixpoint lossless_negate (x : Expr) : option Expr :=
  let negated_const :=
    if is_negative_negatable_const x || is_positive_const x
    then Some (simplify (neg x))
    else None in
  match x with
  | Mul a b =>
      match lossless_negate a with
      | Some a' => Some (Mul a' b)
      | None =>
          match lossless_negate b with
          | Some b' => Some (Mul a b')
          | None => negated_const
          end
      end
  | _ => negated_const
  end.
End LosslessNegate.

Module OptimizePatterns.
Section Visit.
Context {C : Collaborators}.

(** The mutator has no members. *)
Abbreviation St := unit.

(** [this], as the passes see it while visiting one node. *)
Variable mutate : Expr -> M St (Expr * bool).

Definition op_mutator (x : Expr) : M St Expr :=
  r <- mutate x ;; ret (fst r).

Definition visit_commutative_op (o : BinOp) (a b : Expr)
    (patterns : list Pattern) : M St (Expr * bool) :=
  let op := Binary o a b in
  if is_vector (type_of op) then
    r <- apply_patterns op patterns op_mutator ;;
    if negb (snd r) then ret (fst r, false) else
    (* Try commuting the op *)
    let commuted := Binary o b a in
    r <- apply_patterns commuted patterns op_mutator ;;
    if negb (snd r) then ret (fst r, false) else
    IRMutator.visit mutate op
  else IRMutator.visit mutate op.

Definition visit_Sub (a b : Expr) : M St (Expr * bool) :=
  let op := Sub a b in
  if is_vector (type_of op) then
    (* Try negating op->b, and using an add pattern if successful. *)
    match lossless_negate b with
    | Some neg_b =>
        let add := Add a neg_b in
        r <- apply_patterns add adds op_mutator ;;
        if negb (snd r) then ret (fst r, false) else
        let add := Add neg_b a in
        r <- apply_patterns add adds op_mutator ;;
        if negb (snd r) then ret (fst r, false) else
        IRMutator.visit mutate op
    | None => IRMutator.visit mutate op
    end
  else IRMutator.visit mutate op.

(** The two templates of the visitor of [Max]. *)
Definition cl : list (string * Expr) := [
  ("halide.hexagon.cls.vh",
   binop OpMax (count_leading_zeros wild_i16x)
               (count_leading_zeros (bitwise_not wild_i16x)));
  ("halide.hexagon.cls.vw",
   binop OpMax (count_leading_zeros wild_i32x)
               (count_leading_zeros (bitwise_not wild_i32x)))
].

(** The loop over [cl] on the mutated node [expr]: the replacement
    of the first template that matches with equal operands.  Reading
    [matches[1]] of a shorter vector is undefined in the source and
    halts here. *)
Fixpoint match_cl (t : HType) (expr : Expr) (table : list (string * Expr))
    : result (option Expr) :=
  match table with
  | [] => Ok None
  | i :: rest =>
      match expr_match (snd i) expr with
      | Some (m0 :: m1 :: _) =>
          if equal m0 m1
          then Ok (Some (binop_int OpAdd (Call t (fst i) [m0] PureExtern) 1))
          else match_cl t expr rest
      | Some _ => Fail internal_error
      | None => match_cl t expr rest
      end
  end.

Definition visit_Max (a b : Expr) : M St (Expr * bool) :=
  let op := Max a b in
  expr <- IRMutator.visit mutate op ;;
  if is_vector (type_of op) then
    r <- lift (match_cl (type_of op) (fst expr) cl) ;;
    match r with
    | Some e => ret (e, false)
    | None => ret expr
    end
  else ret expr.

Section CastRewrites.
Local Open Scope hexpr_scope.
Definition cast_rewrites : list (Expr * Expr) := [
  (* Saturating narrowing *)
  (u8c wild_u32x, u8c (u16c wild_u32x));
  (u8c wild_i32x, u8c (i16c wild_i32x));
  (i8c wild_u32x, i8c (u16c wild_u32x));
  (i8c wild_i32x, i8c (i16c wild_i32x));
  (* Narrowing *)
  (u8 wild_u32x, u8 (u16 wild_u32x));
  (u8 wild_i32x, u8 (i16 wild_i32x));
  (i8 wild_u32x, i8 (u16 wild_u32x));
  (i8 wild_i32x, i8 (i16 wild_i32x));
  (* Widening *)
  (u32 wild_u8x, u32 (u16 wild_u8x));
  (u32 wild_i8x, u32 (i16 wild_i8x));
  (i32 wild_u8x, i32 (u16 wild_u8x));
  (i32 wild_i8x, i32 (i16 wild_i8x))
].
End CastRewrites.

Fixpoint match_cast_rewrite (cast_ : Expr) (lns : Z) (table : list (Expr * Expr))
    : result (option Expr) :=
  match table with
  | [] => Ok None
  | i :: rest =>
      match expr_match (fst i) cast_ with
      | Some (m0 :: _) =>
          let replacement := with_lanes lns (snd i) in
          Ok (Some (substitute "*" m0 replacement))
      | Some [] => Fail internal_error
      | None => match_cast_rewrite cast_ lns rest
      end
  end.

Definition visit_Cast (t : HType) (value : Expr) : M St (Expr * bool) :=
  let op := Cast t value in
  if is_vector t then
    r <- apply_patterns op casts op_mutator ;;
    if negb (snd r) then ret (fst r, false) else
    (* If we didn't find a pattern, try using one of the rewrites. *)
    r <- lift (match_cast_rewrite op (lanes t) cast_rewrites) ;;
    match r with
    | Some expr => e <- mutate expr ;; ret (fst e, false)
    | None => IRMutator.visit mutate op
    end
  else IRMutator.visit mutate op.

Definition visit (op : Expr) : M St (Expr * bool) :=
  match op with
  | Mul a b => visit_commutative_op OpMul a b muls
  | Add a b => visit_commutative_op OpAdd a b adds
  | Sub a b => visit_Sub a b
  | Max a b => visit_Max a b
  | Cast t value => visit_Cast t value
  | _ => IRMutator.visit mutate op
  end.
End Visit.

(** Tying the knot.  An operand handed to [mutate] by
    [apply_patterns] or by the cast rewrites is not a part of the node
    being visited, so the recursion runs on a step counter. *)
Fixpoint mutate {C : Collaborators} (fuel : nat) (e : Expr) : M unit (Expr * bool) :=
  match fuel with
  | O => raise out_of_fuel
  | Datatypes.S fuel => visit (mutate fuel) e
  end.
End OptimizePatterns.

(* ================================================================= *)
(** ** Elimination of interleaves                                     *)
(* ================================================================= *)

Module EliminateInterleaves.
Section Visit.
Context {C : Collaborators}.

(** The member [Scope<bool> vars]. *)
Abbreviation St := (Scope bool).

Definition deinterleaved (name : string) : string :=
  String.append name ".deinterleaved".

Definition is_broadcast (x : Expr) : bool :=
  match x with Broadcast _ _ => true | _ => false end.

(** Check if x is an expression that is either an interleave, or can
    pretend to be one (is a scalar or a broadcast). *)
Definition yields_interleave (vars : St) (x : Expr) : bool :=
  if is_native_interleave x then true
  else if is_scalar (type_of x) || is_broadcast x then true
  else match x with
       | Variable_ _ name => contains vars (deinterleaved name)
       | _ => false
       end.

(** Check that at least one of exprs is an interleave, and that all
    of the exprs can yield an interleave. *)
Fixpoint yields_removable_interleave_from (vars : St) (any_is_interleave : bool)
    (exprs : list Expr) : bool :=
  match exprs with
  | [] => any_is_interleave
  | i :: rest =>
      if is_native_interleave i
      then yields_removable_interleave_from vars true rest
      else if negb (yields_interleave vars i) then false
      else yields_removable_interleave_from vars any_is_interleave rest
  end.

Definition yields_removable_interleave (vars : St) (exprs : list Expr) : bool :=
  yields_removable_interleave_from vars false exprs.

(** Asserting that x is an expression that can yield an interleave
    operation, return the expression being interleaved. *)
Definition remove_interleave (vars : St) (x : Expr) : result Expr :=
  if is_native_interleave x then
    match x with
    | Call _ _ (arg0 :: _) _ => Ok arg0
    | _ => Fail internal_error
    end
  else if is_scalar (type_of x) || is_broadcast x then Ok x
  else match x with
       | Variable_ t name =>
           if contains vars (deinterleaved name)
           then Ok (Variable_ t (deinterleaved name))
           else Fail internal_error
       | _ => Fail internal_error
       end.

Fixpoint remove_interleaves (vars : St) (args : list Expr) : result (list Expr) :=
  match args with
  | [] => Ok []
  | i :: rest =>
      match remove_interleave vars i with
      | Fail w => Fail w
      | Ok i' =>
          match remove_interleaves vars rest with
          | Fail w => Fail w
          | Ok rest' => Ok (i' :: rest')
          end
      end
  end.

Definition is_interleavable (t : HType) (name : string) (args : list Expr) : bool :=
  let interleavable :=
    ["bitwise_and"; "bitwise_not"; "bitwise_xor"; "bitwise_or";
     "shift_left"; "shift_right"; "abs"; "absd"] in
  if existsb (String.eqb name) interleavable then true else
  let not_interleavable :=
    ["halide.hexagon.interleave.vb"; "halide.hexagon.interleave.vh";
     "halide.hexagon.interleave.vw"; "halide.hexagon.deinterleave.vb";
     "halide.hexagon.deinterleave.vh"; "halide.hexagon.deinterleave.vw"] in
  if existsb (String.eqb name) not_interleavable then false else
  if starts_with name "halide.hexagon." then
    forallb (fun i =>
               is_scalar (type_of i) ||
               negb (negb (bits (type_of i) =? bits t) ||
                     negb (lanes (type_of i) =? lanes t))) args
  else true.

Record DeinterleavingAlternative :=
  { alt_name : string; extra_args : list Expr }.

Definition deinterleaving_alts : list (string * DeinterleavingAlternative) := [
  ("halide.hexagon.pack.vh", {| alt_name := "halide.hexagon.trunc.vh"; extra_args := [] |});
  ("halide.hexagon.pack.vw", {| alt_name := "halide.hexagon.trunc.vw"; extra_args := [] |});
  ("halide.hexagon.pack_satub.vh", {| alt_name := "halide.hexagon.trunc_satub.vh"; extra_args := [] |});
  ("halide.hexagon.pack_sath.vw", {| alt_name := "halide.hexagon.trunc_sath.vw"; extra_args := [] |});
  ("halide.hexagon.pack_satuh.vw",
   {| alt_name := "halide.hexagon.trunc_satuh_shr.vw.w";
      extra_args := [IntImm (Int 32 1) 0] |})
].

Fixpoint find_alt (name : string) (table : list (string * DeinterleavingAlternative))
    : option DeinterleavingAlternative :=
  match table with
  | [] => None
  | (n, alt) :: rest => if String.eqb n name then Some alt else find_alt name rest
  end.

Variable mutate : Expr -> M St (Expr * bool).

Definition visit_binary (o : BinOp) (op_a op_b : Expr) : M St (Expr * bool) :=
  let op := Binary o op_a op_b in
  a <- mutate op_a ;;
  b <- mutate op_b ;;
  vars <- get ;;
  (* We only want to pull out an interleave if at least one of the
     operands is an actual interleave. *)
  if yields_removable_interleave vars [fst a; fst b] then
    a' <- lift (remove_interleave vars (fst a)) ;;
    b' <- lift (remove_interleave vars (fst b)) ;;
    expr <- lift (native_interleave (Binary o a' b')) ;;
    ret (expr, false)
  else if negb (snd a) || negb (snd b) then
    ret (Binary o (fst a) (fst b), false)
  else ret (op, true).

Definition visit_Not (op_a : Expr) : M St (Expr * bool) :=
  let op := Not op_a in
  a <- mutate op_a ;;
  vars <- get ;;
  if is_native_interleave (fst a) then
    a' <- lift (remove_interleave vars (fst a)) ;;
    expr <- lift (native_interleave (Not a')) ;;
    ret (expr, false)
  else if negb (snd a) then ret (Not (fst a), false)
  else ret (op, true).

Definition visit_Select (op_c op_t op_f : Expr) : M St (Expr * bool) :=
  let op := Select op_c op_t op_f in
  cond <- mutate op_c ;;
  true_value <- mutate op_t ;;
  false_value <- mutate op_f ;;
  vars <- get ;;
  if yields_removable_interleave vars [fst cond; fst true_value; fst false_value] then
    c' <- lift (remove_interleave vars (fst cond)) ;;
    t' <- lift (remove_interleave vars (fst true_value)) ;;
    f' <- lift (remove_interleave vars (fst false_value)) ;;
    expr <- lift (native_interleave (Select c' t' f')) ;;
    ret (expr, false)
  else if negb (snd cond) || negb (snd true_value) || negb (snd false_value) then
    ret (Select (fst cond) (fst true_value) (fst false_value), false)
  else ret (op, true).

(** [visit_let<NodeType, LetType>]: [op] is the let node, of which
    [op_name], [op_value] and [op_body] are the fields; [make] is
    [LetType::make], [mutate_body] and [uses_var] the overloads for
    [NodeType]. *)
Definition visit_let {NodeType : Type}
    (mutate_body : NodeType -> M St (NodeType * bool))
    (uses_var : NodeType -> string -> bool)
    (make : string -> Expr -> NodeType -> NodeType)
    (op : NodeType) (op_name : string) (op_value : Expr) (op_body : NodeType)
    : M St (NodeType * bool) :=
  value <- mutate op_value ;;
  let deinterleaved_name := deinterleaved op_name in
  body <- (if is_native_interleave (fst value) then
             (* We can provide a deinterleaved version of this let value. *)
             modify (push deinterleaved_name true) ;;;
             body <- mutate_body op_body ;;
             modify (pop deinterleaved_name) ;;;
             ret body
           else mutate_body op_body) ;;
  if snd value && snd body then ret (op, true)
  else if snd body then
    (* If the body didn't change, we must not have used the
       deinterleaved value. *)
    ret (make op_name (fst value) (fst body), false)
  else
    (* We need to rewrap the body with new lets. *)
    let result := fst body in
    let deinterleaved_used := uses_var result deinterleaved_name in
    let interleaved_used := uses_var result op_name in
    vars <- get ;;
    if deinterleaved_used && interleaved_used then
      (* The body uses both the interleaved and deinterleaved version
         of this let. Generate both lets, using the deinterleaved one
         to generate the interleaved one. *)
      deinterleaved <- lift (remove_interleave vars (fst value)) ;;
      let deinterleaved_var := Variable_ (type_of deinterleaved) deinterleaved_name in
      marker <- lift (native_interleave deinterleaved_var) ;;
      let result := make op_name marker result in
      let result := make deinterleaved_name deinterleaved result in
      ret (result, false)
    else if deinterleaved_used then
      (* Only the deinterleaved value is used, we can eliminate the
         interleave. *)
      deinterleaved <- lift (remove_interleave vars (fst value)) ;;
      ret (make deinterleaved_name deinterleaved result, false)
    else if interleaved_used then
      (* Only the original value is used, regenerate the let. *)
      ret (make op_name (fst value) result, false)
    else
      (* The let must have been dead. *)
      if negb (uses_var op_body op_name) then ret (result, false)
      else raise internal_error.

Definition visit_Cast (t : HType) (op_value : Expr) : M St (Expr * bool) :=
  let op := Cast t op_value in
  if bits t =? bits (type_of op_value) then
    (* We can move interleaves through casts of the same size. *)
    value <- mutate op_value ;;
    vars <- get ;;
    if is_native_interleave (fst value) then
      value' <- lift (remove_interleave vars (fst value)) ;;
      expr <- lift (native_interleave (Cast t value')) ;;
      ret (expr, false)
    else if negb (snd value) then ret (Cast t (fst value), false)
    else ret (op, true)
  else IRMutator.visit mutate op.

Definition visit_Call (t : HType) (name : string) (op_args : list Expr)
    (ct : CallType) : M St (Expr * bool) :=
  let op := Call t name op_args ct in
  (* mutate all the args. *)
  r <- IRMutator.mutate_args mutate op_args ;;
  let args := fst r in
  let changed := negb (snd r) in
  vars <- get ;;
  if is_native_deinterleave op &&
     match args with
     | arg0 :: _ => yields_interleave vars arg0
     | [] => false
     end then
    (* This is a deinterleave of an interleave! Remove them both. *)
    match args with
    | arg0 :: _ => expr <- lift (remove_interleave vars arg0) ;; ret (expr, false)
    | [] => raise internal_error
    end
  else if is_interleavable t name op_args && yields_removable_interleave vars args then
    (* All the arguments yield interleaves (and one of them is an
       interleave), create a new call with the interleave removed from
       the arguments. *)
    args' <- lift (remove_interleaves vars args) ;;
    (* Add the interleave back to the result of the call. *)
    expr <- lift (native_interleave (Call t name args' ct)) ;;
    ret (expr, false)
  else
    match find_alt name deinterleaving_alts with
    | Some alt =>
        if yields_removable_interleave vars args then
          (* This call has a deinterleaving alternative, and the
             arguments are interleaved, so we should use the alternative
             instead. *)
          args' <- lift (remove_interleaves vars args) ;;
          ret (Call t (alt_name alt) (args' ++ extra_args alt)%list ct, false)
        else if changed then ret (Call t name args ct, false)
        else ret (op, true)
    | None =>
        if changed then ret (Call t name args ct, false)
        else ret (op, true)
    end.

Definition visit (op : Expr) : M St (Expr * bool) :=
  match op with
  | Binary o a b => visit_binary o a b
  | Not a => visit_Not a
  | Select c t f => visit_Select c t f
  | LetE name value body => visit_let mutate expr_uses_var LetE op name value body
  | Cast t value => visit_Cast t value
  | Call t name args ct => visit_Call t name args ct
  | _ => IRMutator.visit mutate op
  end.

Variable mutate_stmt : Stmt -> M St (Stmt * bool).

Definition visit_stmt (op : Stmt) : M St (Stmt * bool) :=
  match op with
  | LetStmt name value body =>
      visit_let mutate_stmt stmt_uses_var LetStmt op name value body
  | _ => IRMutator.visit_stmt mutate mutate_stmt op
  end.
End Visit.

Fixpoint mutate {C : Collaborators} (e : Expr) : M (Scope bool) (Expr * bool) :=
  visit mutate e.

Fixpoint mutate_stmt {C : Collaborators} (s : Stmt) : M (Scope bool) (Stmt * bool) :=
  visit_stmt mutate mutate_stmt s.
End EliminateInterleaves.

(* ================================================================= *)
(** ** Upper bounds and shuffles                                      *)
(* ================================================================= *)

(** Find a conservative upper bound of an expression. *)
Module UpperBound.
Section Visit.
Context {C : Collaborators}.
Variable mutate : Expr -> M unit (Expr * bool).

Definition visit_Sub (op_a op_b : Expr) : M unit (Expr * bool) :=
  let op := Sub op_a op_b in
  a <- mutate op_a ;;
  b <- mutate op_b ;;
  let rebuilt :=
    if negb (snd a) || negb (snd b) then ret (Sub (fst a) (fst b), false)
    else ret (op, true) in
  let mins :=
    match fst a, fst b with
    | Min min_a_a min_a_b, Min min_b_a min_b_b =>
        if equal min_a_b min_b_b then
          r <- mutate (simplify (binop OpSub min_a_a min_b_a)) ;;
          ret (fst r, false)
        else rebuilt
    | _, _ => rebuilt
    end in
  match fst a, fst b with
  | Max max_a_a max_a_b, Max max_b_a max_b_b =>
      if equal max_a_b max_b_b then
        r <- mutate (simplify (binop OpSub max_a_a max_b_a)) ;;
        ret (fst r, false)
      else mins
  | _, _ => mins
  end.

Definition visit (op : Expr) : M unit (Expr * bool) :=
  match op with
  | Sub a b => visit_Sub a b
  | _ => IRMutator.visit mutate op
  end.
End Visit.

(** The simplified difference is mutated again, so the recursion
    runs on a step counter. *)
Fixpoint mutate {C : Collaborators} (fuel : nat) (e : Expr) : M unit (Expr * bool) :=
  match fuel with
  | O => raise out_of_fuel
  | Datatypes.S fuel => visit (mutate fuel) e
  end.
End UpperBound.

Definition upper_bound {C : Collaborators} (fuel : nat) (x : Expr) : result Expr :=
  match UpperBound.mutate fuel x tt with
  | Ok (r, _) => Ok (simplify (fst r))
  | Fail w => Fail w
  end.

(** Replace indirect loads with dynamic_shuffle intrinsics where
    possible. *)
Module OptimizeShuffles.
Section Visit.
Context {C : Collaborators}.

(** The member [Scope<Interval> bounds]. *)
Abbreviation St := (Scope Interval).

(** Steps granted to each call of [upper_bound]. *)
Variable fuel : nat.
Variable mutate : Expr -> M St (Expr * bool).

Definition is_ramp (x : Expr) : bool :=
  match x with Ramp _ _ _ => true | _ => false end.

Definition visit_let {NodeType : Type}
    (default_visit : NodeType -> M St (NodeType * bool))
    (op : NodeType) (op_name : string) (op_value : Expr) : M St (NodeType * bool) :=
  (* We only care about vector lets. *)
  (if is_vector (type_of op_value) then
     bounds <- get ;;
     modify (push op_name (bounds_of_expr_in_scope op_value bounds))
   else ret tt) ;;;
  r <- default_visit op ;;
  (if is_vector (type_of op_value) then modify (pop op_name) else ret tt) ;;;
  ret r.

Definition visit_Load (t : HType) (name : string) (op_index : Expr)
    : M St (Expr * bool) :=
  let op := Load t name op_index in
  if negb (is_vector t) || is_ramp op_index then
    (* Don't handle scalar or simple vector loads. *)
    IRMutator.visit mutate op
  else
    index <- mutate op_index ;;
    bounds <- get ;;
    let index_bounds := bounds_of_expr_in_scope (fst index) bounds in
    match max index_bounds, min index_bounds with
    | Some index_bounds_max, Some index_bounds_min =>
        let index_span := binop OpSub index_bounds_max index_bounds_min in
        let index_span := common_subexpression_elimination index_span in
        let index_span := simplify index_span in
        index_span <- lift (upper_bound fuel index_span) ;;
        if is_one (simplify (binop_int OpLT index_span 256)) then
          (* This is a lookup within an up to 256 element array. We can
             use dynamic_shuffle for this. *)
          let const_extent :=
            match as_const_int index_span with
            | Some v => v + 1
            | None => 256
            end in
          let base := simplify index_bounds_min in
          (* Load all of the possible indices loaded from the LUT. *)
          ramp <- lift (Ramp_make base (IntImm (Int 32 1) 1) const_extent) ;;
          let lut := Load (with_lanes_t t const_extent) name ramp in
          (* We know the size of the LUT is not more than 256, so we can
             safely cast the index to 8 bit, which dynamic_shuffle
             requires. *)
          let index' := simplify (cast (with_lanes_t (UInt 8 1) (lanes t))
                                       (binop OpSub (fst index) base)) in
          ret (Call t "dynamic_shuffle"
                    [lut; index'; IntImm (Int 32 1) 0; IntImm (Int 32 1) const_extent]
                    PureIntrinsic, false)
        else if negb (snd index) then ret (Load t name (fst index), false)
        else ret (op, true)
    | _, _ =>
        (* index_bounds.max - index_bounds.min is formed without looking
           whether the bounds are defined; the difference of
           [IROperator.h] reports an undefined operand to the user and
           halts. *)
        raise user_error
    end.

Definition visit (op : Expr) : M St (Expr * bool) :=
  match op with
  | LetE name value _ => visit_let (IRMutator.visit mutate) op name value
  | Load t name index => visit_Load t name index
  | _ => IRMutator.visit mutate op
  end.

Variable mutate_stmt : Stmt -> M St (Stmt * bool).

Definition visit_stmt (op : Stmt) : M St (Stmt * bool) :=
  match op with
  | LetStmt name value _ =>
      visit_let (IRMutator.visit_stmt mutate mutate_stmt) op name value
  | _ => IRMutator.visit_stmt mutate mutate_stmt op
  end.
End Visit.

Fixpoint mutate {C : Collaborators} (fuel : nat) (e : Expr) : M (Scope Interval) (Expr * bool) :=
  visit fuel (mutate fuel) e.

Fixpoint mutate_stmt {C : Collaborators} (fuel : nat) (s : Stmt)
    : M (Scope Interval) (Stmt * bool) :=
  visit_stmt (mutate fuel) (mutate_stmt fuel) s.
End OptimizeShuffles.

Definition optimize_hexagon_shuffles {C : Collaborators} (fuel : nat) (s : Stmt)
    : result Stmt :=
  match OptimizeShuffles.mutate_stmt fuel s [] with
  | Ok (r, _) => Ok (fst r)
  | Fail w => Fail w
  end.

(* ================================================================= *)
(** ** An executable instance of the collaborators                    *)
(* ================================================================= *)

Module Model.

(** Modelled from the spec: "a structural matcher returning
    success/positional-bindings for a wildcard template against a
    candidate"; "a match binds wildcards to sub-expressions of
    compatible type-shape".  A variable named ["*"] of the template
    is a wildcard; a lane count (or width) of 0 in a template type
    matches any. *)
Definition types_match (pattern_type expr_type : HType) : bool :=
  ((bits pattern_type =? 0) || (bits pattern_type =? bits expr_type)) &&
  ((lanes pattern_type =? 0) || (lanes pattern_type =? lanes expr_type)) &&
  TypeCode_eqb (code pattern_type) (code expr_type).

Definition both {A} (x y : option (list A)) : option (list A) :=
  match x, y with
  | Some a, Some b => Some (a ++ b)%list
  | _, _ => None
  end.

Fixpoint expr_match (p e : Expr) {struct p} : option (list Expr) :=
  match p with
  | Variable_ t n =>
      if types_match t (type_of e) then
        if String.eqb n "*" then Some [e]
        else match e with
             | Variable_ _ n' => if String.eqb n n' then Some [] else None
             | _ => None
             end
      else None
  | IntImm t v =>
      match e with
      | IntImm t' v' => if (v =? v') && types_match t t' then Some [] else None
      | _ => None
      end
  | UIntImm t v =>
      match e with
      | UIntImm t' v' => if (v =? v') && types_match t t' then Some [] else None
      | _ => None
      end
  | Cast t pv =>
      match e with
      | Cast t' ev => if types_match t t' then expr_match pv ev else None
      | _ => None
      end
  | Binary o pa pb =>
      match e with
      | Binary o' ea eb =>
          if BinOp_eqb o o' then both (expr_match pa ea) (expr_match pb eb)
          else None
      | _ => None
      end
  | Not pa =>
      match e with Not ea => expr_match pa ea | _ => None end
  | Select pc pt pf =>
      match e with
      | Select ec et ef =>
          both (expr_match pc ec) (both (expr_match pt et) (expr_match pf ef))
      | _ => None
      end
  | Load t n pi =>
      match e with
      | Load t' n' ei =>
          if types_match t t' && String.eqb n n' then expr_match pi ei else None
      | _ => None
      end
  | Ramp pb ps n =>
      match e with
      | Ramp eb es n' =>
          if (n =? 0) || (n =? n') then both (expr_match pb eb) (expr_match ps es)
          else None
      | _ => None
      end
  | Broadcast pv n =>
      match e with
      | Broadcast ev n' =>
          if (n =? 0) || (n =? n') then expr_match pv ev else None
      | _ => None
      end
  | Call t n pargs ct =>
      match e with
      | Call t' n' eargs ct' =>
          if types_match t t' && String.eqb n n' && CallType_eqb ct ct' then
            (fix go (ps es : list Expr) {struct ps} : option (list Expr) :=
               match ps, es with
               | [], [] => Some []
               | p :: ps, e :: es => both (expr_match p e) (go ps es)
               | _, _ => None
               end) pargs eargs
          else None
      | _ => None
      end
  | LetE n pv pb =>
      match e with
      | LetE n' ev eb =>
          if String.eqb n n' then both (expr_match pv ev) (expr_match pb eb)
          else None
      | _ => None
      end
  end.

(** Modelled from the spec: "a lossless-cast query returning a
    provably-equal-value cast or an absent result". *)
Definition can_represent_type (t other : HType) : bool :=
  (lanes t =? lanes other) &&
  match code t, code other with
  | TInt, TInt => bits other <=? bits t
  | TInt, TUInt => bits other <? bits t
  | TUInt, TUInt => bits other <=? bits t
  | _, _ => false
  end.

Definition can_represent_value (t : HType) (v : Z) : bool :=
  match code t with
  | TInt => (- 2 ^ (bits t - 1) <=? v) && (v <=? 2 ^ (bits t - 1) - 1)
  | TUInt => (0 <=? v) && (v <=? 2 ^ bits t - 1)
  | _ => false
  end.

Fixpoint lossless_cast (t : HType) (e : Expr) : option Expr :=
  if HType_eqb t (type_of e) then Some e
  else if can_represent_type t (type_of e) then Some (cast t e)
  else match e with
       | Cast _ value =>
           if can_represent_type t (type_of value) then lossless_cast t value
           else None
       | Broadcast value n =>
           match lossless_cast (element_of t) value with
           | Some v => Some (Broadcast v n)
           | None => None
           end
       | IntImm _ v | UIntImm _ v =>
           if can_represent_value t v then Some (make_const t v) else None
       | _ => None
       end.

(** Modelled from the spec: the "constant/power-of-two/sign
    predicates". *)
Fixpoint is_const_power_of_two_integer (e : Expr) : option Z :=
  match e with
  | Broadcast b _ => is_const_power_of_two_integer b
  | Cast _ c => is_const_power_of_two_integer c
  | IntImm _ v | UIntImm _ v =>
      if (0 <? v) && (v =? 2 ^ Z.log2 v) then Some (Z.log2 v) else None
  | _ => None
  end.

Fixpoint is_positive_const (e : Expr) : bool :=
  match e with
  | IntImm _ v | UIntImm _ v => 0 <? v
  | Cast _ c => is_positive_const c
  | Ramp b s _ => is_positive_const b && is_positive_const s
  | Broadcast b _ => is_positive_const b
  | _ => false
  end.

Fixpoint is_negative_negatable_const_in (T : HType) (e : Expr) : bool :=
  match e with
  | IntImm _ v => (v <? 0) && negb (v =? - 2 ^ (bits T - 1))
  | Cast t c => is_negative_negatable_const_in t c
  | Broadcast b _ => is_negative_negatable_const_in (type_of b) b
  | _ => false
  end.

Definition is_negative_negatable_const (e : Expr) : bool :=
  is_negative_negatable_const_in (type_of e) e.

(** Modelled from the spec: the "algebraic simplifier", reduced to
    the folding of constants (scalars and broadcasts of scalars).  A
    folded constant is a value of its type: it wraps around. *)
Definition fold_scalar (o : BinOp) (t : HType) (x y : Z) : option Expr :=
  let boolean (b : bool) := Some (make_const (Bool_ (lanes t)) (if b then 1 else 0)) in
  let x := wrap t x in
  let y := wrap t y in
  match o with
  | OpAdd => Some (make_const t (wrap t (x + y)))
  | OpSub => Some (make_const t (wrap t (x - y)))
  | OpMul => Some (make_const t (wrap t (x * y)))
  | OpMin => Some (make_const t (wrap t (Z.min x y)))
  | OpMax => Some (make_const t (wrap t (Z.max x y)))
  | OpLT => boolean (x <? y)
  | OpLE => boolean (x <=? y)
  | OpGT => boolean (y <? x)
  | OpGE => boolean (y <=? x)
  | OpEQ => boolean (x =? y)
  | OpNE => boolean (negb (x =? y))
  | _ => None
  end.

Definition fold_binary (o : BinOp) (a b : Expr) : Expr :=
  match as_const a, as_const b with
  | Some x, Some y =>
      match fold_scalar o (type_of a) x y with
      | Some e => e
      | None => Binary o a b
      end
  | _, _ => Binary o a b
  end.

Fixpoint simplify (e : Expr) : Expr :=
  match e with
  | Binary o a b => fold_binary o (simplify a) (simplify b)
  | Cast t v =>
      let v' := simplify v in
      match as_const v' with
      | Some c => make_const t (wrap t (wrap (type_of v') c))
      | None => Cast t v'
      end
  | Broadcast v n => Broadcast (simplify v) n
  | _ => e
  end.

(** Modelled from the spec: the "common-subexpression eliminator";
    sharing nothing is the least it may do. *)
Definition common_subexpression_elimination (e : Expr) : Expr := e.

(** Modelled from the spec: the "template-substitution utility",
    replacing the variables called [name]. *)
Fixpoint substitute (name : string) (replacement : Expr) (e : Expr) : Expr :=
  match e with
  | Variable_ _ n => if String.eqb n name then replacement else e
  | IntImm _ _ | UIntImm _ _ => e
  | Cast t v => Cast t (substitute name replacement v)
  | Binary o a b =>
      Binary o (substitute name replacement a) (substitute name replacement b)
  | Not a => Not (substitute name replacement a)
  | Select c t f =>
      Select (substitute name replacement c) (substitute name replacement t)
             (substitute name replacement f)
  | Load t n i => Load t n (substitute name replacement i)
  | Ramp b s n => Ramp (substitute name replacement b) (substitute name replacement s) n
  | Broadcast v n => Broadcast (substitute name replacement v) n
  | Call t n args ct => Call t n (map (substitute name replacement) args) ct
  | LetE n v b =>
      LetE n (substitute name replacement v)
           (if String.eqb n name then b else substitute name replacement b)
  end.

(** Modelled from the spec: whether a tree "references" a name: some
    variable node of the tree carries it. *)
Fixpoint expr_uses_var (e : Expr) (var : string) : bool :=
  match e with
  | Variable_ _ n => String.eqb n var
  | IntImm _ _ | UIntImm _ _ => false
  | Cast _ v | Not v | Broadcast v _ | Load _ _ v => expr_uses_var v var
  | Binary _ a b | Ramp a b _ | LetE _ a b =>
      expr_uses_var a var || expr_uses_var b var
  | Select c t f =>
      expr_uses_var c var || expr_uses_var t var || expr_uses_var f var
  | Call _ _ args _ => existsb (fun a => expr_uses_var a var) args
  end.

Fixpoint stmt_uses_var (s : Stmt) (var : string) : bool :=
  match s with
  | LetStmt _ v b => expr_uses_var v var || stmt_uses_var b var
  | Evaluate v => expr_uses_var v var
  | Store _ v i => expr_uses_var v var || expr_uses_var i var
  | Block a b => stmt_uses_var a var || stmt_uses_var b var
  end.

(** Modelled from the spec: "a bounds-of-expression-in-scope function
    returning (min,max)".  A value that is not understood is bounded
    by the range of its element type when that is an integer type of
    at most 16 bits, and is unbounded otherwise; a minimum or maximum
    is bounded on a side where both operands are, and from above
    (from below) as soon as one is. *)
Fixpoint find_bounds (name : string) (scope : Scope Interval) : option Interval :=
  match scope with
  | [] => None
  | (n, i) :: rest => if String.eqb n name then Some i else find_bounds name rest
  end.

Definition bounds_of_type (t : HType) : Interval :=
  let e := element_of t in
  if (is_int e || is_uint e) && (bits e <=? 16)
  then mkInterval (Some (type_min e)) (Some (type_max e))
  else mkInterval None None.

Definition both_bounds (o : BinOp) (a b : option Expr) : option Expr :=
  match a, b with
  | Some a, Some b => Some (simplify (Binary o a b))
  | _, _ => None
  end.

Definition either_bound (o : BinOp) (a b : option Expr) : option Expr :=
  match a, b with
  | Some a, Some b => Some (simplify (Binary o a b))
  | Some a, None => Some a
  | None, b => b
  end.

Fixpoint bounds_of_expr_in_scope (e : Expr) (scope : Scope Interval) : Interval :=
  match e with
  | IntImm _ _ | UIntImm _ _ => mkInterval (Some e) (Some e)
  | Variable_ t n =>
      match find_bounds n scope with
      | Some i => i
      | None => if is_scalar t then mkInterval (Some e) (Some e) else bounds_of_type t
      end
  | Broadcast v _ => bounds_of_expr_in_scope v scope
  | Cast t v =>
      let b := bounds_of_expr_in_scope v scope in
      if can_represent_type (element_of t) (element_of (type_of v))
      then mkInterval (option_map (fun m => simplify (cast (element_of t) m)) (min b))
                      (option_map (fun m => simplify (cast (element_of t) m)) (max b))
      else bounds_of_type t
  | Min a b =>
      let ba := bounds_of_expr_in_scope a scope in
      let bb := bounds_of_expr_in_scope b scope in
      mkInterval (both_bounds OpMin (min ba) (min bb)) (either_bound OpMin (max ba) (max bb))
  | Max a b =>
      let ba := bounds_of_expr_in_scope a scope in
      let bb := bounds_of_expr_in_scope b scope in
      mkInterval (either_bound OpMax (min ba) (min bb)) (both_bounds OpMax (max ba) (max bb))
  | _ => bounds_of_type (type_of e)
  end.

#[export] Instance collaborators : Collaborators :=
  Build_Collaborators expr_match lossless_cast is_const_power_of_two_integer
    is_negative_negatable_const is_positive_const simplify
    common_subexpression_elimination substitute expr_uses_var stmt_uses_var
    bounds_of_expr_in_scope.
End Model.

(* ================================================================= *)
(** ** Vocabulary of the properties                                   *)
(* ================================================================= *)

(** A computation that leaves the scope as it found it. *)
Definition restoring {S A} (c : M S A) : Prop :=
  forall s r s', c s = Ok (r, s') -> s' = s.

Section Negatable.
Context {C : Collaborators}.

(** What can be negated without loss: a negatable constant, or a
    product with a negatable factor. *)
Inductive negatable : Expr -> Prop :=
| negatable_const x :
    is_negative_negatable_const x || is_positive_const x = true -> negatable x
| negatable_factor_a a b : negatable a -> negatable (Mul a b)
| negatable_factor_b a b : negatable b -> negatable (Mul a b).
End Negatable.

(** The types of the wildcards of a template, in the order in which
    a match binds them. *)
Fixpoint wildcards (p : Expr) : list HType :=
  match p with
  | Variable_ t n => if String.eqb n "*" then [t] else []
  | IntImm _ _ | UIntImm _ _ => []
  | Cast _ v | Not v | Broadcast v _ | Load _ _ v => wildcards v
  | Binary _ a b | Ramp a b _ | LetE _ a b => wildcards a ++ wildcards b
  | Select c t f => wildcards c ++ wildcards t ++ wildcards f
  | Call _ _ args _ => flat_map wildcards args
  end.

(** What the flags of a pattern ask of its template: at most three
    wildcards (beyond that the shifted bits of one group run into the
    next), enough of them for the swaps, a vector wildcard that is not
    turned into a logarithm wherever a deinterleave is asked for, and
    a wildcard wherever a logarithm is asked for. *)
Definition operand_flags_ok (p : Pattern) : bool :=
  let f := Pattern.flags p in
  let w := wildcards (Pattern.pattern p) in
  let n := Z.of_nat (List.length w) in
  (n <=? 3) &&
  implb (has_flag f Pattern.SwapOps01) (2 <=? n) &&
  implb (has_flag f Pattern.SwapOps12) (3 <=? n) &&
  forallb (fun i =>
             implb (has_flag f (Z.shiftl Pattern.DeinterleaveOp0 (Z.of_nat i)))
                   (match nth_error w i with
                    | Some t => is_vector t
                    | None => false
                    end &&
                    negb ((1 <=? Z.of_nat i) &&
                          has_flag f (Z.shiftl Pattern.ExactLog2Op1 (Z.of_nat i - 1)))))
          [0; 1; 2]%nat &&
  forallb (fun i =>
             implb (has_flag f (Z.shiftl Pattern.ExactLog2Op1 (Z.of_nat i - 1)))
                   (Z.of_nat i <? n))
          [1; 2]%nat.

(** Modelled from the spec: the value of an integer expression "for
    every valuation of the free variables", without overflow. *)
Fixpoint eval (env : string -> Z) (e : Expr) : option Z :=
  match e with
  | IntImm _ v | UIntImm _ v => Some v
  | Variable_ _ n => Some (env n)
  | Binary o a b =>
      match eval env a, eval env b with
      | Some x, Some y =>
          match o with
          | OpAdd => Some (x + y)
          | OpSub => Some (x - y)
          | OpMul => Some (x * y)
          | OpMin => Some (Z.min x y)
          | OpMax => Some (Z.max x y)
          | _ => None
          end
      | _, _ => None
      end
  | _ => None
  end.

Section ShuffleVocabulary.
Context {C : Collaborators}.

(** The span of an index between defined bounds, as [visit_Load]
    computes it before widening. *)
Definition index_span (index_max index_min : Expr) : Expr :=
  simplify (common_subexpression_elimination (binop OpSub index_max index_min)).

(** The length of the table, from the widened span. *)
Definition table_extent (span : Expr) : Z :=
  match as_const_int span with Some v => v + 1 | None => 256 end.

(** The replacement of a load by a lookup, as [visit_Load] builds
    it. *)
Definition lookup (t : HType) (name : string) (index span index_min : Expr) : Expr :=
  let base := simplify index_min in
  Call t "dynamic_shuffle"
       [Load (with_lanes_t t (table_extent span)) name
             (Ramp base (IntImm (Int 32 1) 1) (table_extent span));
        simplify (cast (with_lanes_t (UInt 8 1) (lanes t)) (binop OpSub index base));
        IntImm (Int 32 1) 0;
        IntImm (Int 32 1) (table_extent span)]
       PureIntrinsic.
End ShuffleVocabulary.

(** Concrete trees used to run the passes. *)
Module Examples.
Definition i16x64 : HType := Int 16 64.
Definition i32x64 : HType := Int 32 64.
Definition u8x64 : HType := UInt 8 64.
Definition interleave_vh (e : Expr) : Expr :=
  Call i16x64 "halide.hexagon.interleave.vh" [e] PureExtern.
Definition deinterleave_vh (e : Expr) : Expr :=
  Call i16x64 "halide.hexagon.deinterleave.vh" [e] PureExtern.
Definition v : Expr := Variable_ i16x64 "v".
Definition x : Expr := Variable_ i16x64 "x".
Definition x_deinterleaved : Expr := Variable_ i16x64 "x.deinterleaved".
(** Indices of a gather: loaded bytes, loaded halfwords clamped from
    above, loaded words. *)
Definition ramp : Expr := Ramp (Variable_ (Int 32 1) "x0") (IntImm (Int 32 1) 1) 64.
Definition bytes : Expr := Cast i32x64 (Load u8x64 "idx" ramp).
Definition halfwords : Expr := Cast i32x64 (Load (UInt 16 64) "idx" ramp).
Definition words : Expr := Load i32x64 "idx" ramp.
Definition k (c : Z) : Expr := Broadcast (IntImm (Int 32 1) c) 64.
Definition lut (index : Expr) : Expr := Load u8x64 "lut" index.
End Examples.

(* ================================================================= *)
(** ** optimize_hexagon_instructions                                  *)
(* ================================================================= *)

(** [OptimizePatterns] has no rule for statements: they are visited
    the generic way. *)
Fixpoint optimize_patterns_stmt {C : Collaborators} (fuel : nat) (s : Stmt)
    : M unit (Stmt * bool) :=
  IRMutator.visit_stmt (OptimizePatterns.mutate fuel) (optimize_patterns_stmt fuel) s.

Definition optimize_hexagon_instructions {C : Collaborators} (fuel : nat) (s : Stmt)
    : result Stmt :=
  (* Peephole optimize for Hexagon instructions. *)
  match optimize_patterns_stmt fuel s tt with
  | Fail w => Fail w
  | Ok ((s, _), _) =>
      (* Try to eliminate any redundant interleave/deinterleave pairs. *)
      match EliminateInterleaves.mutate_stmt s [] with
      | Fail w => Fail w
      | Ok ((s, _), _) => Ok s
      end
  end.

(* ================================================================= *)
(** ** Vocabulary of the further properties                           *)
(* ================================================================= *)

(** No node of the tree is an interleave or a deinterleave marker. *)
Fixpoint marker_free (e : Expr) : bool :=
  match e with
  | IntImm _ _ | UIntImm _ _ | Variable_ _ _ => true
  | Cast _ v | Not v | Broadcast v _ | Load _ _ v => marker_free v
  | Binary _ a b | Ramp a b _ | LetE _ a b => marker_free a && marker_free b
  | Select c t f => marker_free c && marker_free t && marker_free f
  | Call _ _ args _ =>
      negb (is_native_interleave e) && negb (is_native_deinterleave e) &&
      forallb marker_free args
  end.

Fixpoint marker_free_stmt (s : Stmt) : bool :=
  match s with
  | LetStmt _ v b => marker_free v && marker_free_stmt b
  | Evaluate v => marker_free v
  | Store _ v i => marker_free v && marker_free i
  | Block a b => marker_free_stmt a && marker_free_stmt b
  end.

(** The nodes the instruction selector has a rule for (multiply, add,
    subtract, max and cast) are all of a scalar type. *)
Fixpoint selector_inert (e : Expr) : bool :=
  match e with
  | IntImm _ _ | UIntImm _ _ | Variable_ _ _ => true
  | Cast t v => negb (is_vector t) && selector_inert v
  | Binary o a b =>
      match o with
      | OpMul | OpAdd | OpSub | OpMax => negb (is_vector (type_of e))
      | _ => true
      end && selector_inert a && selector_inert b
  | Not v | Broadcast v _ | Load _ _ v => selector_inert v
  | Ramp a b _ | LetE _ a b => selector_inert a && selector_inert b
  | Select c t f => selector_inert c && selector_inert t && selector_inert f
  | Call _ _ args _ => forallb selector_inert args
  end.

(** The number of nodes on the longest path of a tree. *)
Fixpoint depth (e : Expr) : nat :=
  match e with
  | IntImm _ _ | UIntImm _ _ | Variable_ _ _ => 1
  | Cast _ v | Not v | Broadcast v _ | Load _ _ v => S (depth v)
  | Binary _ a b | Ramp a b _ | LetE _ a b => S (Nat.max (depth a) (depth b))
  | Select c t f => S (Nat.max (depth c) (Nat.max (depth t) (depth f)))
  | Call _ _ args _ => S (fold_right (fun a n => Nat.max (depth a) n) O args)
  end.

(** No load of the tree is a gather: each is scalar or reads through
    a ramp. *)
Fixpoint gather_free (e : Expr) : bool :=
  match e with
  | IntImm _ _ | UIntImm _ _ | Variable_ _ _ => true
  | Load t _ i => (negb (is_vector t) || OptimizeShuffles.is_ramp i) && gather_free i
  | Cast _ v | Not v | Broadcast v _ => gather_free v
  | Binary _ a b | Ramp a b _ | LetE _ a b => gather_free a && gather_free b
  | Select c t f => gather_free c && gather_free t && gather_free f
  | Call _ _ args _ => forallb gather_free args
  end.

(** The binary nodes whose result is a vector of booleans. *)
Definition is_boolean_op (o : BinOp) : bool :=
  match o with
  | OpEQ | OpNE | OpLT | OpLE | OpGT | OpGE | OpAnd | OpOr => true
  | _ => false
  end.

(** The names [is_interleavable] lists: the markers, which never let
    a marker through, and the calls that always do. *)
Definition marker_names : list string :=
  ["halide.hexagon.interleave.vb"; "halide.hexagon.interleave.vh";
   "halide.hexagon.interleave.vw"; "halide.hexagon.deinterleave.vb";
   "halide.hexagon.deinterleave.vh"; "halide.hexagon.deinterleave.vw"].

Definition transparent_names : list string :=
  ["bitwise_and"; "bitwise_not"; "bitwise_xor"; "bitwise_or";
   "shift_left"; "shift_right"; "abs"; "absd"].

(** Modelled from the spec: "an immutable typed expression tree".
    The constructors of [IR.cpp] and the operators of [IROperator.h]
    give the operands of a binary node and the branches of a select
    one type, a cast and a load the lane count of their operand, a
    ramp and a broadcast scalar operands, and a pointwise intrinsic
    the lane count of its operands. *)
Fixpoint well_typed (e : Expr) : bool :=
  match e with
  | IntImm _ _ | UIntImm _ _ | Variable_ _ _ => true
  | Cast t v => (lanes t =? lanes (type_of v)) && well_typed v
  | Binary _ a b => HType_eqb (type_of a) (type_of b) && well_typed a && well_typed b
  | Not a => well_typed a
  | Select c t f =>
      HType_eqb (type_of t) (type_of f) && well_typed c && well_typed t && well_typed f
  | Load t _ i => (lanes t =? lanes (type_of i)) && well_typed i
  | Ramp b s n =>
      HType_eqb (type_of b) (type_of s) && is_scalar (type_of b) && (1 <? n) &&
      well_typed b && well_typed s
  | Broadcast v _ => is_scalar (type_of v) && well_typed v
  | Call t name args _ =>
      (if existsb (String.eqb name) transparent_names
       then forallb (fun a => lanes (type_of a) =? lanes t) args
       else true) &&
      forallb well_typed args
  | LetE _ v b => well_typed v && well_typed b
  end.

(** The type of the first wildcard of a template, when it is reached
    from the root through nodes that have the lane count of the
    operand on the way: casts, and the first operand of an arithmetic
    node or of a pointwise intrinsic. *)
Fixpoint leading_wildcard (p : Expr) : option HType :=
  match p with
  | Variable_ t n => if String.eqb n "*" then Some t else None
  | Cast _ v => leading_wildcard v
  | Binary o a _ => if is_boolean_op o then None else leading_wildcard a
  | Call _ name (a :: _) _ =>
      if existsb (String.eqb name) transparent_names then leading_wildcard a else None
  | _ => None
  end.

(** What the deinterleave flags of a pattern ask of its template:
    only operand 0 is deinterleaved, and then it is bound by the
    leading wildcard, whose width, halved if the operand is narrowed,
    is one [native_deinterleave] has a marker for. *)
Definition deinterleave_flags_ok (p : Pattern) : bool :=
  let f := Pattern.flags p in
  negb (has_flag f Pattern.DeinterleaveOp1) &&
  negb (has_flag f Pattern.DeinterleaveOp2) &&
  implb (has_flag f Pattern.DeinterleaveOp0)
        (match leading_wildcard (Pattern.pattern p) with
         | Some tw =>
             let b := if has_flag f Pattern.NarrowOp0 || has_flag f Pattern.NarrowUnsignedOp0
                      then Z.quot (bits tw) 2 else bits tw in
             negb (bits tw =? 0) && ((b =? 8) || (b =? 16) || (b =? 32))
         | None => false
         end).


(** A property of every expression of a statement. *)
Fixpoint every_expr (P : Expr -> bool) (s : Stmt) : bool :=
  match s with
  | LetStmt _ v b => P v && every_expr P b
  | Evaluate v => P v
  | Store _ v i => P v && P i
  | Block a b => every_expr P a && every_expr P b
  end.

(** Every marker of the tree has the type of its operand. *)
Fixpoint markers_typed (e : Expr) : bool :=
  match e with
  | IntImm _ _ | UIntImm _ _ | Variable_ _ _ => true
  | Cast _ v | Not v | Broadcast v _ | Load _ _ v => markers_typed v
  | Binary _ a b | Ramp a b _ | LetE _ a b => markers_typed a && markers_typed b
  | Select c t f => markers_typed c && markers_typed t && markers_typed f
  | Call t _ args _ =>
      (if is_native_interleave e || is_native_deinterleave e
       then match args with
            | x :: _ => HType_eqb t (type_of x)
            | [] => true
            end
       else true) &&
      forallb markers_typed args
  end.

(** What a step of the eliminator keeps: the type, and the typing of
    the markers. *)
Definition kept (e e' : Expr) : Prop :=
  type_of e' = type_of e /\ markers_typed e' = true.

(** The same, along a list of operands. *)
Definition all_kept (l l' : list Expr) : Prop :=
  map type_of l' = map type_of l /\ forallb markers_typed l' = true.

(** A traversal that keeps the type of the tree it is given. *)
Definition keeps (f : Expr -> M (Scope bool) (Expr * bool)) (e : Expr) : Prop :=
  forall s r s', markers_typed e = true -> f e s = Ok (r, s') -> kept e (fst r).

(** An operand that lets an interleave through: [ix] is the marker
    over [x], or it is [x] itself, a scalar or a broadcast. *)
Definition interleaved_or_uniform (x ix : Expr) : Prop :=
  native_interleave x = Ok ix \/
  (ix = x /\ is_scalar (type_of x) || EliminateInterleaves.is_broadcast x = true).

(** No deinterleave marker of the tree sits directly on an interleave
    marker. *)
Fixpoint pair_free (e : Expr) : bool :=
  match e with
  | IntImm _ _ | UIntImm _ _ | Variable_ _ _ => true
  | Cast _ v | Not v | Broadcast v _ | Load _ _ v => pair_free v
  | Binary _ a b | Ramp a b _ | LetE _ a b => pair_free a && pair_free b
  | Select c t f => pair_free c && pair_free t && pair_free f
  | Call _ _ args _ =>
      negb (is_native_deinterleave e &&
            match args with
            | a :: _ => is_native_interleave a
            | [] => false
            end) &&
      forallb pair_free args
  end.

Fixpoint pair_free_stmt (s : Stmt) : bool :=
  match s with
  | LetStmt _ v b => pair_free v && pair_free_stmt b
  | Evaluate v => pair_free v
  | Store _ v i => pair_free v && pair_free i
  | Block a b => pair_free_stmt a && pair_free_stmt b
  end.

(** A traversal whose result has property [P], and is the node it was
    given when it says so. *)
Definition settles {N : Type} (P : N -> bool) (f : N -> M (Scope bool) (N * bool))
    (e : N) : Prop :=
  forall s r s', f e s = Ok (r, s') -> P (fst r) = true /\ (snd r = true -> fst r = e).

(** The two shapes of difference [UpperBound] rewrites: of two
    maxima, or of two minima, with equal second operands. *)
Definition clamped_difference (a b : Expr) : bool :=
  match a, b with
  | Max _ ak, Max _ bk => equal ak bk
  | Min _ ak, Min _ bk => equal ak bk
  | _, _ => false
  end.

(** No difference of the tree has one of these shapes. *)
Fixpoint bound_inert (e : Expr) : bool :=
  match e with
  | IntImm _ _ | UIntImm _ _ | Variable_ _ _ => true
  | Binary o a b =>
      match o with
      | OpSub => negb (clamped_difference a b)
      | _ => true
      end && bound_inert a && bound_inert b
  | Cast _ v | Not v | Broadcast v _ | Load _ _ v => bound_inert v
  | Ramp a b _ | LetE _ a b => bound_inert a && bound_inert b
  | Select c t f => bound_inert c && bound_inert t && bound_inert f
  | Call _ _ args _ => forallb bound_inert args
  end.

(* ================================================================= *)
(** ** Basic facts                                                    *)
(* ================================================================= *)

Lemma TypeCode_eqb_eq (a b : TypeCode) : TypeCode_eqb a b = true <-> a = b.
Proof. destruct a, b; simpl; split; congruence. Qed.

Lemma HType_eqb_eq (a b : HType) : HType_eqb a b = true <-> a = b.
Proof.
  destruct a as [c1 b1 l1], b as [c2 b2 l2]; unfold HType_eqb; simpl.
  rewrite !andb_true_iff, TypeCode_eqb_eq, !Z.eqb_eq.
  split; [intros [[-> ->] ->]; reflexivity | intros H; inversion H; auto].
Qed.

Lemma BinOp_eqb_eq (a b : BinOp) : BinOp_eqb a b = true <-> a = b.
Proof. destruct a, b; simpl; split; congruence. Qed.

Lemma CallType_eqb_eq (a b : CallType) : CallType_eqb a b = true <-> a = b.
Proof. destruct a, b; simpl; split; congruence. Qed.

(** [equal] decides the identity of trees. *)
Lemma equal_eq (x y : Expr) : equal x y = true <-> x = y.
Proof.
  revert y; induction x using Expr_ind'; intros y; destruct y; simpl;
    try (split; [discriminate | congruence]);
    rewrite ?andb_true_iff, ?HType_eqb_eq, ?Z.eqb_eq, ?String.eqb_eq,
      ?BinOp_eqb_eq, ?CallType_eqb_eq, ?IHx, ?IHx1, ?IHx2, ?IHx3;
    try (split; [intuition congruence | intros E; inversion E; auto]).
  (* calls: the argument lists *)
  assert (L : forall args0,
             (fix go (l l' : list Expr) {struct l} : bool :=
                match l, l' with
                | [], [] => true
                | a :: r, a' :: r' => equal a a' && go r r'
                | _, _ => false
                end) args args0 = true <-> args = args0).
  { induction H as [|a r Ha Hr IH]; intros [|a' r']; simpl;
      try (split; [discriminate | congruence]); [tauto|].
    rewrite andb_true_iff, Ha, IH.
    split; [intros [-> ->]; reflexivity | intros E; inversion E; auto]. }
  rewrite L.
  split; [intros [[[-> ->] ->] ->]; reflexivity | intros E; inversion E; auto].
Qed.

Lemma equal_refl (x : Expr) : equal x x = true.
Proof. apply equal_eq; reflexivity. Qed.

Lemma pop_push {T} (name : string) (v : T) (s : Scope T) :
  pop name (push name v s) = s.
Proof. unfold push; simpl. rewrite String.eqb_refl. reflexivity. Qed.

(** Unfolding one level of the monad. *)
Ltac run :=
  simpl in *; unfold bind, ret, lift, get, modify, raise in *; simpl in *.

Ltac break_in H :=
  repeat match type of H with
         | context [match ?c with _ => _ end] => destruct c eqn:?; try discriminate H
         | context [if ?c then _ else _] => destruct c eqn:?; try discriminate H
         end.

(* ================================================================= *)
(** ** The scope of the eliminator                                    *)
(* ================================================================= *)

Section Restoring.
Context {S : Type}.

Lemma restoring_ret {A} (a : A) : restoring (ret (S := S) a).
Proof. intros s r s' H; run; congruence. Qed.

Lemma restoring_raise {A} w : restoring (raise (S := S) (A := A) w).
Proof. intros s r s' H; run; congruence. Qed.

Lemma restoring_lift {A} (x : result A) : restoring (lift (S := S) x).
Proof. intros s r s' H; run; destruct x; congruence. Qed.

Lemma restoring_get : restoring (get (S := S)).
Proof. intros s r s' H; run; congruence. Qed.

Lemma restoring_bind {A B} (c : M S A) (k : A -> M S B) :
  restoring c -> (forall a, restoring (k a)) -> restoring (bind c k).
Proof.
  intros Hc Hk s r s' H; unfold bind in H.
  destruct (c s) as [[a s1]|] eqn:E; [|discriminate].
  apply Hc in E; subst. eapply Hk; eassumption.
Qed.

Lemma restoring_mutate_args (f : Expr -> M S (Expr * bool)) (args : list Expr) :
  Forall (fun a => restoring (f a)) args ->
  restoring (IRMutator.mutate_args f args).
Proof.
  induction 1 as [|a rest Ha _ IH]; simpl.
  - apply restoring_ret.
  - apply restoring_bind; [assumption | intros a'].
    apply restoring_bind; [assumption | intros r']. apply restoring_ret.
Qed.
End Restoring.

(** A push, matched by the pop of the same name. *)
Lemma restoring_bracket {T A} (name : string) (v : T) (c : M (Scope T) A) :
  restoring c ->
  restoring (modify (push name v) ;;; r <- c ;; modify (pop name) ;;; ret r).
Proof.
  intros Hc s r s' H; unfold bind, modify, ret in H.
  destruct (c (push name v s)) as [[a s1]|] eqn:E; [|discriminate].
  apply Hc in E; subst. inversion H; subst. apply pop_push.
Qed.

Ltac restoring_step :=
  first
    [ assumption
    | apply restoring_ret | apply restoring_raise | apply restoring_lift
    | apply restoring_get
    | apply restoring_bracket
    | apply restoring_mutate_args; assumption
    | apply restoring_bind; [ | intros ? ]
    | match goal with
      | |- restoring (if ?b then _ else _) => destruct b
      | |- restoring (match ?x with _ => _ end) => destruct x
      end ].

Ltac restoring_tac := repeat restoring_step.

Section EliminateFacts.
Context {C : Collaborators}.

(** A node reported as the same is the node that was passed in. *)
Lemma mutate_same (e e' : Expr) (s s' : Scope bool) :
  EliminateInterleaves.mutate e s = Ok ((e', true), s') -> e' = e.
Proof.
  destruct e; simpl;
    unfold EliminateInterleaves.visit_binary, EliminateInterleaves.visit_Not,
      EliminateInterleaves.visit_Select, EliminateInterleaves.visit_let,
      EliminateInterleaves.visit_Cast, EliminateInterleaves.visit_Call,
      IRMutator.visit; run; intros H;
    break_in H; congruence.
Qed.

Lemma mutate_unfold (e : Expr) : EliminateInterleaves.mutate e = EliminateInterleaves.visit EliminateInterleaves.mutate e.
Proof. destruct e; reflexivity. Qed.

Lemma visit_let_restoring {N : Type} (f : Expr -> M (Scope bool) (Expr * bool))
    (g : N -> M (Scope bool) (N * bool)) uses make op name value body :
  restoring (f value) -> restoring (g body) ->
  restoring (EliminateInterleaves.visit_let f g uses make op name value body).
Proof. intros Hf Hg; unfold EliminateInterleaves.visit_let; restoring_tac. Qed.

(** The scope is unwound on every return. *)
Lemma mutate_restoring (e : Expr) : restoring (EliminateInterleaves.mutate e).
Proof.
  induction e using Expr_ind'; rewrite mutate_unfold; simpl;
    try (apply visit_let_restoring; assumption);
    unfold EliminateInterleaves.visit_binary, EliminateInterleaves.visit_Not, EliminateInterleaves.visit_Select,
      EliminateInterleaves.visit_Cast, EliminateInterleaves.visit_Call, IRMutator.visit;
    restoring_tac.
Qed.

Lemma mutate_stmt_restoring (s : Stmt) : restoring (EliminateInterleaves.mutate_stmt s).
Proof.
  induction s; simpl;
    try (apply visit_let_restoring; [apply mutate_restoring | assumption]);
    unfold IRMutator.visit_stmt;
    repeat first [ apply mutate_restoring | restoring_step ].
Qed.
End EliminateFacts.

(* ================================================================= *)
(** ** Cancellation of markers                                        *)
(* ================================================================= *)

Section MarkerCancellation.
Context {C : Collaborators}.
Import EliminateInterleaves.

Lemma native_interleave_inv (x ix : Expr) :
  native_interleave x = Ok ix ->
  exists n, ix = Call (type_of x) n [x] PureExtern /\
            In n ["halide.hexagon.interleave.vb"; "halide.hexagon.interleave.vh";
                  "halide.hexagon.interleave.vw"].
Proof.
  unfold native_interleave; intros H; break_in H; inversion H; subst;
    eexists; split; try reflexivity; simpl; auto.
Qed.

Lemma native_deinterleave_inv (x dx : Expr) :
  native_deinterleave x = Ok dx ->
  exists n, dx = Call (type_of x) n [x] PureExtern /\
            In n ["halide.hexagon.deinterleave.vb"; "halide.hexagon.deinterleave.vh";
                  "halide.hexagon.deinterleave.vw"].
Proof.
  unfold native_deinterleave; intros H; break_in H; inversion H; subst;
    eexists; split; try reflexivity; simpl; auto.
Qed.

(** The eliminator on an interleave marker: the marker stays, over
    the mutated operand. *)
Lemma mutate_interleave (t : HType) (n : string) (x : Expr) (ct : CallType) (vars : Scope bool) :
  In n ["halide.hexagon.interleave.vb"; "halide.hexagon.interleave.vh";
        "halide.hexagon.interleave.vw"] ->
  EliminateInterleaves.mutate (Call t n [x] ct) vars =
    match EliminateInterleaves.mutate x vars with
    | Ok ((x', same), s) => Ok ((Call t n [x'] ct, same), s)
    | Fail w => Fail w
    end.
Proof.
  intros Hn. simpl. unfold EliminateInterleaves.visit_Call. run.
  destruct (EliminateInterleaves.mutate x vars) as [[[x' same] s]|] eqn:E; [|reflexivity].
  simpl. rewrite andb_true_r.
  assert (same = true -> x' = x) by (intros ->; eapply mutate_same; eassumption).
  destruct Hn as [<-|[<-|[<-|[]]]]; simpl; destruct same; simpl;
    rewrite ?H by reflexivity; reflexivity.
Qed.

(** C1 (amended).  The eliminator mutates the operand of a call
    before it looks at the call: [deinterleave(interleave(x))], for the
    markers [native_interleave] and [native_deinterleave] build, is
    rewritten to what the eliminator makes of [x] (and halts where it
    halts on [x]); that is [x] itself whenever [x] is left as it is. *)
Theorem marker_cancellation (x ix dx : Expr) (vars : Scope bool) :
  native_interleave x = Ok ix ->
  native_deinterleave ix = Ok dx ->
  EliminateInterleaves.mutate dx vars =
    match EliminateInterleaves.mutate x vars with
    | Ok ((x', _), s) => Ok ((x', false), s)
    | Fail w => Fail w
    end.
Proof.
  intros Hi Hd.
  apply native_interleave_inv in Hi as (n & -> & Hn).
  apply native_deinterleave_inv in Hd as (m & -> & Hm).
  cbn [EliminateInterleaves.mutate EliminateInterleaves.visit].
  unfold EliminateInterleaves.visit_Call.
  unfold bind at 1. cbn [IRMutator.mutate_args]. unfold bind at 1.
  rewrite mutate_interleave by exact Hn.
  destruct (EliminateInterleaves.mutate x vars) as [[[x' same] s]|] eqn:E; [|reflexivity].
  run.
  assert (Hp : is_native_interleave (Call (type_of x) n [x'] PureExtern) = true).
  { destruct Hn as [<-|[<-|[<-|[]]]]; reflexivity. }
  unfold EliminateInterleaves.yields_interleave, EliminateInterleaves.remove_interleave.
  rewrite Hp.
  destruct Hm as [<-|[<-|[<-|[]]]]; reflexivity.
Qed.

Lemma mutate_deinterleave (t : HType) (n : string) (ct : CallType) (b b' : Expr)
    (same : bool) (vars s : Scope bool) :
  is_native_deinterleave (Call t n [b] ct) = true ->
  mutate b vars = Ok ((b', same), s) ->
  yields_interleave s b' = true ->
  mutate (Call t n [b] ct) vars =
    match remove_interleave s b' with
    | Ok e => Ok ((e, false), s)
    | Fail w => Fail w
    end.
Proof.
  intros Hd Hb Hy. cbn [mutate visit]. unfold visit_Call.
  unfold bind at 1. cbn [IRMutator.mutate_args]. unfold bind at 1.
  rewrite Hb. run. rewrite Hd, Hy. simpl.
  destruct (remove_interleave s b'); reflexivity.
Qed.

(** C10 (amended).  A deinterleave marker over an operand [b] goes
    away whenever what the eliminator makes of [b] is a scalar or a
    broadcast (and not itself a marker), leaving that rewritten
    operand; over a broadcast it leaves the broadcast of the rewritten
    value; over a vector variable with a deinterleaved shadow in
    scope it leaves a reference to the shadow. *)
Theorem deinterleave_of_yielding (t : HType) (n : string) (ct : CallType)
    (b : Expr) (vars : Scope bool) :
  is_native_deinterleave (Call t n [b] ct) = true ->
  (forall b' same s,
      mutate b vars = Ok ((b', same), s) ->
      is_native_interleave b' = false ->
      is_scalar (type_of b') || is_broadcast b' = true ->
      mutate (Call t n [b] ct) vars = Ok ((b', false), s))
  /\ (forall v l,
         b = Broadcast v l ->
         mutate (Call t n [b] ct) vars =
           match mutate v vars with
           | Ok ((v', _), s) => Ok ((Broadcast v' l, false), s)
           | Fail w => Fail w
           end)
  /\ (forall tv name,
         b = Variable_ tv name ->
         is_scalar tv = false ->
         contains vars (deinterleaved name) = true ->
         mutate (Call t n [b] ct) vars =
           Ok ((Variable_ tv (deinterleaved name), false), vars)).
Proof.
  intros Hd. split; [|split].
  - intros b' same s Hb Hni Hsb.
    rewrite (@mutate_deinterleave _ _ _ _ _ _ _ _ Hd Hb).
    + unfold remove_interleave. rewrite Hni, Hsb. reflexivity.
    + unfold yields_interleave. rewrite Hni, Hsb. reflexivity.
  - intros v l ->.
    destruct (mutate v vars) as [[[v' same] s]|] eqn:E.
    + assert (Hb : mutate (Broadcast v l) vars =
                     Ok ((Broadcast v' l, same), s)).
      { cbn [mutate visit IRMutator.visit]. run. rewrite E. simpl.
        destruct same; [|reflexivity].
        apply mutate_same in E. subst. reflexivity. }
      rewrite (@mutate_deinterleave _ _ _ _ _ _ _ _ Hd Hb);
        unfold remove_interleave, yields_interleave; simpl;
        rewrite orb_true_r; reflexivity.
    + cbn [mutate visit]. unfold visit_Call.
      unfold bind at 1. cbn [IRMutator.mutate_args]. unfold bind at 1.
      cbn [mutate visit IRMutator.visit]. unfold bind at 1. rewrite E. reflexivity.
  - intros tv name -> Hs Hc.
    assert (Hb : mutate (Variable_ tv name) vars = Ok ((Variable_ tv name, true), vars))
      by reflexivity.
    rewrite (@mutate_deinterleave _ _ _ _ _ _ _ _ Hd Hb).
    + unfold remove_interleave. simpl. rewrite Hs, Hc. reflexivity.
    + unfold yields_interleave. simpl. rewrite Hs, Hc. reflexivity.
Qed.
End MarkerCancellation.

(** C1 fails as stated: with [x] itself a cancelling pair over [v],
    the result is [v], not [x]. *)
Lemma marker_cancellation_counterexample :
  let x := Examples.deinterleave_vh (Examples.interleave_vh Examples.v) in
  EliminateInterleaves.mutate (C := Model.collaborators)
    (Examples.deinterleave_vh (Examples.interleave_vh x)) [] =
    Ok ((Examples.v, false), [])
  /\ Examples.v <> x.
Proof. split; [reflexivity | discriminate]. Qed.

Lemma marker_cancellation_witness :
  EliminateInterleaves.mutate (C := Model.collaborators)
    (Examples.deinterleave_vh (Examples.interleave_vh Examples.v)) [] =
    Ok ((Examples.v, false), []).
Proof.
  exact (@marker_cancellation Model.collaborators Examples.v
           (Examples.interleave_vh Examples.v)
           (Examples.deinterleave_vh (Examples.interleave_vh Examples.v))
           [] eq_refl eq_refl).
Defined.

(** C10 fails as stated: a broadcast whose value the eliminator
    rewrites does not come back as itself. *)
Lemma deinterleave_of_yielding_counterexample :
  let element (e : Expr) :=
    Call (Int 16 1) "extract_element" [e; IntImm (Int 32 1) 0] PureIntrinsic in
  let b := Broadcast (element (Examples.deinterleave_vh
                                 (Examples.interleave_vh Examples.v))) 64 in
  EliminateInterleaves.mutate (C := Model.collaborators)
    (Examples.deinterleave_vh b) [] =
    Ok ((Broadcast (element Examples.v) 64, false), [])
  /\ Broadcast (element Examples.v) 64 <> b.
Proof. split; [reflexivity | discriminate]. Qed.

Lemma deinterleave_of_yielding_witness :
  EliminateInterleaves.mutate (C := Model.collaborators)
    (Examples.deinterleave_vh Examples.x) [("x.deinterleaved", true)] =
    Ok ((Examples.x_deinterleaved, false), [("x.deinterleaved", true)]).
Proof.
  exact (proj2 (proj2 (@deinterleave_of_yielding Model.collaborators
                         Examples.i16x64 "halide.hexagon.deinterleave.vh"
                         PureExtern Examples.x [("x.deinterleaved", true)]
                         eq_refl))
           Examples.i16x64 "x" eq_refl eq_refl eq_refl).
Defined.

(* ================================================================= *)
(** ** Rebinding of lets                                              *)
(* ================================================================= *)

Section LetRebinding.
Context {C : Collaborators}.
Import EliminateInterleaves.

(** C4 (amended).  For a let whose mutated value is an interleave
    marker over [inner], the body is mutated with the shadow name in
    scope.  When the body comes back as it was, the let is kept under
    its own name.  Otherwise the names the new body uses decide:
    neither, the binding is dropped (halting if the old body used the
    name); the shadow only, one let of [inner] under the shadow name;
    the original only, one let of the marked value; both, two lets,
    the OUTER one binding the shadow name to [inner] and the INNER one
    binding the original name to a fresh marker over the shadow
    variable (halting if [inner] is not 8, 16 or 32 bits wide). *)
Theorem let_rebinding {N : Type}
    (f : Expr -> M (Scope bool) (Expr * bool))
    (g : N -> M (Scope bool) (N * bool))
    (uses : N -> string -> bool) (make : string -> Expr -> N -> N)
    (op : N) (name : string) (op_value : Expr) (op_body : N)
    (s s1 s2 : Scope bool) (tv : HType) (nv : string) (inner : Expr)
    (ctv : CallType) (fv fb : bool) (body : N) :
  let value := Call tv nv [inner] ctv in
  let dname := deinterleaved name in
  f op_value s = Ok ((value, fv), s1) ->
  is_native_interleave value = true ->
  g op_body (push dname true s1) = Ok ((body, fb), s2) ->
  visit_let f g uses make op name op_value op_body s =
    if fb then
      if fv then Ok ((op, true), pop dname s2)
      else Ok ((make name value body, false), pop dname s2)
    else
      match uses body dname, uses body name with
      | true, true =>
          match native_interleave (Variable_ (type_of inner) dname) with
          | Ok marker =>
              Ok ((make dname inner (make name marker body), false), pop dname s2)
          | Fail w => Fail w
          end
      | true, false => Ok ((make dname inner body, false), pop dname s2)
      | false, true => Ok ((make name value body, false), pop dname s2)
      | false, false =>
          if uses op_body name then Fail internal_error
          else Ok ((body, false), pop dname s2)
      end.
Proof.
  intros value dname Hv Hi Hb.
  unfold visit_let. unfold bind at 1. rewrite Hv. cbn [fst snd].
  unfold bind at 1. fold dname. rewrite Hi.
  unfold bind at 1. unfold modify at 1. unfold bind at 1. rewrite Hb.
  unfold bind at 1. unfold modify at 1. unfold ret at 1. cbn [fst snd].
  destruct fb.
  - destruct fv; reflexivity.
  - rewrite andb_false_r. unfold bind at 1. unfold get at 1.
    unfold remove_interleave. fold value. rewrite Hi.
    destruct (uses body dname), (uses body name); cbn [andb]; run;
      try reflexivity.
    + destruct (native_interleave (Variable_ (type_of inner) dname)); reflexivity.
    + destruct (uses op_body name); reflexivity.
Qed.

Lemma mutate_LetE (name : string) (value body : Expr) :
  mutate (LetE name value body) =
  visit_let mutate mutate expr_uses_var LetE (LetE name value body) name value body.
Proof. reflexivity. Qed.

Lemma mutate_LetStmt (name : string) (value : Expr) (body : Stmt) :
  mutate_stmt (LetStmt name value body) =
  visit_let mutate mutate_stmt stmt_uses_var LetStmt (LetStmt name value body)
            name value body.
Proof. reflexivity. Qed.
End LetRebinding.

(** C4 fails as stated: where the body uses both names, the outer
    let is the one of the shadow name. *)
Lemma let_rebinding_counterexample :
  let body := Add (Examples.deinterleave_vh Examples.x) Examples.x in
  let body' := Add Examples.x_deinterleaved Examples.x in
  EliminateInterleaves.mutate (C := Model.collaborators)
    (LetE "x" (Examples.interleave_vh Examples.v) body) [] =
    Ok ((LetE "x.deinterleaved" Examples.v
           (LetE "x" (Examples.interleave_vh Examples.x_deinterleaved) body'),
         false), [])
  /\ forall marker inner,
      LetE "x.deinterleaved" Examples.v
        (LetE "x" (Examples.interleave_vh Examples.x_deinterleaved) body') <>
      LetE "x" marker (LetE "x.deinterleaved" inner body').
Proof. split; [reflexivity | discriminate]. Qed.

Lemma let_rebinding_witness :
  let body := Add (Examples.deinterleave_vh Examples.x) Examples.x in
  let body' := Add Examples.x_deinterleaved Examples.x in
  let op := LetE "x" (Examples.interleave_vh Examples.v) body in
  EliminateInterleaves.visit_let
    (EliminateInterleaves.mutate (C := Model.collaborators))
    (EliminateInterleaves.mutate (C := Model.collaborators))
    Model.expr_uses_var LetE op "x" (Examples.interleave_vh Examples.v) body [] =
    Ok ((LetE "x.deinterleaved" Examples.v
           (LetE "x" (Examples.interleave_vh Examples.x_deinterleaved) body'),
         false), []).
Proof.
  exact (@let_rebinding Expr
           (EliminateInterleaves.mutate (C := Model.collaborators))
           (EliminateInterleaves.mutate (C := Model.collaborators))
           Model.expr_uses_var LetE
           (LetE "x" (Examples.interleave_vh Examples.v)
                 (Add (Examples.deinterleave_vh Examples.x) Examples.x))
           "x" (Examples.interleave_vh Examples.v)
           (Add (Examples.deinterleave_vh Examples.x) Examples.x)
           [] [] [("x.deinterleaved", true)] Examples.i16x64
           "halide.hexagon.interleave.vh" Examples.v PureExtern true false
           (Add Examples.x_deinterleaved Examples.x) eq_refl eq_refl eq_refl).
Defined.

(* ================================================================= *)
(** ** The pattern engine: which pattern wins                         *)
(* ================================================================= *)

Section FirstAccepted.
Context {C : Collaborators}.
Variable S : Type.

Lemma apply_patterns_skip (x : Expr) (pre rest : list Pattern)
    (op_mutator : Expr -> M S Expr) :
  Forall (fun q => accepted_operands q x = None) pre ->
  apply_patterns x (pre ++ rest) op_mutator = apply_patterns x rest op_mutator.
Proof.
  induction 1 as [|q pre Hq _ IH]; simpl; [reflexivity|].
  rewrite Hq. exact IH.
Qed.

Lemma emit_shape (x : Expr) (p : Pattern) (op_mutator : Expr -> M S Expr)
    (matches : list Expr) (s s' : S) (x' : Expr) :
  emit x p op_mutator matches s = Ok (x', s') ->
  exists args,
    let call := Call (type_of x) (Pattern.intrin p) args PureExtern in
    if has_flag (Pattern.flags p) Pattern.InterleaveResult
    then native_interleave call = Ok x'
    else x' = call.
Proof.
  unfold emit. intros H.
  unfold bind at 1 in H. destruct (lift _ s) as [[m1 s1]|]; [|discriminate].
  unfold bind at 1 in H. destruct (lift _ s1) as [[m2 s2]|]; [|discriminate].
  unfold bind at 1 in H. destruct (lift _ s2) as [[m3 s3]|]; [|discriminate].
  unfold bind at 1 in H. destruct (mapM op_mutator m3 s3) as [[m4 s4]|]; [|discriminate].
  exists m4. cbv zeta.
  destruct (has_flag (Pattern.flags p) Pattern.InterleaveResult).
  - unfold lift in H. destruct (native_interleave _); congruence.
  - unfold ret in H. congruence.
Qed.

(** C2 (amended).  The table is scanned in declaration order and
    the first pattern that is ACCEPTED wins: the one that matches
    structurally and whose narrowing and exact-log2 requests all
    succeed.  The result is what [emit] builds for it, a call of its
    intrinsic (under an interleave marker when the pattern asks for
    one).  When no pattern is accepted the input comes back as it
    was, without halting. *)
Theorem first_accepted_pattern_wins (x : Expr) (patterns : list Pattern)
    (op_mutator : Expr -> M S Expr) (s : S) :
  (forall pre p post matches,
      patterns = pre ++ p :: post ->
      Forall (fun q => accepted_operands q x = None) pre ->
      accepted_operands p x = Some matches ->
      apply_patterns x patterns op_mutator s =
        match emit x p op_mutator matches s with
        | Ok (x', s') => Ok ((x', false), s')
        | Fail w => Fail w
        end
      /\ forall x' s', emit x p op_mutator matches s = Ok (x', s') ->
           exists args,
             let call := Call (type_of x) (Pattern.intrin p) args PureExtern in
             if has_flag (Pattern.flags p) Pattern.InterleaveResult
             then native_interleave call = Ok x'
             else x' = call)
  /\ (Forall (fun q => accepted_operands q x = None) patterns ->
      apply_patterns x patterns op_mutator s = Ok ((x, true), s)).
Proof.
  split.
  - intros pre p post matches -> Hpre Hp. split.
    + rewrite apply_patterns_skip by assumption. simpl. rewrite Hp.
      unfold bind, ret. destruct (emit x p op_mutator matches s) as [[x' s']|]; reflexivity.
    + intros x' s'. apply emit_shape.
  - intros H. rewrite <- (app_nil_r patterns).
    rewrite apply_patterns_skip by assumption. reflexivity.
Qed.
End FirstAccepted.

(** C2 fails as stated: the first template of [muls] that matches
    this product structurally is the one of [mpy.vb.vb], whose first
    operand cannot be narrowed to a signed byte; the call returned is
    the one of a later pattern. *)
Lemma first_accepted_pattern_wins_counterexample :
  let a := Variable_ (UInt 8 64) "a" in
  let b := Variable_ (Int 8 64) "b" in
  let x := Mul (Cast Examples.i16x64 a) (Cast Examples.i16x64 b) in
  exists pre p post,
    muls = pre ++ p :: post /\
    Forall (fun q => Model.expr_match (Pattern.pattern q) x = None) pre /\
    Model.expr_match (Pattern.pattern p) x = Some [Cast Examples.i16x64 a; Cast Examples.i16x64 b] /\
    Pattern.intrin p = "halide.hexagon.mpy.vb.vb" /\
    apply_patterns (C := Model.collaborators) x muls (fun e => ret e) tt =
      Ok ((Call Examples.i16x64 "halide.hexagon.interleave.vh"
             [Call Examples.i16x64 "halide.hexagon.mpy.vub.vb" [a; b] PureExtern]
             PureExtern, false), tt).
Proof.
  exists (firstn 6 muls), (nth 6 muls (Pattern.make "" wild_u8 0)), (skipn 7 muls).
  repeat split; try reflexivity.
  repeat constructor.
Qed.

Lemma first_accepted_pattern_wins_witness :
  let a := Variable_ (UInt 8 64) "a" in
  let b := Variable_ (Int 8 64) "b" in
  let x := Mul (Cast Examples.i16x64 a) (Cast Examples.i16x64 b) in
  apply_patterns (C := Model.collaborators) x muls (fun e => ret e) tt =
    Ok ((Call Examples.i16x64 "halide.hexagon.interleave.vh"
           [Call Examples.i16x64 "halide.hexagon.mpy.vub.vb" [a; b] PureExtern]
           PureExtern, false), tt).
Proof.
  intros a b x.
  refine (proj1 (proj1 (@first_accepted_pattern_wins Model.collaborators unit x muls
                          (fun e => ret e) tt)
                       (firstn 8 muls) (nth 8 muls (Pattern.make "" wild_u8 0))
                       (skipn 9 muls) [a; b] eq_refl _ eq_refl)).
  repeat constructor.
Defined.

(* ================================================================= *)
(** ** The pattern engine: exact logarithms                           *)
(* ================================================================= *)

Section ExactLog2.
Context {C : Collaborators}.

Lemma each_operand_nth (f : Z -> Expr -> option Expr) (l l' : list Expr) (j : Z)
    (k : nat) (m : Expr) :
  each_operand f j l = Some l' ->
  nth_error l k = Some m ->
  exists m', f (j + Z.of_nat k) m = Some m' /\ nth_error l' k = Some m'.
Proof.
  revert l' j k. induction l as [|a l IH]; intros l' j k H Hk.
  - destruct k; discriminate.
  - simpl in H. destruct (f j a) as [a'|] eqn:Ha; [|discriminate].
    destruct (each_operand f (j + 1) l) as [r'|] eqn:Hr; [|discriminate].
    inversion H; subst. destruct k as [|k]; simpl in Hk.
    + inversion Hk; subst. exists a'. rewrite Z.add_0_r. auto.
    + destruct (IH _ _ _ Hr Hk) as (m' & Hm & Hn).
      exists m'. split; [|exact Hn].
      rewrite <- Hm. f_equal. lia.
Qed.

Lemma each_operand_length (f : Z -> Expr -> option Expr) (l l' : list Expr) (j : Z) :
  each_operand f j l = Some l' -> List.length l' = List.length l.
Proof.
  revert l' j. induction l as [|a l IH]; intros l' j H; simpl in H.
  - inversion H; reflexivity.
  - destruct (f j a); [|discriminate].
    destruct (each_operand f (j + 1) l) eqn:Hr; [|discriminate].
    inversion H; subst. simpl. f_equal. eapply IH; eassumption.
Qed.

Lemma cast_constant (t : HType) (pow : Z) :
  cast t (IntImm (Int 32 1) pow) = make_const t pow.
Proof.
  unfold cast. simpl. destruct (HType_eqb (Int 32 1) t) eqn:E; [|reflexivity].
  apply HType_eqb_eq in E. subst. reflexivity.
Qed.

Lemma exact_log2_operands_nth (flags : Z) (l l' : list Expr) (i : nat) (m : Expr) :
  exact_log2_operands flags l = Some l' ->
  (1 <= i)%nat ->
  nth_error l i = Some m ->
  exists m', exact_log2_operand flags (Z.of_nat i) m = Some m' /\
             nth_error l' i = Some m'.
Proof.
  intros H Hi Hn. destruct l as [|m0 rest]; [destruct i; discriminate|].
  simpl in H. destruct (each_operand _ 1 rest) as [rest'|] eqn:E; [|discriminate].
  inversion H; subst. destruct i as [|k]; [lia|]. simpl in Hn |- *.
  destruct (@each_operand_nth _ _ _ _ _ _ E Hn) as (m' & Hm & Hn').
  exists m'. split; [|exact Hn'].
  rewrite <- Hm. f_equal. lia.
Qed.

Lemma exact_log2_operand_flag (p : Pattern) (x : Expr) (matches narrowed : list Expr)
    (i : nat) (m : Expr) :
  expr_match (Pattern.pattern p) x = Some matches ->
  narrow_operands (Pattern.flags p) matches = Some narrowed ->
  (1 <= i)%nat ->
  nth_error narrowed i = Some m ->
  has_flag (Pattern.flags p) (Z.shiftl Pattern.ExactLog2Op1 (Z.of_nat i - 1)) = true ->
  (is_const_power_of_two_integer m = None -> accepted_operands p x = None)
  /\ (forall operands,
         accepted_operands p x = Some operands ->
         exists pow,
           is_const_power_of_two_integer m = Some pow /\
           nth_error operands i = Some (make_const (with_lanes_t (type_of m) 1) pow)).
Proof.
  intros Hm Hn Hi Hnth Hf.
  assert (A : accepted_operands p x = exact_log2_operands (Pattern.flags p) narrowed).
  { unfold accepted_operands. rewrite Hm, Hn. reflexivity. }
  rewrite A. split.
  - intros Hnone.
    destruct (exact_log2_operands (Pattern.flags p) narrowed) as [ops|] eqn:E; [|reflexivity].
    destruct (@exact_log2_operands_nth _ _ _ _ _ E Hi Hnth) as (m' & Hm' & _).
    unfold exact_log2_operand in Hm'. rewrite Hf, Hnone in Hm'. discriminate.
  - intros ops E.
    destruct (@exact_log2_operands_nth _ _ _ _ _ E Hi Hnth) as (m' & Hm' & Hn').
    unfold exact_log2_operand in Hm'. rewrite Hf in Hm'.
    destruct (is_const_power_of_two_integer m) as [pow|]; [|discriminate].
    exists pow. split; [reflexivity|].
    rewrite Hn'. inversion Hm'. rewrite cast_constant. reflexivity.
Qed.
End ExactLog2.

(** C5.  A pattern with the exact-log2 flag on operand [i >= 1] is
    accepted only when that operand is a constant power of two, which
    is then replaced by its logarithm as a scalar constant; otherwise
    the attempt is given up.  On the shipped tables: [a + b*8] becomes
    [add_shl(a, b, 3)] and [a + b/8] becomes [add_shr(a, b, 3)], while
    [a + b*6] becomes a multiply-accumulate and [a + b/6] is left as
    it is. *)
Theorem exact_log2_flag :
  (forall (C : Collaborators) (p : Pattern) (x : Expr)
          (matches narrowed : list Expr) (i : nat) (m : Expr),
      expr_match (Pattern.pattern p) x = Some matches ->
      narrow_operands (Pattern.flags p) matches = Some narrowed ->
      (1 <= i)%nat ->
      nth_error narrowed i = Some m ->
      has_flag (Pattern.flags p)
               (Z.shiftl Pattern.ExactLog2Op1 (Z.of_nat i - 1)) = true ->
      (is_const_power_of_two_integer m = None -> accepted_operands p x = None)
      /\ (forall operands,
             accepted_operands p x = Some operands ->
             exists pow,
               is_const_power_of_two_integer m = Some pow /\
               nth_error operands i =
                 Some (make_const (with_lanes_t (type_of m) 1) pow)))
  /\ (forall (t : HType) (n : Z),
         Model.is_const_power_of_two_integer (Broadcast (IntImm t 6) n) = None /\
         Model.is_const_power_of_two_integer (Broadcast (IntImm t 8) n) = Some 3)
  /\ (let a := Variable_ Examples.i32x64 "a" in
      let b := Variable_ Examples.i32x64 "b" in
      let k (c : Z) := Broadcast (IntImm (Int 32 1) c) 64 in
      let shift (name : string) :=
        Call Examples.i32x64 name [a; b; IntImm (Int 32 1) 3] PureExtern in
      let run (e : Expr) :=
        OptimizePatterns.mutate (C := Model.collaborators) 5 e tt in
      run (Add a (Mul b (k 8))) = Ok ((shift "halide.hexagon.add_shl.vw.vw.w", false), tt) /\
      run (Add a (Div b (k 8))) = Ok ((shift "halide.hexagon.add_shr.vw.vw.w", false), tt) /\
      run (Add a (Mul b (k 6))) =
        Ok ((Call Examples.i32x64 "halide.hexagon.add_mul.vw.vw.h"
               [a; b; IntImm (Int 16 1) 6] PureExtern, false), tt) /\
      run (Add a (Div b (k 6))) = Ok ((Add a (Div b (k 6)), true), tt)).
Proof.
  split; [intros C p x matches narrowed i m; apply exact_log2_operand_flag|].
  split; [intros t n; split; reflexivity|].
  repeat split; reflexivity.
Qed.

Lemma exact_log2_flag_witness :
  let a := Variable_ Examples.i32x64 "a" in
  let b := Variable_ Examples.i32x64 "b" in
  let p := Pattern.make "halide.hexagon.add_shl.vw.vw.w"
             (binop OpAdd wild_i32x (binop OpMul wild_i32x (bc wild_i32)))
             Pattern.ExactLog2Op2 in
  accepted_operands (C := Model.collaborators) p
    (Add a (Mul b (Broadcast (IntImm (Int 32 1) 6) 64))) = None.
Proof.
  intros a b p.
  refine (proj1 (proj1 exact_log2_flag Model.collaborators p
                   (Add a (Mul b (Broadcast (IntImm (Int 32 1) 6) 64)))
                   [a; b; IntImm (Int 32 1) 6] [a; b; IntImm (Int 32 1) 6]
                   2%nat (IntImm (Int 32 1) 6)
                   eq_refl eq_refl _ eq_refl eq_refl) eq_refl).
  repeat constructor.
Defined.

(* ================================================================= *)
(** ** Instruction selection: subtraction and maximum                 *)
(* ================================================================= *)

Section Negation.
Context {C : Collaborators}.

Lemma lossless_negate_negatable (x : Expr) :
  lossless_negate x <> None <-> negatable x.
Proof.
  split.
  - induction x using Expr_ind'; simpl; intros Hd;
      try (apply negatable_const;
           destruct (is_negative_negatable_const _ || is_positive_const _);
           congruence).
    destruct op;
      try (apply negatable_const;
           destruct (is_negative_negatable_const _ || is_positive_const _);
           congruence).
    destruct (lossless_negate x1); [apply negatable_factor_a, IHx1; discriminate|].
    destruct (lossless_negate x2); [apply negatable_factor_b, IHx2; discriminate|].
    apply negatable_const.
    destruct (is_negative_negatable_const _ || is_positive_const _); congruence.
  - induction 1 as [x H|a b _ IH|a b _ IH].
    + destruct x; simpl; rewrite ?H; try discriminate.
      destruct op; rewrite ?H; try discriminate.
      destruct (lossless_negate x1); [discriminate|].
      destruct (lossless_negate x2); discriminate.
    + simpl. destruct (lossless_negate a); [discriminate | contradiction].
    + simpl. destruct (lossless_negate a); [discriminate|].
      destruct (lossless_negate b); [discriminate | contradiction].
Qed.

Import OptimizePatterns.

(** C6.  [lossless_negate] has a result exactly for a negatable
    constant or a product with a negatable factor, and none
    otherwise.  A vector subtraction [a - b] with a negated [b] is
    tried against the add table as [a + (-b)], then as [(-b) + a];
    when neither is rewritten, or [b] has no negation, the
    subtraction is visited the ordinary way. *)
Theorem subtract_via_negation (mutate : Expr -> M unit (Expr * bool))
    (a b : Expr) (s : unit) :
  (lossless_negate b <> None <-> negatable b)
  /\ (forall neg_b,
         is_vector (type_of (Sub a b)) = true ->
         lossless_negate b = Some neg_b ->
         visit_Sub mutate a b s =
           match apply_patterns (Add a neg_b) adds (op_mutator mutate) s with
           | Fail w => Fail w
           | Ok ((e, false), s1) => Ok ((e, false), s1)
           | Ok ((_, true), s1) =>
               match apply_patterns (Add neg_b a) adds (op_mutator mutate) s1 with
               | Fail w => Fail w
               | Ok ((e, false), s2) => Ok ((e, false), s2)
               | Ok ((_, true), s2) => IRMutator.visit mutate (Sub a b) s2
               end
           end)
  /\ (lossless_negate b = None \/ is_vector (type_of (Sub a b)) = false ->
      visit_Sub mutate a b s = IRMutator.visit mutate (Sub a b) s).
Proof.
  split; [apply lossless_negate_negatable|]. split.
  - intros neg_b Hv Hn. unfold visit_Sub. rewrite Hv, Hn.
    unfold bind at 1.
    destruct (apply_patterns (Add a neg_b) adds (op_mutator mutate) s)
      as [[[e [|]] s1]|]; try reflexivity.
    cbn [snd negb]. unfold bind at 1.
    destruct (apply_patterns (Add neg_b a) adds (op_mutator mutate) s1)
      as [[[e' [|]] s2]|]; reflexivity.
  - intros [Hn|Hv]; unfold visit_Sub.
    + rewrite Hn. destruct (is_vector _); reflexivity.
    + rewrite Hv. reflexivity.
Qed.
End Negation.

Lemma subtract_via_negation_witness :
  let a := Variable_ Examples.i32x64 "a" in
  let b := Variable_ Examples.i32x64 "b" in
  let k (c : Z) := Broadcast (IntImm (Int 32 1) c) 64 in
  let mutate := OptimizePatterns.mutate (C := Model.collaborators) 3 in
  (* a - b * (-8) is a + b * 8, a shift-accumulate *)
  OptimizePatterns.visit_Sub (C := Model.collaborators) mutate a (Mul b (k (-8))) tt =
    Ok ((Call Examples.i32x64 "halide.hexagon.add_shl.vw.vw.w"
           [a; b; IntImm (Int 32 1) 3] PureExtern, false), tt)
  /\ OptimizePatterns.visit_Sub (C := Model.collaborators) mutate a b tt =
       Ok ((Sub a b, true), tt).
Proof.
  intros a b k mutate. split.
  - exact (proj1 (proj2 (@subtract_via_negation Model.collaborators mutate
                           a (Mul b (k (-8))) tt))
             (Mul b (k 8)) eq_refl eq_refl).
  - exact (proj2 (proj2 (@subtract_via_negation Model.collaborators mutate a b tt))
             (or_introl eq_refl)).
Defined.

Section MaxClz.
Context {C : Collaborators}.
Import OptimizePatterns.

Lemma match_cl_sound (t : HType) (expr e : Expr) (table : list (string * Expr)) :
  match_cl t expr table = Ok (Some e) ->
  exists name tmpl m rest,
    In (name, tmpl) table /\
    expr_match tmpl expr = Some (m :: m :: rest) /\
    e = Add (Call t name [m] PureExtern) (make_const t 1).
Proof.
  induction table as [|[name tmpl] table IH]; simpl; [discriminate|].
  intros H.
  destruct (expr_match tmpl expr) as [[|m0 [|m1 rest]]|] eqn:E; try discriminate.
  - destruct (equal m0 m1) eqn:Q.
    + apply equal_eq in Q. subst. inversion H; subst.
      exists name, tmpl, m1, rest. auto.
    + destruct (IH H) as (n' & t' & m & r & Hin & Hm & He).
      exists n', t', m, r. auto.
  - destruct (IH H) as (n' & t' & m & r & Hin & Hm & He).
    exists n', t', m, r. auto.
Qed.

Lemma visit_Max_unfold (mutate : Expr -> M unit (Expr * bool)) (a b : Expr) (s : unit) :
  visit_Max mutate a b s =
    match IRMutator.visit mutate (Max a b) s with
    | Fail w => Fail w
    | Ok (expr, s') =>
        if is_vector (type_of (Max a b)) then
          match match_cl (type_of (Max a b)) (fst expr) cl with
          | Ok (Some e) => Ok ((e, false), s')
          | Ok None => Ok (expr, s')
          | Fail w => Fail w
          end
        else Ok (expr, s')
    end.
Proof.
  unfold visit_Max. unfold bind at 1.
  destruct (IRMutator.visit mutate (Max a b) s) as [[expr s']|]; [|reflexivity].
  destruct (is_vector _); [|reflexivity].
  unfold bind, lift, ret.
  destruct (match_cl _ _ _) as [[e|]|]; reflexivity.
Qed.
End MaxClz.

Lemma model_match_cl (t : HType) (x y : Expr) (width n : Z) (name : string) :
  In (width, name) [(16, "halide.hexagon.cls.vh"); (32, "halide.hexagon.cls.vw")] ->
  type_of x = Int width n ->
  type_of y = Int width n ->
  OptimizePatterns.match_cl (C := Model.collaborators) t
    (Max (count_leading_zeros x) (count_leading_zeros (bitwise_not y)))
    OptimizePatterns.cl =
  if equal x y
  then Ok (Some (Add (Call t name [x] PureExtern) (make_const t 1)))
  else Ok None.
Proof.
  intros Hw Hx Hy. unfold count_leading_zeros, bitwise_not. cbn [type_of].
  destruct Hw as [E|[E|[]]]; inversion E; subst width name;
    cbn -[equal make_const]; rewrite Hx, Hy; cbn -[equal make_const];
    destruct (equal x y); reflexivity.
Qed.

(** C8.  A vector max is first mutated the ordinary way; then the
    two templates [max(clz(x), clz(~x))], for 16 and for 32 bit
    signed lanes, are tried on the result.  A replacement is the call
    of the leading-sign-count intrinsic on [x], plus one, and happens
    only when the two operands bound by the template are equal
    trees. *)
Theorem max_of_leading_zeros :
  (forall (C : Collaborators) (mutate : Expr -> M unit (Expr * bool)) (a b : Expr) (s : unit),
      OptimizePatterns.visit_Max mutate a b s =
        match IRMutator.visit mutate (Max a b) s with
        | Fail w => Fail w
        | Ok (expr, s') =>
            if is_vector (type_of (Max a b)) then
              match OptimizePatterns.match_cl (type_of (Max a b)) (fst expr)
                      OptimizePatterns.cl with
              | Ok (Some e) => Ok ((e, false), s')
              | Ok None => Ok (expr, s')
              | Fail w => Fail w
              end
            else Ok (expr, s')
        end)
  /\ (forall (C : Collaborators) (t : HType) (expr e : Expr),
         OptimizePatterns.match_cl t expr OptimizePatterns.cl = Ok (Some e) ->
         exists name tmpl m rest,
           In (name, tmpl) OptimizePatterns.cl /\
           expr_match tmpl expr = Some (m :: m :: rest) /\
           e = Add (Call t name [m] PureExtern) (make_const t 1))
  /\ (forall (t : HType) (x y : Expr) (width n : Z) (name : string),
         In (width, name)
            [(16, "halide.hexagon.cls.vh"); (32, "halide.hexagon.cls.vw")] ->
         type_of x = Int width n ->
         type_of y = Int width n ->
         OptimizePatterns.match_cl (C := Model.collaborators) t
           (Max (count_leading_zeros x) (count_leading_zeros (bitwise_not y)))
           OptimizePatterns.cl =
         if equal x y
         then Ok (Some (Add (Call t name [x] PureExtern) (make_const t 1)))
         else Ok None).
Proof.
  split; [intros; apply visit_Max_unfold|].
  split; [intros C t expr e; apply match_cl_sound|].
  intros t x y width n name Hw Hx Hy. exact (@model_match_cl t x y width n name Hw Hx Hy).
Qed.

Lemma max_of_leading_zeros_witness :
  let v := Examples.v in
  OptimizePatterns.match_cl (C := Model.collaborators) Examples.i16x64
    (Max (count_leading_zeros v) (count_leading_zeros (bitwise_not v)))
    OptimizePatterns.cl =
  Ok (Some (Add (Call Examples.i16x64 "halide.hexagon.cls.vh" [v] PureExtern)
                (make_const Examples.i16x64 1))).
Proof.
  exact (proj2 (proj2 max_of_leading_zeros) Examples.i16x64 Examples.v Examples.v
           16 64 "halide.hexagon.cls.vh" (or_introl eq_refl) eq_refl eq_refl).
Defined.

(* ================================================================= *)
(** ** The flags of the shipped tables                                *)
(* ================================================================= *)

Lemma both_Some {A} (x y : option (list A)) (l : list A) :
  Model.both x y = Some l ->
  exists a b, x = Some a /\ y = Some b /\ l = a ++ b.
Proof.
  destruct x as [a|], y as [b|]; simpl; intros H; try discriminate.
  inversion H. eauto.
Qed.

(** The model matcher binds one operand per wildcard. *)
Lemma expr_match_length (p e : Expr) (ms : list Expr) :
  Model.expr_match p e = Some ms -> List.length ms = List.length (wildcards p).
Proof.
  revert e ms. induction p using Expr_ind'; intros e ms Hm; simpl in Hm.
  - destruct e; try discriminate. destruct (_ && _); inversion Hm; reflexivity.
  - destruct e; try discriminate. destruct (_ && _); inversion Hm; reflexivity.
  - destruct e; try discriminate. destruct (Model.types_match _ _); [|discriminate].
    simpl. eauto.
  - destruct (Model.types_match _ _); [|discriminate]. simpl.
    destruct (String.eqb n "*").
    + inversion Hm; reflexivity.
    + destruct e; try discriminate. destruct (String.eqb _ _); inversion Hm; reflexivity.
  - destruct e; try discriminate. destruct (BinOp_eqb _ _); [|discriminate].
    apply both_Some in Hm as (a & b & Ha & Hb & ->).
    simpl. rewrite !length_app. erewrite IHp1, IHp2 by eassumption. reflexivity.
  - destruct e; try discriminate. simpl. eauto.
  - destruct e; try discriminate.
    apply both_Some in Hm as (a & b & Ha & Hb & ->).
    apply both_Some in Hb as (b1 & b2 & Hb1 & Hb2 & ->).
    simpl. rewrite !length_app.
    erewrite IHp1, IHp2, IHp3 by eassumption. reflexivity.
  - destruct e; try discriminate. destruct (_ && _); [|discriminate]. simpl. eauto.
  - destruct e; try discriminate. destruct (_ || _); [|discriminate].
    apply both_Some in Hm as (a & b & Ha & Hb & ->).
    simpl. rewrite !length_app. erewrite IHp1, IHp2 by eassumption. reflexivity.
  - destruct e; try discriminate. destruct (_ || _); [|discriminate]. simpl. eauto.
  - destruct e as [| | | | | | | | | |t' n' eargs ct'|]; try discriminate.
    destruct (_ && _); [|discriminate]. simpl.
    clear - H Hm. revert eargs ms Hm.
    induction H as [|p ps Hp _ IH]; intros [|e es] ms Hm; try discriminate.
    + inversion Hm; reflexivity.
    + apply both_Some in Hm as (a & b & Ha & Hb & ->).
      simpl. rewrite !length_app. erewrite Hp, IH by eassumption. reflexivity.
  - destruct e; try discriminate. destruct (String.eqb _ _); [|discriminate].
    apply both_Some in Hm as (a & b & Ha & Hb & ->).
    simpl. rewrite !length_app. erewrite IHp1, IHp2 by eassumption. reflexivity.
Qed.

Section Lengths.
Context {C : Collaborators}.

Lemma narrow_operands_length (flags : Z) (l l' : list Expr) :
  narrow_operands flags l = Some l' -> List.length l' = List.length l.
Proof. apply each_operand_length. Qed.

Lemma exact_log2_operands_length (flags : Z) (l l' : list Expr) :
  exact_log2_operands flags l = Some l' -> List.length l' = List.length l.
Proof.
  destruct l as [|m0 rest]; simpl; intros H.
  - inversion H; reflexivity.
  - destruct (each_operand _ 1 rest) eqn:E; [|discriminate].
    inversion H; subst. simpl. f_equal. eapply each_operand_length; eassumption.
Qed.

Lemma deinterleave_operands_length (flags i : Z) (l l' : list Expr) :
  deinterleave_operands flags i l = Ok l' -> List.length l' = List.length l.
Proof.
  revert i l'. induction l as [|m rest IH]; intros i l' H; simpl in H.
  - inversion H; reflexivity.
  - destruct (if has_flag _ _ then _ else _); [|discriminate].
    destruct (deinterleave_operands flags (i + 1) rest) eqn:E; [|discriminate].
    inversion H; subst. simpl. f_equal. eapply IH; eassumption.
Qed.
End Lengths.

Lemma tables_ok : forallb operand_flags_ok (casts ++ muls ++ adds) = true.
Proof. vm_compute. reflexivity. Qed.

Lemma operand_flags_ok_spec (p : Pattern) :
  operand_flags_ok p = true ->
  let f := Pattern.flags p in
  let w := wildcards (Pattern.pattern p) in
  let n := List.length w in
  (n <= 3)%nat
  /\ (has_flag f Pattern.SwapOps01 = true -> (2 <= n)%nat)
  /\ (has_flag f Pattern.SwapOps12 = true -> (3 <= n)%nat)
  /\ (forall i, (i <= 2)%nat ->
        has_flag f (Z.shiftl Pattern.DeinterleaveOp0 (Z.of_nat i)) = true ->
        exists t, nth_error w i = Some t /\ is_vector t = true /\
                  ((1 <= i)%nat ->
                   has_flag f (Z.shiftl Pattern.ExactLog2Op1 (Z.of_nat i - 1)) = false))
  /\ (forall i, (1 <= i <= 2)%nat ->
        has_flag f (Z.shiftl Pattern.ExactLog2Op1 (Z.of_nat i - 1)) = true ->
        (i < n)%nat).
Proof.
  intros H. cbv zeta. unfold operand_flags_ok in H. cbv zeta in H.
  set (f := Pattern.flags p) in *.
  set (w := wildcards (Pattern.pattern p)) in *.
  set (n := List.length w) in *.
  rewrite !andb_true_iff in H. destruct H as ((((Hn & H01) & H12) & Hd) & Hl).
  apply Z.leb_le in Hn. rewrite forallb_forall in Hd, Hl.
  split; [subst n; lia|]. split; [|split; [|split]].
  - intros E. rewrite E in H01. apply Z.leb_le in H01. subst n; lia.
  - intros E. rewrite E in H12. apply Z.leb_le in H12. subst n; lia.
  - intros i Hi E.
    assert (Hin : In i [0; 1; 2]%nat) by (simpl; lia).
    specialize (Hd i Hin). rewrite E in Hd. simpl in Hd.
    apply andb_true_iff in Hd as [Ht Hx].
    destruct (nth_error w i) as [t|]; [|discriminate].
    exists t. split; [reflexivity|]. split; [assumption|].
    intros Hi1. apply negb_true_iff in Hx.
    apply andb_false_iff in Hx as [Hx|Hx]; [|assumption].
    apply Z.leb_gt in Hx. lia.
  - intros i Hi E.
    assert (Hin : In i [1; 2]%nat) by (simpl; lia).
    specialize (Hl i Hin). rewrite E in Hl. simpl in Hl.
    apply Z.ltb_lt in Hl. subst n; lia.
Qed.

Lemma deinterleave_tables_ok : forallb deinterleave_flags_ok (casts ++ muls ++ adds) = true.
Proof. vm_compute. reflexivity. Qed.

Lemma type_of_make_const (t : HType) (v : Z) : type_of (make_const t v) = t.
Proof.
  unfold make_const, make_const_scalar, element_of, with_lanes_t.
  destruct t as [c b l]; simpl.
  destruct (is_vector _); simpl; destruct c; reflexivity.
Qed.

Lemma type_of_scalar_cast (t : HType) (a : Expr) : type_of (scalar_cast t a) = t.
Proof.
  unfold scalar_cast. destruct (HType_eqb (type_of a) t) eqn:E.
  - apply HType_eqb_eq in E. exact E.
  - destruct (as_const a); [apply type_of_make_const | reflexivity].
Qed.

Lemma with_lanes_element (t : HType) : with_lanes_t (element_of t) (lanes t) = t.
Proof. destruct t; reflexivity. Qed.

Lemma type_of_cast (t : HType) (a : Expr) : type_of (cast t a) = t.
Proof.
  unfold cast. destruct (HType_eqb (type_of a) t) eqn:E.
  - apply HType_eqb_eq in E. exact E.
  - destruct (as_const a); [apply type_of_make_const|].
    destruct (is_vector t); [|reflexivity].
    destruct (is_scalar (type_of a)).
    + simpl. rewrite type_of_scalar_cast. apply with_lanes_element.
    + destruct a; try reflexivity.
      simpl. rewrite type_of_scalar_cast. apply with_lanes_element.
Qed.

(** The model of [lossless_cast] returns an expression of the width
    it is asked for, and of the lane count of its argument. *)
Lemma lossless_cast_unfold (T : HType) (e : Expr) :
  Model.lossless_cast T e =
    if HType_eqb T (type_of e) then Some e
    else if Model.can_represent_type T (type_of e) then Some (cast T e)
    else match e with
         | Cast _ value =>
             if Model.can_represent_type T (type_of value)
             then Model.lossless_cast T value
             else None
         | Broadcast value n =>
             match Model.lossless_cast (element_of T) value with
             | Some v => Some (Broadcast v n)
             | None => None
             end
         | IntImm _ v | UIntImm _ v =>
             if Model.can_represent_value T v then Some (make_const T v) else None
         | _ => None
         end.
Proof. destruct e; reflexivity. Qed.

Lemma lossless_cast_bits (T : HType) (e e' : Expr) :
  Model.lossless_cast T e = Some e' ->
  bits (type_of e') = bits T /\ code (type_of e') = code T.
Proof.
  revert T e'. induction e; intros T e' H; rewrite lossless_cast_unfold in H;
    (destruct (HType_eqb T _) eqn:E;
     [apply HType_eqb_eq in E; inversion H; subst e'; rewrite <- E; split; reflexivity|]);
    (destruct (Model.can_represent_type T _) eqn:R;
     [inversion H; subst e'; rewrite type_of_cast; split; reflexivity|]);
    try discriminate.
  - destruct (Model.can_represent_value T v); [|discriminate].
    inversion H; subst. rewrite type_of_make_const. split; reflexivity.
  - destruct (Model.can_represent_value T v); [|discriminate].
    inversion H; subst. rewrite type_of_make_const. split; reflexivity.
  - destruct (Model.can_represent_type T (type_of e)); [|discriminate].
    apply IHe. exact H.
  - destruct (Model.lossless_cast (element_of T) e) as [w|] eqn:L; [|discriminate].
    inversion H; subst. apply IHe in L. simpl. exact L.
Qed.

Lemma can_represent_lanes (t u : HType) :
  Model.can_represent_type t u = true -> lanes t = lanes u.
Proof.
  unfold Model.can_represent_type. intros H.
  apply andb_true_iff in H as [H _]. apply Z.eqb_eq in H. exact H.
Qed.

Lemma lossless_cast_lanes (T : HType) (e e' : Expr) :
  lanes T = lanes (type_of e) ->
  Model.lossless_cast T e = Some e' -> lanes (type_of e') = lanes T.
Proof.
  revert T e'. induction e; intros T e' Hl H; rewrite lossless_cast_unfold in H;
    (destruct (HType_eqb T _) eqn:E;
     [apply HType_eqb_eq in E; inversion H; subst e'; rewrite <- E; reflexivity|]);
    (destruct (Model.can_represent_type T _) eqn:R;
     [inversion H; subst e'; rewrite type_of_cast; reflexivity|]);
    try discriminate.
  - destruct (Model.can_represent_value T v); [|discriminate].
    inversion H; subst. rewrite type_of_make_const. reflexivity.
  - destruct (Model.can_represent_value T v); [|discriminate].
    inversion H; subst. rewrite type_of_make_const. reflexivity.
  - destruct (Model.can_represent_type T (type_of e)) eqn:R2; [|discriminate].
    apply IHe; [apply can_represent_lanes; exact R2 | exact H].
  - destruct (Model.lossless_cast (element_of T) e) as [w|] eqn:L; [|discriminate].
    inversion H; subst. simpl in Hl |- *. symmetry. exact Hl.
Qed.

(** The model matcher binds the leading wildcard of a template to an
    operand of the lane count of the matched tree, when the tree is
    well typed, and of the width of the wildcard. *)
Lemma leading_binding (p : Expr) :
  forall (tw : HType) (x : Expr) (ms : list Expr),
    leading_wildcard p = Some tw ->
    well_typed x = true ->
    Model.expr_match p x = Some ms ->
    exists m0 rest,
      ms = m0 :: rest /\
      lanes (type_of m0) = lanes (type_of x) /\
      Model.types_match tw (type_of m0) = true.
Proof.
  induction p as [t v|t v|t pv IH|t n|op pa pb IHa IHb|pa IH|pc pt pf IHc IHt IHf
                 |t n pi IH|pb ps n IHb IHs|pv n IH|t n pargs ct H|n pv pb IHv IHb]
    using Expr_ind'; intros tw x ms Hw Hx Hm; cbn [leading_wildcard] in Hw;
    try discriminate.
  - (* Cast *)
    simpl in Hm. destruct x as [| |t' ev| | | | | | | | |]; try discriminate.
    destruct (Model.types_match t t'); [|discriminate].
    simpl in Hx. apply andb_true_iff in Hx as [Hl Hx]. apply Z.eqb_eq in Hl.
    destruct (IH _ _ _ Hw Hx Hm) as (m0 & rest & -> & L & T).
    exists m0, rest. repeat split; [|exact T]. simpl. congruence.
  - (* Variable *)
    destruct (String.eqb n "*") eqn:En; [|discriminate].
    inversion Hw; subst tw. simpl in Hm. rewrite En in Hm.
    destruct (Model.types_match t (type_of x)) eqn:T; [|discriminate].
    inversion Hm; subst. exists x, []. repeat split. exact T.
  - (* Binary *)
    destruct (is_boolean_op op) eqn:Eo; [discriminate|].
    simpl in Hm. destruct x as [| | | |op' ea eb| | | | | | |]; try discriminate.
    destruct (BinOp_eqb op op') eqn:Eb; [|discriminate].
    apply BinOp_eqb_eq in Eb. subst op'.
    apply both_Some in Hm as (a & b & Ha & Hb & ->).
    simpl in Hx. apply andb_true_iff in Hx as [Hx Hx2]. apply andb_true_iff in Hx as [_ Hx1].
    destruct (IHa _ _ _ Hw Hx1 Ha) as (m0 & rest & -> & L & T).
    exists m0, (rest ++ b). repeat split; [|exact T].
    rewrite L. destruct op; try discriminate Eo; reflexivity.
  - (* Call *)
    destruct pargs as [|pa ps]; [discriminate|].
    destruct (existsb (String.eqb n) transparent_names) eqn:En; [|discriminate].
    simpl in Hm. destruct x as [| | | | | | | | | |t' n' eargs ct'|]; try discriminate.
    destruct (Model.types_match t t' && String.eqb n n' && CallType_eqb ct ct') eqn:Ec;
      [|discriminate].
    apply andb_true_iff in Ec as [Ec _]. apply andb_true_iff in Ec as [_ Ec].
    apply String.eqb_eq in Ec. subst n'.
    destruct eargs as [|ea es]; [discriminate|].
    apply both_Some in Hm as (a & b & Ha & Hb & ->).
    change (well_typed (Call t' n (ea :: es) ct') = true) with
      ((if existsb (String.eqb n) transparent_names
        then forallb (fun a => lanes (type_of a) =? lanes t') (ea :: es)
        else true) && (well_typed ea && forallb well_typed es) = true) in Hx.
    rewrite En in Hx. apply andb_true_iff in Hx as [Hl Hx].
    apply andb_true_iff in Hx as [Hx _].
    simpl in Hl. apply andb_true_iff in Hl as [Hl _]. apply Z.eqb_eq in Hl.
    inversion H as [|? ? Hpa _]; subst.
    destruct (Hpa _ _ _ Hw Hx Ha) as (m0 & rest & -> & L & T).
    exists m0, (rest ++ b). repeat split; [|exact T]. simpl. congruence.
Qed.

Lemma types_match_bits (tw t : HType) :
  (bits tw =? 0) = false -> Model.types_match tw t = true -> bits t = bits tw.
Proof.
  unfold Model.types_match. intros Hb H. rewrite Hb in H. cbn [orb] in H.
  apply andb_true_iff in H as [H _]. apply andb_true_iff in H as [H _].
  apply Z.eqb_eq in H. symmetry. exact H.
Qed.

(** The first operand of an accepted match. *)
Lemma accepted_head (p : Pattern) (x : Expr) (ops : list Expr) (tw : HType) :
  leading_wildcard (Pattern.pattern p) = Some tw ->
  (bits tw =? 0) = false ->
  well_typed x = true ->
  accepted_operands (C := Model.collaborators) p x = Some ops ->
  exists o0 rest,
    ops = o0 :: rest /\
    lanes (type_of o0) = lanes (type_of x) /\
    bits (type_of o0) =
      if has_flag (Pattern.flags p) Pattern.NarrowOp0 ||
         has_flag (Pattern.flags p) Pattern.NarrowUnsignedOp0
      then Z.quot (bits tw) 2 else bits tw.
Proof.
  intros Hw Hb Hx Ha. unfold accepted_operands in Ha. simpl in Ha.
  destruct (Model.expr_match (Pattern.pattern p) x) as [ms|] eqn:Em; [|discriminate].
  destruct (@leading_binding (Pattern.pattern p) tw x ms Hw Hx Em) as (m0 & r & -> & L & T).
  apply types_match_bits in T; [|exact Hb].
  unfold narrow_operands in Ha. cbn [each_operand] in Ha.
  destruct (narrow_operand (Pattern.flags p) 0 m0) as [m0'|] eqn:En; [|discriminate].
  destruct (each_operand (narrow_operand (Pattern.flags p)) (0 + 1) r) as [r'|];
    [|discriminate].
  cbn [exact_log2_operands] in Ha.
  destruct (each_operand (exact_log2_operand (Pattern.flags p)) 1 r') as [r''|];
    [|discriminate].
  inversion Ha; subst ops. exists m0', r''. split; [reflexivity|].
  unfold narrow_operand in En. cbv zeta in En.
  change (Z.shiftl Pattern.NarrowOp0 0) with Pattern.NarrowOp0 in En.
  change (Z.shiftl Pattern.NarrowUnsignedOp0 0) with Pattern.NarrowUnsignedOp0 in En.
  simpl lossless_cast in En.
  destruct (has_flag (Pattern.flags p) Pattern.NarrowOp0).
  - cbn [orb]. assert (Ln := En). assert (Lw := En).
    apply lossless_cast_lanes in Ln; [|reflexivity].
    apply lossless_cast_bits in Lw as [B _].
    split; [rewrite Ln; simpl; exact L | rewrite B; simpl; rewrite T; reflexivity].
  - cbn [orb]. destruct (has_flag (Pattern.flags p) Pattern.NarrowUnsignedOp0).
    + assert (Ln := En). assert (Lw := En).
      apply lossless_cast_lanes in Ln; [|reflexivity].
      apply lossless_cast_bits in Lw as [B _].
      split; [rewrite Ln; simpl; exact L | rewrite B; simpl; rewrite T; reflexivity].
    + inversion En; subst m0'. split; assumption.
Qed.

Section DeinterleaveFacts.
Context {C : Collaborators}.

Lemma deinterleave_unflagged (flags : Z) (l : list Expr) (i : Z) :
  (forall k, (k < List.length l)%nat ->
             has_flag flags (Z.shiftl Pattern.DeinterleaveOp0 (i + Z.of_nat k)) = false) ->
  deinterleave_operands flags i l = Ok l.
Proof.
  revert i. induction l as [|m rest IH]; intros i H; simpl; [reflexivity|].
  assert (H0 := H 0%nat). rewrite Z.add_0_r in H0. rewrite H0 by (simpl; lia).
  rewrite IH; [reflexivity|].
  intros k Hk. replace (i + 1 + Z.of_nat k) with (i + Z.of_nat (S k)) by lia.
  apply H. simpl. lia.
Qed.

Lemma native_deinterleave_defined (m : Expr) :
  (bits (type_of m) =? 8) || (bits (type_of m) =? 16) || (bits (type_of m) =? 32) = true ->
  exists d, native_deinterleave m = Ok d.
Proof.
  unfold native_deinterleave. cbv zeta. intros H.
  destruct (bits (type_of m) =? 8); [eauto|].
  destruct (bits (type_of m) =? 16); [eauto|].
  destruct (bits (type_of m) =? 32); [eauto|discriminate].
Qed.

Lemma swaps_defined (flags : Z) (ops : list Expr) :
  (has_flag flags Pattern.SwapOps01 = true -> (2 <= List.length ops)%nat) ->
  (has_flag flags Pattern.SwapOps12 = true -> (3 <= List.length ops)%nat) ->
  exists ops2 ops3,
    swap_ops01 flags ops = Ok ops2 /\ swap_ops12 flags ops2 = Ok ops3.
Proof.
  intros H01 H12. unfold swap_ops01, swap_ops12.
  destruct (has_flag flags Pattern.SwapOps01) eqn:E01;
    destruct (has_flag flags Pattern.SwapOps12) eqn:E12;
    try specialize (H01 eq_refl); try specialize (H12 eq_refl);
    destruct ops as [|m0 [|m1 [|m2 rest]]]; simpl in *; try lia; eauto.
Qed.
End DeinterleaveFacts.

(** The operands of a match of a table pattern on a well typed vector:
    the deinterleave loop and the swaps go through. *)
Lemma table_match_goes_through (p : Pattern) (x : Expr) (ops : list Expr) :
  In p (casts ++ muls ++ adds) ->
  is_vector (type_of x) = true ->
  well_typed x = true ->
  accepted_operands (C := Model.collaborators) p x = Some ops ->
  (forall i m,
      has_flag (Pattern.flags p) (Z.shiftl Pattern.DeinterleaveOp0 (Z.of_nat i)) = true ->
      nth_error ops i = Some m ->
      is_vector (type_of m) = true)
  /\ exists ops1 ops2 ops3,
       deinterleave_operands (Pattern.flags p) 0 ops = Ok ops1 /\
       swap_ops01 (Pattern.flags p) ops1 = Ok ops2 /\
       swap_ops12 (Pattern.flags p) ops2 = Ok ops3.
Proof.
  intros Hin Hv Hx Ha.
  assert (OK : operand_flags_ok p = true).
  { pose proof tables_ok as Tk. rewrite forallb_forall in Tk. apply Tk, Hin. }
  assert (DK : deinterleave_flags_ok p = true).
  { pose proof deinterleave_tables_ok as Tk. rewrite forallb_forall in Tk. apply Tk, Hin. }
  destruct (@operand_flags_ok_spec p OK) as (Hn & H01 & H12 & _).
  cbv zeta in Hn, H01, H12.
  assert (L : List.length ops = List.length (wildcards (Pattern.pattern p))).
  { unfold accepted_operands in Ha. simpl in Ha.
    destruct (Model.expr_match (Pattern.pattern p) x) as [ms|] eqn:Em; [|discriminate].
    destruct (narrow_operands (Pattern.flags p) ms) as [ms1|] eqn:En; [|discriminate].
    apply exact_log2_operands_length in Ha.
    apply narrow_operands_length in En.
    apply expr_match_length in Em. congruence. }
  unfold deinterleave_flags_ok in DK. cbv zeta in DK.
  apply andb_true_iff in DK as [DK D0]. apply andb_true_iff in DK as [D1 D2].
  apply negb_true_iff in D1, D2.
  assert (F1 : has_flag (Pattern.flags p) (Z.shiftl Pattern.DeinterleaveOp0 1) = false)
    by exact D1.
  assert (F2 : has_flag (Pattern.flags p) (Z.shiftl Pattern.DeinterleaveOp0 2) = false)
    by exact D2.
  destruct (has_flag (Pattern.flags p) Pattern.DeinterleaveOp0) eqn:E0.
  - (* operand 0 is deinterleaved *)
    cbn [implb] in D0.
    destruct (leading_wildcard (Pattern.pattern p)) as [tw|] eqn:Ew; [|discriminate].
    apply andb_true_iff in D0 as [Hb Hwd]. apply negb_true_iff in Hb.
    destruct (@accepted_head p x ops tw Ew Hb Hx Ha) as (o0 & rest & -> & Ll & Lb).
    assert (V0 : is_vector (type_of o0) = true)
      by (unfold is_vector in *; rewrite Ll; exact Hv).
    split.
    + intros i m Hf Hm. destruct i as [|[|[|i]]].
      * inversion Hm; subst. exact V0.
      * change (Z.of_nat 1) with 1 in Hf. congruence.
      * change (Z.of_nat 2) with 2 in Hf. congruence.
      * exfalso.
        assert (Hl : (S (S (S i)) < List.length (o0 :: rest))%nat)
          by (apply nth_error_Some; congruence).
        rewrite L in Hl. lia.
    + rewrite <- Lb in Hwd.
      destruct (@native_deinterleave_defined o0 Hwd) as [d Hd].
      assert (R : deinterleave_operands (Pattern.flags p) (0 + 1) rest = Ok rest).
      { apply deinterleave_unflagged. intros k Hk. simpl in L, Hn.
        destruct k as [|[|k]]; [exact F1 | exact F2 | simpl in Hk; lia]. }
      assert (D : deinterleave_operands (Pattern.flags p) 0 (o0 :: rest) = Ok (d :: rest)).
      { cbn [deinterleave_operands].
        change (Z.shiftl Pattern.DeinterleaveOp0 0) with Pattern.DeinterleaveOp0.
        rewrite E0, V0, Hd, R. reflexivity. }
      destruct (@swaps_defined (Pattern.flags p) (d :: rest)) as (ops2 & ops3 & S1 & S2).
      * intros E. specialize (H01 E). simpl in L |- *. lia.
      * intros E. specialize (H12 E). simpl in L |- *. lia.
      * exists (d :: rest), ops2, ops3. auto.
  - (* no operand is deinterleaved *)
    assert (D : deinterleave_operands (Pattern.flags p) 0 ops = Ok ops).
    { apply deinterleave_unflagged. intros k Hk.
      destruct k as [|[|[|k]]]; [exact E0 | exact F1 | exact F2 | lia]. }
    split.
    + intros i m Hf Hm. exfalso. destruct i as [|[|[|i]]].
      * change (Z.shiftl Pattern.DeinterleaveOp0 (Z.of_nat 0))
          with Pattern.DeinterleaveOp0 in Hf. congruence.
      * change (Z.of_nat 1) with 1 in Hf. congruence.
      * change (Z.of_nat 2) with 2 in Hf. congruence.
      * assert (Hl : (S (S (S i)) < List.length ops)%nat)
          by (apply nth_error_Some; congruence).
        lia.
    + destruct (@swaps_defined (Pattern.flags p) ops) as (ops2 & ops3 & S1 & S2).
      * intros E. specialize (H01 E). lia.
      * intros E. specialize (H12 E). lia.
      * exists ops, ops2, ops3. auto.
Qed.

(** C9 (amended).  In the shipped cast, multiply and add tables
    every template has at most three wildcards; a pattern that swaps
    operands 0 and 1 has at least two and one that swaps 1 and 2 has
    three; a deinterleave flag sits on a wildcard of the template,
    which is a vector wildcard and is not replaced by a logarithm; an
    exact-log2 flag sits on a wildcard of the template.  (The
    narrowing masks are left out: they name operand 2 also on
    templates with two wildcards.)  So on a match of a table pattern
    with a well typed vector, the only trees the callers of
    [apply_patterns] pass, no assertion of the deinterleave loop and
    of the swaps fires: every operand that carries a deinterleave flag
    is a vector, of a width that has a deinterleave marker, and there
    are operands enough for the swaps. *)
Theorem table_flags_within_wildcards :
  (forall p, In p (casts ++ muls ++ adds) ->
     let f := Pattern.flags p in
     let w := wildcards (Pattern.pattern p) in
     let n := List.length w in
     (n <= 3)%nat
     /\ (has_flag f Pattern.SwapOps01 = true -> (2 <= n)%nat)
     /\ (has_flag f Pattern.SwapOps12 = true -> (3 <= n)%nat)
     /\ (forall i, (i <= 2)%nat ->
           has_flag f (Z.shiftl Pattern.DeinterleaveOp0 (Z.of_nat i)) = true ->
           exists t, nth_error w i = Some t /\ is_vector t = true /\
                     ((1 <= i)%nat ->
                      has_flag f (Z.shiftl Pattern.ExactLog2Op1 (Z.of_nat i - 1)) = false))
     /\ (forall i, (1 <= i <= 2)%nat ->
           has_flag f (Z.shiftl Pattern.ExactLog2Op1 (Z.of_nat i - 1)) = true ->
           (i < n)%nat))
  /\ (forall p x ops,
         In p (casts ++ muls ++ adds) ->
         is_vector (type_of x) = true ->
         well_typed x = true ->
         accepted_operands (C := Model.collaborators) p x = Some ops ->
         (forall i m,
             has_flag (Pattern.flags p)
                      (Z.shiftl Pattern.DeinterleaveOp0 (Z.of_nat i)) = true ->
             nth_error ops i = Some m ->
             is_vector (type_of m) = true)
         /\ exists ops1 ops2 ops3,
              deinterleave_operands (Pattern.flags p) 0 ops = Ok ops1 /\
              swap_ops01 (Pattern.flags p) ops1 = Ok ops2 /\
              swap_ops12 (Pattern.flags p) ops2 = Ok ops3).
Proof.
  assert (OK : forall p, In p (casts ++ muls ++ adds) -> operand_flags_ok p = true).
  { apply forallb_forall. exact tables_ok. }
  split.
  - intros p Hin. apply operand_flags_ok_spec, OK, Hin.
  - intros p x ops Hin Hv Hx Ha. apply table_match_goes_through with (x := x); assumption.
Qed.

(** The two ways in which the claim fails as it stands: a narrowing
    mask names an operand the template does not have, and on a scalar
    match the deinterleave assertion fires. *)
Lemma table_flags_counterexample :
  (exists p,
      In p casts /\
      Pattern.intrin p = "halide.hexagon.avg.vub.vub" /\
      has_flag (Pattern.flags p) Pattern.NarrowOp2 = true /\
      List.length (wildcards (Pattern.pattern p)) = 2%nat)
  /\ (let a := Variable_ (Int 16 1) "a" in
      let b := Cast (Int 16 1) (Variable_ (UInt 8 1) "b") in
      let c := Cast (Int 16 1) (Variable_ (Int 8 1) "c") in
      let x := Add a (Mul b c) in
      well_typed x = true /\
      is_vector (type_of x) = false /\
      apply_patterns (C := Model.collaborators) x adds (fun e => ret e) tt =
        Fail internal_error).
Proof.
  split.
  - exists (nth 0 casts (Pattern.make "" wild_u8 0)).
    repeat split; try reflexivity. left; reflexivity.
  - repeat split; reflexivity.
Qed.

Lemma table_flags_within_wildcards_witness :
  let a := Variable_ Examples.i16x64 "a" in
  let b := Cast Examples.i16x64 (Variable_ (UInt 8 64) "b") in
  let c := Cast Examples.i16x64 (Variable_ (Int 8 64) "c") in
  let p := Pattern.make "halide.hexagon.add_mpy.vh.vub.vb"
             (binop OpAdd wild_i16x (binop OpMul wild_i16x wild_i16x))
             (Z.lor (Z.lor (Z.lor ReinterleaveOp0 Pattern.NarrowOp1)
                           Pattern.NarrowUnsignedOp2)
                    Pattern.SwapOps12) in
  let ops := [a; Variable_ (Int 8 64) "c"; Variable_ (UInt 8 64) "b"] in
  exists ops1 ops2 ops3,
    deinterleave_operands (Pattern.flags p) 0 ops = Ok ops1 /\
    swap_ops01 (Pattern.flags p) ops1 = Ok ops2 /\
    swap_ops12 (Pattern.flags p) ops2 = Ok ops3.
Proof.
  intros a b c p ops.
  refine (proj2 (proj2 table_flags_within_wildcards p (Add a (Mul c b)) ops
                   _ eq_refl eq_refl eq_refl)).
  apply in_or_app; right. apply in_or_app; right.
  do 26 right. left. reflexivity.
Defined.

(* ================================================================= *)
(** ** Upper bounds                                                   *)
(* ================================================================= *)

Section UpperBoundFacts.
Context {C : Collaborators}.
Import UpperBound.

Lemma visit_Sub_of_max (mutate : Expr -> M unit (Expr * bool))
    (op_a op_b x y k k' : Expr) (fa fb : bool) (s : unit) :
  mutate op_a s = Ok ((Max x k, fa), s) ->
  mutate op_b s = Ok ((Max y k', fb), s) ->
  k = k' ->
  visit_Sub mutate op_a op_b s =
    match mutate (simplify (binop OpSub x y)) s with
    | Ok ((r, _), s') => Ok ((r, false), s')
    | Fail w => Fail w
    end.
Proof.
  intros Ha Hb <-. unfold visit_Sub.
  unfold bind at 1. rewrite Ha. unfold bind at 1. rewrite Hb.
  cbn [fst snd]. rewrite equal_refl.
  unfold bind, ret.
  destruct (mutate (simplify (binop OpSub x y)) s) as [[[r f] s']|]; reflexivity.
Qed.

Lemma visit_Sub_of_min (mutate : Expr -> M unit (Expr * bool))
    (op_a op_b x y k k' : Expr) (fa fb : bool) (s : unit) :
  mutate op_a s = Ok ((Min x k, fa), s) ->
  mutate op_b s = Ok ((Min y k', fb), s) ->
  k = k' ->
  visit_Sub mutate op_a op_b s =
    match mutate (simplify (binop OpSub x y)) s with
    | Ok ((r, _), s') => Ok ((r, false), s')
    | Fail w => Fail w
    end.
Proof.
  intros Ha Hb <-. unfold visit_Sub.
  unfold bind at 1. rewrite Ha. unfold bind at 1. rewrite Hb.
  cbn [fst snd]. rewrite equal_refl.
  unfold bind, ret.
  destruct (mutate (simplify (binop OpSub x y)) s) as [[[r f] s']|]; reflexivity.
Qed.
End UpperBoundFacts.

(** C7.  [UpperBound] rewrites [max(x,k) - max(y,k)] and
    [min(x,k) - min(y,k)] to the simplified [x - y], mutated again.
    The result is not an upper bound: with x = 0, y = 5 and k = 10
    the difference of the maxima is 0 and [x - y] is -5. *)
Theorem upper_bound_of_clamped_difference :
  (forall (C : Collaborators) (mutate : Expr -> M unit (Expr * bool))
          (o : BinOp) (op_a op_b x y k : Expr) (fa fb : bool) (s : unit),
      o = OpMax \/ o = OpMin ->
      mutate op_a s = Ok ((Binary o x k, fa), s) ->
      mutate op_b s = Ok ((Binary o y k, fb), s) ->
      UpperBound.visit_Sub mutate op_a op_b s =
        match mutate (simplify (binop OpSub x y)) s with
        | Ok ((r, _), s') => Ok ((r, false), s')
        | Fail w => Fail w
        end)
  /\ (let x := Variable_ (Int 32 1) "x" in
      let y := Variable_ (Int 32 1) "y" in
      let k := Variable_ (Int 32 1) "k" in
      let env (n : string) :=
        if String.eqb n "x" then 0 else if String.eqb n "y" then 5 else 10 in
      upper_bound (C := Model.collaborators) 3 (Sub (Max x k) (Max y k)) = Ok (Sub x y)
      /\ eval env (Sub (Max x k) (Max y k)) = Some 0
      /\ eval env (Sub x y) = Some (-5)).
Proof.
  split.
  - intros C mutate o op_a op_b x y k fa fb s [-> | ->] Ha Hb.
    + eapply visit_Sub_of_max; eauto.
    + eapply visit_Sub_of_min; eauto.
  - repeat split; reflexivity.
Qed.

(** Where [y <= x] the rewriting does widen. *)
Lemma clamped_difference_widens (env : string -> Z) (o : BinOp) (x y k : Expr)
    (vx vy vk : Z) :
  o = OpMax \/ o = OpMin ->
  eval env x = Some vx -> eval env y = Some vy -> eval env k = Some vk ->
  vy <= vx ->
  exists original widened,
    eval env (Sub (Binary o x k) (Binary o y k)) = Some original /\
    eval env (Sub x y) = Some widened /\
    original <= widened.
Proof.
  intros [-> | ->] Hx Hy Hk Hle; simpl; rewrite Hx, Hy, Hk;
    eexists; eexists; (split; [reflexivity|]); (split; [reflexivity|]); lia.
Qed.

(* ================================================================= *)
(** ** Further properties: markers                                    *)
(* ================================================================= *)

Lemma prefix_empty (s : string) : String.prefix "" s = true.
Proof. destruct s; reflexivity. Qed.

Lemma prefix_of_both (p q s : string) :
  String.prefix p s = true -> String.prefix q s = true ->
  String.prefix p q = true \/ String.prefix q p = true.
Proof.
  revert p q. induction s as [|c s IH]; intros p q Hp Hq.
  - destruct p; [|discriminate]. left. apply prefix_empty.
  - destruct p as [|a p]; [left; apply prefix_empty|].
    destruct q as [|b q]; [right; apply prefix_empty|].
    simpl in *.
    destruct (Ascii.ascii_dec a c) as [->|]; [|discriminate].
    destruct (Ascii.ascii_dec b c) as [->|]; [|discriminate].
    destruct (Ascii.ascii_dec c c) as [_|N]; [|contradiction].
    apply IH; assumption.
Qed.

(** X1.  No tree is at once an interleave marker and a deinterleave
    marker. *)
Theorem markers_are_distinct (x : Expr) :
  is_native_interleave x = true -> is_native_deinterleave x = false.
Proof.
  unfold is_native_interleave, is_native_deinterleave, is_native_interleave_op.
  destruct x as [| | | | | | | | | |t n [|a [|b r]] ct|]; try discriminate.
  unfold starts_with. intros Hi.
  destruct (String.prefix "halide.hexagon.deinterleave" n) eqn:Hd; [|reflexivity].
  destruct (prefix_of_both _ _ _ Hi Hd) as [H|H]; discriminate H.
Qed.

Lemma markers_are_distinct_witness :
  is_native_deinterleave (Examples.interleave_vh Examples.v) = false.
Proof. exact (@markers_are_distinct (Examples.interleave_vh Examples.v) eq_refl). Defined.

Section MarkerFacts.
Import EliminateInterleaves.

(** X2.  [native_interleave] and [native_deinterleave] build a marker
    exactly for operands of 8, 16 or 32 bit lanes, and halt with an
    internal error for every other width. *)
Theorem native_marker_widths (x : Expr) :
  ((exists ix, native_interleave x = Ok ix) <->
   (bits (type_of x) = 8 \/ bits (type_of x) = 16 \/ bits (type_of x) = 32))
  /\ ((exists dx, native_deinterleave x = Ok dx) <->
      (bits (type_of x) = 8 \/ bits (type_of x) = 16 \/ bits (type_of x) = 32))
  /\ (native_interleave x = Fail internal_error \/ exists ix, native_interleave x = Ok ix)
  /\ (native_deinterleave x = Fail internal_error \/ exists dx, native_deinterleave x = Ok dx).
Proof.
  unfold native_interleave, native_deinterleave.
  destruct (bits (type_of x) =? 8) eqn:E8;
    [apply Z.eqb_eq in E8; repeat split; eauto; intros; auto|].
  destruct (bits (type_of x) =? 16) eqn:E16;
    [apply Z.eqb_eq in E16; repeat split; eauto; intros; auto|].
  destruct (bits (type_of x) =? 32) eqn:E32;
    [apply Z.eqb_eq in E32; repeat split; eauto; intros; auto|].
  apply Z.eqb_neq in E8, E16, E32.
  repeat split; auto; try (intros [? H]; discriminate H); intros [?|[?|?]]; contradiction.
Qed.

(** X3.  A marker built by [native_interleave] is recognised as an
    interleave and not as a deinterleave, has the type of its operand,
    yields an interleave in every scope, and [remove_interleave] gives
    the operand back. *)
Theorem marker_round_trip (x ix : Expr) (vars : Scope bool) :
  native_interleave x = Ok ix ->
  is_native_interleave ix = true /\
  is_native_deinterleave ix = false /\
  type_of ix = type_of x /\
  yields_interleave vars ix = true /\
  remove_interleave vars ix = Ok x.
Proof.
  intros H. apply native_interleave_inv in H as (n & -> & Hn).
  unfold yields_interleave, remove_interleave.
  destruct Hn as [<-|[<-|[<-|[]]]]; repeat split; reflexivity.
Qed.

Lemma yields_removable_interleave_from_spec (vars : Scope bool) (any : bool)
    (exprs : list Expr) :
  yields_removable_interleave_from vars any exprs =
    (any || existsb is_native_interleave exprs) && forallb (yields_interleave vars) exprs.
Proof.
  revert any. induction exprs as [|i rest IH]; intros any; simpl.
  - rewrite orb_false_r, andb_true_r. reflexivity.
  - destruct (is_native_interleave i) eqn:Hi.
    + assert (Y : yields_interleave vars i = true)
        by (unfold yields_interleave; rewrite Hi; reflexivity).
      rewrite IH, Y. simpl. rewrite orb_true_r. reflexivity.
    + destruct (yields_interleave vars i); simpl; [apply IH | symmetry; apply andb_false_r].
Qed.

(** X4.  [yields_removable_interleave] holds exactly when one of the
    expressions is an interleave marker and all of them yield an
    interleave. *)
Theorem yields_removable_interleave_spec (vars : Scope bool) (exprs : list Expr) :
  yields_removable_interleave vars exprs =
    existsb is_native_interleave exprs && forallb (yields_interleave vars) exprs.
Proof. apply yields_removable_interleave_from_spec. Qed.

Lemma remove_interleave_defined (vars : Scope bool) (x : Expr) :
  yields_interleave vars x = true <-> exists e, remove_interleave vars x = Ok e.
Proof.
  unfold yields_interleave, remove_interleave.
  destruct (is_native_interleave x) eqn:Hi.
  - split; [intros _|reflexivity].
    destruct x as [| | | | | | | | | |t n [|a r] ct|]; try discriminate; eauto.
  - destruct (is_scalar (type_of x) || is_broadcast x); [split; eauto|].
    destruct x; try (split; [discriminate | intros [e H]; discriminate H]).
    destruct (contains vars (deinterleaved name)); split; eauto;
      try discriminate; intros [e H]; discriminate H.
Qed.

Lemma remove_interleaves_defined (vars : Scope bool) (exprs : list Expr) :
  forallb (yields_interleave vars) exprs = true ->
  exists removed,
    remove_interleaves vars exprs = Ok removed /\
    List.length removed = List.length exprs.
Proof.
  induction exprs as [|x rest IH]; simpl; intros H.
  - eauto.
  - apply andb_true_iff in H as [Hx Hr].
    apply remove_interleave_defined in Hx as [e ->].
    destruct (IH Hr) as (removed & -> & L). exists (e :: removed).
    simpl. auto.
Qed.

(** X5.  [remove_interleave] has a result exactly on the expressions
    that yield an interleave, so under the guard
    [yields_removable_interleave] the removal from every operand
    succeeds: its assertion cannot fail there. *)
Theorem marker_removal_is_guarded (vars : Scope bool) :
  (forall x, yields_interleave vars x = true <-> exists e, remove_interleave vars x = Ok e)
  /\ (forall exprs,
         yields_removable_interleave vars exprs = true ->
         exists removed,
           remove_interleaves vars exprs = Ok removed /\
           List.length removed = List.length exprs).
Proof.
  split; [apply remove_interleave_defined|].
  intros exprs H. unfold yields_removable_interleave in H.
  rewrite yields_removable_interleave_from_spec in H.
  apply andb_true_iff in H as [_ H]. apply remove_interleaves_defined, H.
Qed.

(** X6.  A comparison or logical node whose mutated operands yield a
    removable interleave makes the eliminator halt: the rebuilt node
    is a vector of 1 bit booleans, for which [native_interleave] has
    no marker. *)
Theorem comparison_of_interleaves_halts
    (mutate : Expr -> M (Scope bool) (Expr * bool))
    (o : BinOp) (op_a op_b a b : Expr) (fa fb : bool) (s s1 s2 : Scope bool) :
  is_boolean_op o = true ->
  mutate op_a s = Ok ((a, fa), s1) ->
  mutate op_b s1 = Ok ((b, fb), s2) ->
  yields_removable_interleave s2 [a; b] = true ->
  visit_binary mutate o op_a op_b s = Fail internal_error.
Proof.
  intros Ho Ha Hb Hy. unfold visit_binary.
  unfold bind at 1. rewrite Ha. unfold bind at 1. rewrite Hb.
  unfold bind at 1. unfold get at 1. cbn [fst snd]. rewrite Hy.
  assert (Hy' := Hy). unfold yields_removable_interleave in Hy'.
  rewrite yields_removable_interleave_from_spec in Hy'.
  apply andb_true_iff in Hy' as [_ Hy'].
  destruct (remove_interleaves_defined _ _ Hy') as (removed & Hr & _).
  simpl in Hr.
  destruct (remove_interleave s2 a) as [a'|]; [|discriminate].
  destruct (remove_interleave s2 b) as [b'|]; [|discriminate].
  unfold bind, lift, native_interleave.
  destruct o; try discriminate Ho; reflexivity.
Qed.

Lemma existsb_eqb_In (n : string) (l : list string) :
  existsb (String.eqb n) l = true <-> In n l.
Proof.
  rewrite existsb_exists. split.
  - intros (m & Hin & E). apply String.eqb_eq in E. subst. exact Hin.
  - intros Hin. exists n. split; [exact Hin | apply String.eqb_refl].
Qed.

(** X7.  [is_interleavable]: the eight listed calls always let a
    marker through and the six markers never do; every call whose name
    does not start with [halide.hexagon.] does; any other Hexagon
    intrinsic does exactly when each vector operand has the lane width
    and the lane count of the result. *)
Theorem interleavable_calls (t : HType) (name : string) (args : list Expr) :
  (In name transparent_names -> is_interleavable t name args = true)
  /\ (In name marker_names -> is_interleavable t name args = false)
  /\ (starts_with name "halide.hexagon." = false -> is_interleavable t name args = true)
  /\ (starts_with name "halide.hexagon." = true ->
      ~ In name marker_names ->
      is_interleavable t name args =
        forallb (fun i => is_scalar (type_of i) ||
                          ((bits (type_of i) =? bits t) && (lanes (type_of i) =? lanes t)))
                args).
Proof.
  assert (T : forall n, In n transparent_names -> is_interleavable t n args = true).
  { intros n Hin. unfold is_interleavable.
    apply existsb_eqb_In in Hin. unfold transparent_names in Hin. rewrite Hin. reflexivity. }
  assert (Mk : forall n, In n marker_names -> starts_with n "halide.hexagon." = true).
  { intros n Hin. unfold marker_names in Hin. simpl in Hin.
    repeat (destruct Hin as [<-|Hin]; [reflexivity|]). contradiction. }
  assert (Mt : forall n, In n marker_names -> ~ In n transparent_names).
  { intros n Hin Ht. unfold marker_names, transparent_names in *. simpl in Hin.
    repeat (destruct Hin as [<-|Hin];
            [simpl in Ht; repeat (destruct Ht as [Ht|Ht]; [discriminate Ht|]);
             contradiction|]).
    contradiction. }
  split; [apply T|]. split; [|split].
  - intros Hin. unfold is_interleavable.
    destruct (existsb (String.eqb name) _) eqn:E1.
    + apply existsb_eqb_In in E1. exfalso. exact (Mt _ Hin E1).
    + apply existsb_eqb_In in Hin. unfold marker_names in Hin. rewrite Hin. reflexivity.
  - intros Hs. unfold is_interleavable.
    destruct (existsb (String.eqb name) _) eqn:E1; [reflexivity|].
    destruct (existsb (String.eqb name) _) eqn:E2 in |- *.
    + apply existsb_eqb_In in E2. apply Mk in E2. congruence.
    + rewrite Hs. reflexivity.
  - intros Hs Hn. unfold is_interleavable.
    destruct (existsb (String.eqb name) _) eqn:E1.
    + apply existsb_eqb_In in E1.
      exfalso. unfold transparent_names in E1. simpl in E1.
      repeat (destruct E1 as [<-|E1]; [discriminate Hs|]). contradiction.
    + destruct (existsb (String.eqb name) _) eqn:E2 in |- *.
      * apply existsb_eqb_In in E2. contradiction.
      * rewrite Hs. clear. induction args as [|i r IH]; simpl; [reflexivity|].
        rewrite IH. f_equal.
        destruct (is_scalar (type_of i)), (bits (type_of i) =? bits t),
          (lanes (type_of i) =? lanes t); reflexivity.
Qed.

Lemma find_alt_names (name : string) (alt : DeinterleavingAlternative) :
  find_alt name deinterleaving_alts = Some alt ->
  In name ["halide.hexagon.pack.vh"; "halide.hexagon.pack.vw";
           "halide.hexagon.pack_satub.vh"; "halide.hexagon.pack_sath.vw";
           "halide.hexagon.pack_satuh.vw"].
Proof.
  unfold deinterleaving_alts. cbn [find_alt]. intros H.
  repeat match type of H with
         | context [String.eqb ?a name] =>
             let E := fresh "E" in
             destruct (String.eqb a name) eqn:E;
             [apply String.eqb_eq in E; subst name; simpl; tauto|]
         end.
  discriminate H.
Qed.

(** X8.  A call of a pack intrinsic that has a deinterleaving
    alternative, over one operand whose mutation is an interleave
    marker, becomes the call of the alternative on the operand of the
    marker followed by the alternative's extra arguments: no marker is
    left. *)
Theorem pack_of_interleave_becomes_trunc
    (mutate : Expr -> M (Scope bool) (Expr * bool))
    (t : HType) (name : string) (alt : DeinterleavingAlternative) (ct : CallType)
    (arg inner : Expr) (tv : HType) (nv : string) (ctv : CallType) (f : bool)
    (s s1 : Scope bool) :
  find_alt name deinterleaving_alts = Some alt ->
  mutate arg s = Ok ((Call tv nv [inner] ctv, f), s1) ->
  is_native_interleave (Call tv nv [inner] ctv) = true ->
  is_interleavable t name [arg] = false ->
  visit_Call mutate t name [arg] ct s =
    Ok ((Call t (alt_name alt) (inner :: extra_args alt) ct, false), s1).
Proof.
  intros Halt Hm Hi Hn. unfold visit_Call.
  unfold bind at 1. cbn [IRMutator.mutate_args]. unfold bind at 1. rewrite Hm.
  unfold bind at 1. unfold ret at 1. unfold ret at 1. cbn [fst snd].
  unfold bind at 1. unfold get at 1.
  assert (Hd : is_native_deinterleave (Call t name [arg] ct) = false).
  { apply find_alt_names in Halt. simpl in Halt.
    repeat (destruct Halt as [<-|Halt]; [reflexivity|]). contradiction. }
  rewrite Hd, Hn, Halt. cbn [andb].
  unfold yields_removable_interleave. cbn [yields_removable_interleave_from].
  rewrite Hi. cbn [remove_interleaves]. unfold remove_interleave. rewrite Hi.
  reflexivity.
Qed.
End MarkerFacts.

Lemma marker_round_trip_witness :
  EliminateInterleaves.remove_interleave [] (Examples.interleave_vh Examples.v) =
    Ok Examples.v.
Proof.
  exact (proj2 (proj2 (proj2 (proj2
           (@marker_round_trip Examples.v (Examples.interleave_vh Examples.v) []
              eq_refl))))).
Defined.

Lemma comparison_of_interleaves_halts_witness :
  EliminateInterleaves.mutate (C := Model.collaborators)
    (LT (Examples.interleave_vh Examples.v) (Examples.interleave_vh Examples.x)) [] =
    Fail internal_error.
Proof.
  exact (@comparison_of_interleaves_halts
           (EliminateInterleaves.mutate (C := Model.collaborators)) OpLT
           (Examples.interleave_vh Examples.v) (Examples.interleave_vh Examples.x)
           (Examples.interleave_vh Examples.v) (Examples.interleave_vh Examples.x)
           true true [] [] [] eq_refl eq_refl eq_refl eq_refl).
Defined.

Lemma pack_of_interleave_becomes_trunc_witness :
  EliminateInterleaves.mutate (C := Model.collaborators)
    (Call Examples.u8x64 "halide.hexagon.pack_satuh.vw"
          [Examples.interleave_vh Examples.v] PureExtern) [] =
    Ok ((Call Examples.u8x64 "halide.hexagon.trunc_satuh_shr.vw.w"
              [Examples.v; IntImm (Int 32 1) 0] PureExtern, false), []).
Proof.
  exact (@pack_of_interleave_becomes_trunc
           (EliminateInterleaves.mutate (C := Model.collaborators))
           Examples.u8x64 "halide.hexagon.pack_satuh.vw"
           {| EliminateInterleaves.alt_name := "halide.hexagon.trunc_satuh_shr.vw.w";
              EliminateInterleaves.extra_args := [IntImm (Int 32 1) 0] |}
           PureExtern (Examples.interleave_vh Examples.v) Examples.v
           Examples.i16x64 "halide.hexagon.interleave.vh" PureExtern true [] []
           eq_refl eq_refl eq_refl eq_refl).
Defined.

(* ================================================================= *)
(** ** Further properties: what the passes leave alone                *)
(* ================================================================= *)

Section MarkerFree.
Context {C : Collaborators}.
Import EliminateInterleaves.

Lemma marker_free_not_interleave (e : Expr) :
  marker_free e = true -> is_native_interleave e = false.
Proof.
  destruct e; try reflexivity. simpl. intros H.
  apply andb_true_iff in H as [H _]. apply andb_true_iff in H as [H _].
  apply negb_true_iff in H. exact H.
Qed.

Lemma not_removable (vars : Scope bool) (exprs : list Expr) :
  forallb marker_free exprs = true ->
  yields_removable_interleave vars exprs = false.
Proof.
  intros H. unfold yields_removable_interleave.
  rewrite yields_removable_interleave_from_spec. cbn [orb].
  replace (existsb is_native_interleave exprs) with false; [reflexivity|].
  symmetry. induction exprs as [|x r IH]; simpl in *; [reflexivity|].
  apply andb_true_iff in H as [Hx Hr].
  rewrite (marker_free_not_interleave _ Hx). apply IH, Hr.
Qed.

Lemma mutate_args_unchanged (vars : Scope bool) (args : list Expr) :
  Forall (fun a => marker_free a = true ->
                   mutate a vars = Ok ((a, true), vars)) args ->
  forallb marker_free args = true ->
  IRMutator.mutate_args mutate args vars = Ok ((args, true), vars).
Proof.
  induction 1 as [|a r Ha _ IH]; simpl; intros H; [reflexivity|].
  apply andb_true_iff in H as [Hm Hr].
  unfold bind at 1. rewrite (Ha Hm). unfold bind at 1. rewrite (IH Hr). reflexivity.
Qed.

Lemma marker_free_unchanged (e : Expr) (vars : Scope bool) :
  marker_free e = true -> mutate e vars = Ok ((e, true), vars).
Proof.
  induction e using Expr_ind'; intros Hm; simpl in Hm;
    rewrite ?andb_true_iff in Hm.
  - reflexivity.
  - reflexivity.
  - (* Cast *)
    cbn [mutate visit]. unfold visit_Cast.
    destruct (bits t =? bits (type_of e)).
    + unfold bind at 1. rewrite (IHe Hm). unfold bind, get. cbn [fst snd].
      rewrite (marker_free_not_interleave _ Hm). reflexivity.
    + cbn [IRMutator.visit]. unfold bind. rewrite (IHe Hm). reflexivity.
  - reflexivity.
  - (* Binary *)
    destruct Hm as [Ha Hb]. cbn [mutate visit]. unfold visit_binary.
    unfold bind at 1. rewrite (IHe1 Ha). unfold bind at 1. rewrite (IHe2 Hb).
    unfold bind, get. cbn [fst snd].
    rewrite not_removable by (simpl; rewrite Ha, Hb; reflexivity). reflexivity.
  - (* Not *)
    cbn [mutate visit]. unfold visit_Not.
    unfold bind at 1. rewrite (IHe Hm). unfold bind, get. cbn [fst snd].
    rewrite (marker_free_not_interleave _ Hm). reflexivity.
  - (* Select *)
    destruct Hm as [[Hc Ht] Hf]. cbn [mutate visit]. unfold visit_Select.
    unfold bind at 1. rewrite (IHe1 Hc). unfold bind at 1. rewrite (IHe2 Ht).
    unfold bind at 1. rewrite (IHe3 Hf). unfold bind, get. cbn [fst snd].
    rewrite not_removable by (simpl; rewrite Hc, Ht, Hf; reflexivity). reflexivity.
  - (* Load *)
    cbn [mutate visit IRMutator.visit]. unfold bind. rewrite (IHe Hm). reflexivity.
  - (* Ramp *)
    destruct Hm as [Ha Hb]. cbn [mutate visit IRMutator.visit].
    unfold bind. rewrite (IHe1 Ha), (IHe2 Hb). reflexivity.
  - (* Broadcast *)
    cbn [mutate visit IRMutator.visit]. unfold bind. rewrite (IHe Hm). reflexivity.
  - (* Call *)
    destruct Hm as [[Hi Hd] Ha].
    apply negb_true_iff in Hi, Hd.
    change (is_native_deinterleave (Call t n args ct) = false) in Hd.
    cbn [mutate visit]. unfold visit_Call.
    unfold bind at 1.
    rewrite (@mutate_args_unchanged vars args); [|exact H|exact Ha].
    unfold bind, get. cbn [fst snd negb].
    rewrite Hd, (not_removable vars _ Ha). cbn [andb].
    rewrite andb_false_r.
    destruct (find_alt n deinterleaving_alts); reflexivity.
  - (* Let *)
    destruct Hm as [Hv Hb]. cbn [mutate visit]. unfold visit_let.
    unfold bind at 1. rewrite (IHe1 Hv). cbn [fst snd].
    rewrite (marker_free_not_interleave _ Hv).
    unfold bind at 1. rewrite (IHe2 Hb). reflexivity.
Qed.

Lemma marker_free_stmt_unchanged (s : Stmt) (vars : Scope bool) :
  marker_free_stmt s = true -> mutate_stmt s vars = Ok ((s, true), vars).
Proof.
  induction s; intros Hm; simpl in Hm; rewrite ?andb_true_iff in Hm.
  - destruct Hm as [Hv Hb]. cbn [mutate_stmt visit_stmt]. unfold visit_let.
    unfold bind at 1. rewrite (marker_free_unchanged _ vars Hv). cbn [fst snd].
    rewrite (marker_free_not_interleave _ Hv).
    unfold bind at 1. rewrite (IHs Hb). reflexivity.
  - cbn [mutate_stmt visit_stmt IRMutator.visit_stmt]. unfold bind.
    rewrite (marker_free_unchanged _ vars Hm). reflexivity.
  - destruct Hm as [Hv Hi]. cbn [mutate_stmt visit_stmt IRMutator.visit_stmt].
    unfold bind. rewrite (marker_free_unchanged _ vars Hv), (marker_free_unchanged _ vars Hi).
    reflexivity.
  - destruct Hm as [Ha Hb]. cbn [mutate_stmt visit_stmt IRMutator.visit_stmt].
    unfold bind. rewrite (IHs1 Ha), (IHs2 Hb). reflexivity.
Qed.
End MarkerFree.

Section SelectorInert.
Context {C : Collaborators}.
Import OptimizePatterns.

Lemma selector_args_unchanged (fuel : nat) (args : list Expr) :
  Forall (fun a => forall fuel, (depth a <= fuel)%nat -> selector_inert a = true ->
                   mutate fuel a tt = Ok ((a, true), tt)) args ->
  (fold_right (fun a n => Nat.max (depth a) n) O args <= fuel)%nat ->
  forallb selector_inert args = true ->
  IRMutator.mutate_args (mutate fuel) args tt = Ok ((args, true), tt).
Proof.
  induction 1 as [|a r Ha _ IH]; simpl; intros Hd H; [reflexivity|].
  apply andb_true_iff in H as [Hm Hr].
  unfold bind at 1. rewrite (Ha fuel) by (assumption || lia).
  unfold bind at 1. rewrite IH by (assumption || lia). reflexivity.
Qed.

Lemma selector_inert_unchanged (e : Expr) (fuel : nat) :
  (depth e <= fuel)%nat -> selector_inert e = true ->
  mutate fuel e tt = Ok ((e, true), tt).
Proof.
  revert fuel. induction e using Expr_ind'; intros fuel Hd Hm;
    (destruct fuel as [|fuel]; [simpl in Hd; lia|]);
    simpl in Hd; simpl in Hm; rewrite ?andb_true_iff in Hm.
  - reflexivity.
  - reflexivity.
  - (* Cast *)
    destruct Hm as [Hv Hm]. apply negb_true_iff in Hv.
    cbn [mutate visit]. unfold visit_Cast. rewrite Hv.
    cbn [IRMutator.visit]. unfold bind. rewrite IHe by (assumption || lia). reflexivity.
  - reflexivity.
  - (* Binary *)
    destruct Hm as [[Ho Ha] Hb].
    assert (D : IRMutator.visit (mutate fuel) (Binary op e1 e2) tt =
                Ok ((Binary op e1 e2, true), tt)).
    { cbn [IRMutator.visit]. unfold bind.
      rewrite IHe1, IHe2 by (assumption || lia). reflexivity. }
    cbn [mutate]. destruct op; cbn [visit]; try exact D;
      apply negb_true_iff in Ho; cbn [type_of] in Ho.
    + unfold visit_commutative_op. cbn [type_of]. rewrite Ho. exact D.
    + unfold visit_Sub. cbn [type_of]. rewrite Ho. exact D.
    + unfold visit_commutative_op. cbn [type_of]. rewrite Ho. exact D.
    + unfold visit_Max. unfold bind. rewrite D. cbn [type_of]. rewrite Ho. reflexivity.
  - cbn [mutate visit IRMutator.visit]. unfold bind.
    rewrite IHe by (assumption || lia). reflexivity.
  - destruct Hm as [[Hc Ht] Hf]. cbn [mutate visit IRMutator.visit]. unfold bind.
    rewrite IHe1, IHe2, IHe3 by (assumption || lia). reflexivity.
  - cbn [mutate visit IRMutator.visit]. unfold bind.
    rewrite IHe by (assumption || lia). reflexivity.
  - destruct Hm as [Ha Hb]. cbn [mutate visit IRMutator.visit]. unfold bind.
    rewrite IHe1, IHe2 by (assumption || lia). reflexivity.
  - cbn [mutate visit IRMutator.visit]. unfold bind.
    rewrite IHe by (assumption || lia). reflexivity.
  - cbn [mutate visit IRMutator.visit]. unfold bind at 1.
    rewrite selector_args_unchanged; [reflexivity|exact H|lia|exact Hm].
  - destruct Hm as [Ha Hb]. cbn [mutate visit IRMutator.visit]. unfold bind.
    rewrite IHe1, IHe2 by (assumption || lia). reflexivity.
Qed.
End SelectorInert.

Section GatherFree.
Context {C : Collaborators}.
Import OptimizeShuffles.

Lemma gather_args_unchanged (fuel : nat) (bounds : Scope Interval) (args : list Expr) :
  Forall (fun a => forall bounds, gather_free a = true ->
                   mutate fuel a bounds = Ok ((a, true), bounds)) args ->
  forallb gather_free args = true ->
  IRMutator.mutate_args (mutate fuel) args bounds = Ok ((args, true), bounds).
Proof.
  induction 1 as [|a r Ha _ IH]; simpl; intros H; [reflexivity|].
  apply andb_true_iff in H as [Hm Hr].
  unfold bind at 1. rewrite (Ha bounds Hm). unfold bind at 1. rewrite (IH Hr). reflexivity.
Qed.

Lemma gather_free_unchanged (fuel : nat) (e : Expr) (bounds : Scope Interval) :
  gather_free e = true -> mutate fuel e bounds = Ok ((e, true), bounds).
Proof.
  revert bounds. induction e using Expr_ind'; intros bounds Hm;
    simpl in Hm; rewrite ?andb_true_iff in Hm.
  - reflexivity.
  - reflexivity.
  - cbn [mutate visit IRMutator.visit]. unfold bind. rewrite (IHe _ Hm). reflexivity.
  - reflexivity.
  - destruct Hm as [Ha Hb]. cbn [mutate visit IRMutator.visit]. unfold bind.
    rewrite (IHe1 _ Ha), (IHe2 _ Hb). reflexivity.
  - cbn [mutate visit IRMutator.visit]. unfold bind. rewrite (IHe _ Hm). reflexivity.
  - destruct Hm as [[Hc Ht] Hf]. cbn [mutate visit IRMutator.visit]. unfold bind.
    rewrite (IHe1 _ Hc), (IHe2 _ Ht), (IHe3 _ Hf). reflexivity.
  - (* Load *)
    destruct Hm as [Hl Hi]. cbn [mutate visit]. unfold visit_Load. rewrite Hl.
    cbn [IRMutator.visit]. unfold bind. rewrite (IHe _ Hi). reflexivity.
  - destruct Hm as [Ha Hb]. cbn [mutate visit IRMutator.visit]. unfold bind.
    rewrite (IHe1 _ Ha), (IHe2 _ Hb). reflexivity.
  - cbn [mutate visit IRMutator.visit]. unfold bind. rewrite (IHe _ Hm). reflexivity.
  - cbn [mutate visit IRMutator.visit]. unfold bind at 1.
    rewrite gather_args_unchanged; [reflexivity|exact H|exact Hm].
  - (* Let *)
    destruct Hm as [Ha Hb]. cbn [mutate visit]. unfold visit_let.
    destruct (is_vector (type_of e1)).
    + unfold bind at 1. unfold bind at 1. unfold get at 1. unfold modify at 1.
      unfold bind at 1. cbn [IRMutator.visit]. unfold bind at 1.
      rewrite (IHe1 _ Ha). unfold bind at 1. rewrite (IHe2 _ Hb).
      cbn [fst snd andb]. unfold ret at 1. unfold bind at 1. unfold modify at 1.
      unfold ret. rewrite pop_push. reflexivity.
    + unfold bind at 1. unfold ret at 1. unfold bind at 1.
      cbn [IRMutator.visit]. unfold bind at 1.
      rewrite (IHe1 _ Ha). unfold bind at 1. rewrite (IHe2 _ Hb).
      reflexivity.
Qed.
End GatherFree.

Section ShufflesScope.
Context {C : Collaborators}.
Import OptimizeShuffles.

Lemma shuffles_visit_let_restoring {N : Type}
    (default_visit : N -> M (Scope Interval) (N * bool)) (op : N)
    (name : string) (value : Expr) :
  restoring (default_visit op) ->
  restoring (visit_let default_visit op name value).
Proof.
  intros Hd s r s' H. unfold visit_let in H.
  destruct (is_vector (type_of value)).
  - unfold bind, get, modify, ret in H.
    destruct (default_visit op (push name (bounds_of_expr_in_scope value s) s))
      as [[r1 s1]|] eqn:E; [|discriminate].
    apply Hd in E. subst s1. inversion H. apply pop_push.
  - unfold bind, ret in H.
    destruct (default_visit op s) as [[r1 s1]|] eqn:E; [|discriminate].
    apply Hd in E. congruence.
Qed.

Lemma shuffles_mutate_restoring (fuel : nat) (e : Expr) : restoring (mutate fuel e).
Proof.
  induction e using Expr_ind'; cbn [mutate visit];
    try (apply shuffles_visit_let_restoring);
    unfold visit_Load, IRMutator.visit;
    restoring_tac.
Qed.

Lemma shuffles_mutate_stmt_restoring (fuel : nat) (s : Stmt) :
  restoring (mutate_stmt fuel s).
Proof.
  induction s; cbn [mutate_stmt visit_stmt];
    try (apply shuffles_visit_let_restoring);
    unfold IRMutator.visit_stmt;
    repeat first [ apply shuffles_mutate_restoring | restoring_step ].
Qed.
End ShufflesScope.

Section Drivers.
Context {C : Collaborators}.

Lemma optimize_patterns_stmt_unchanged (fuel : nat) (s : Stmt) :
  every_expr (fun e => (depth e <=? fuel)%nat && selector_inert e) s = true ->
  optimize_patterns_stmt fuel s tt = Ok ((s, true), tt).
Proof.
  induction s; intros H; simpl in H; rewrite ?andb_true_iff in H;
    cbn [optimize_patterns_stmt IRMutator.visit_stmt]; unfold bind.
  - destruct H as [[Hd Hv] Hb]. apply Nat.leb_le in Hd.
    rewrite (selector_inert_unchanged _ Hd Hv). rewrite (IHs Hb). reflexivity.
  - destruct H as [Hd Hv]. apply Nat.leb_le in Hd.
    rewrite (selector_inert_unchanged _ Hd Hv). reflexivity.
  - destruct H as [[Hd Hv] [Hd' Hi]]. apply Nat.leb_le in Hd, Hd'.
    rewrite (selector_inert_unchanged _ Hd Hv), (selector_inert_unchanged _ Hd' Hi).
    reflexivity.
  - destruct H as [Ha Hb]. rewrite (IHs1 Ha), (IHs2 Hb). reflexivity.
Qed.

Lemma marker_free_every (s : Stmt) :
  every_expr marker_free s = true -> marker_free_stmt s = true.
Proof.
  induction s; simpl; rewrite ?andb_true_iff; intuition.
Qed.

Lemma shuffles_stmt_unchanged (fuel : nat) (s : Stmt) (bounds : Scope Interval) :
  every_expr gather_free s = true ->
  OptimizeShuffles.mutate_stmt fuel s bounds = Ok ((s, true), bounds).
Proof.
  revert bounds. induction s; intros bounds H; simpl in H; rewrite ?andb_true_iff in H;
    cbn [OptimizeShuffles.mutate_stmt OptimizeShuffles.visit_stmt IRMutator.visit_stmt].
  - destruct H as [Hv Hb]. unfold OptimizeShuffles.visit_let.
    destruct (is_vector (type_of value)).
    + unfold bind at 1. unfold bind at 1. unfold get at 1. unfold modify at 1.
      unfold bind at 1. cbn [IRMutator.visit_stmt]. unfold bind at 1.
      rewrite (gather_free_unchanged fuel _ _ Hv). unfold bind at 1.
      rewrite (IHs _ Hb). cbn [fst snd andb]. unfold ret at 1.
      unfold bind at 1. unfold modify at 1. unfold ret. rewrite pop_push. reflexivity.
    + unfold bind at 1. unfold ret at 1. unfold bind at 1.
      cbn [IRMutator.visit_stmt]. unfold bind at 1.
      rewrite (gather_free_unchanged fuel _ _ Hv). unfold bind at 1.
      rewrite (IHs _ Hb). reflexivity.
  - unfold bind. rewrite (gather_free_unchanged fuel _ _ H). reflexivity.
  - destruct H as [Hv Hi]. unfold bind.
    rewrite (gather_free_unchanged fuel _ _ Hv), (gather_free_unchanged fuel _ _ Hi).
    reflexivity.
  - destruct H as [Ha Hb]. unfold bind. rewrite (IHs1 _ Ha), (IHs2 _ Hb). reflexivity.
Qed.

End Drivers.

(* ================================================================= *)
(** ** Further properties: statements                                 *)
(* ================================================================= *)

(** X9.  The interleave eliminator leaves its scope of shadow names
    as it found it, on expressions and on statements: every push is
    matched by its pop. *)
Theorem eliminator_scope_unwound (C : Collaborators) (vars vars' : Scope bool) :
  (forall e r, EliminateInterleaves.mutate e vars = Ok (r, vars') -> vars' = vars)
  /\ (forall s r, EliminateInterleaves.mutate_stmt s vars = Ok (r, vars') -> vars' = vars).
Proof.
  split.
  - intros e r H. eapply mutate_restoring; eassumption.
  - intros s r H. eapply mutate_stmt_restoring; eassumption.
Qed.

Lemma eliminator_scope_unwound_witness :
  @nil (string * bool) = [].
Proof.
  exact (proj1 (@eliminator_scope_unwound Model.collaborators [] [])
           (LetE "x" (Examples.interleave_vh Examples.v)
                 (Examples.deinterleave_vh Examples.x))
           (LetE "x.deinterleaved" Examples.v Examples.x_deinterleaved, false)
           eq_refl).
Defined.

(** X10.  The shuffle optimiser leaves its scope of bounds as it
    found it, on expressions and on statements. *)
Theorem shuffle_bounds_unwound (C : Collaborators) (fuel : nat)
    (bounds bounds' : Scope Interval) :
  (forall e r, OptimizeShuffles.mutate fuel e bounds = Ok (r, bounds') -> bounds' = bounds)
  /\ (forall s r,
         OptimizeShuffles.mutate_stmt fuel s bounds = Ok (r, bounds') -> bounds' = bounds).
Proof.
  split.
  - intros e r H. eapply shuffles_mutate_restoring; eassumption.
  - intros s r H. eapply shuffles_mutate_stmt_restoring; eassumption.
Qed.

Lemma shuffle_bounds_unwound_witness :
  @nil (string * Interval) = [].
Proof.
  exact (proj1 (@shuffle_bounds_unwound Model.collaborators 3 [] [])
           (LetE "i" Examples.bytes (Examples.lut (Variable_ Examples.i32x64 "i")))
           (LetE "i" Examples.bytes
                 (lookup (C := Model.collaborators) Examples.u8x64 "lut"
                    (Variable_ Examples.i32x64 "i") (IntImm (Int 32 1) 255)
                    (IntImm (Int 32 1) 0)),
            false)
           eq_refl).
Defined.

(** X11.  On a tree, or a statement, without markers the eliminator
    changes nothing, whatever its scope: it returns the very tree,
    leaves the scope, and does not halt. *)
Theorem eliminator_leaves_marker_free (C : Collaborators) (vars : Scope bool) :
  (forall e, marker_free e = true ->
             EliminateInterleaves.mutate e vars = Ok ((e, true), vars))
  /\ (forall s, marker_free_stmt s = true ->
                EliminateInterleaves.mutate_stmt s vars = Ok ((s, true), vars)).
Proof.
  split.
  - intros e H. apply marker_free_unchanged; assumption.
  - intros s H. apply marker_free_stmt_unchanged; assumption.
Qed.

Lemma eliminator_leaves_marker_free_witness :
  let e := LetE "x" (Add Examples.v Examples.v) (Mul Examples.x Examples.v) in
  EliminateInterleaves.mutate (C := Model.collaborators) e [("x.deinterleaved", true)] =
    Ok ((e, true), [("x.deinterleaved", true)]).
Proof.
  intros e.
  exact (proj1 (@eliminator_leaves_marker_free Model.collaborators
                  [("x.deinterleaved", true)]) e eq_refl).
Defined.

(** X12.  The instruction selector rewrites nothing but vector
    multiplies, adds, subtracts, maxima and casts: a tree in which
    these nodes are all scalar comes back as the very tree, for every
    step count that covers its depth and whatever the collaborators
    are. *)
Theorem selector_leaves_scalar_code (C : Collaborators) (e : Expr) (fuel : nat) :
  (depth e <= fuel)%nat ->
  selector_inert e = true ->
  OptimizePatterns.mutate fuel e tt = Ok ((e, true), tt).
Proof. intros Hd Hs. apply selector_inert_unchanged; assumption. Qed.

Lemma selector_leaves_scalar_code_witness :
  let i := Variable_ (Int 32 1) "i" in
  let e := Load Examples.u8x64 "buf"
             (Ramp (Add (Mul i (IntImm (Int 32 1) 64)) (IntImm (Int 32 1) 1))
                   (IntImm (Int 32 1) 1) 64) in
  OptimizePatterns.mutate (C := Model.collaborators) 5 e tt = Ok ((e, true), tt).
Proof.
  intros i e.
  refine (@selector_leaves_scalar_code Model.collaborators e 5 _ eq_refl).
  simpl. lia.
Defined.

(** X13.  The shuffle optimiser rewrites nothing but gathers: a tree
    whose loads are all scalar or read through a ramp comes back as
    the very tree, in every scope and without calling [upper_bound]
    (no step is needed). *)
Theorem shuffles_leave_gather_free (C : Collaborators) (fuel : nat) (e : Expr)
    (bounds : Scope Interval) :
  gather_free e = true ->
  OptimizeShuffles.mutate fuel e bounds = Ok ((e, true), bounds).
Proof. intros H. apply gather_free_unchanged; assumption. Qed.

Lemma shuffles_leave_gather_free_witness :
  let e := LetE "t" (Examples.lut Examples.ramp)
                (Add (Variable_ Examples.u8x64 "t") (Variable_ Examples.u8x64 "t")) in
  OptimizeShuffles.mutate (C := Model.collaborators) 0 e [] = Ok ((e, true), []).
Proof.
  intros e. exact (@shuffles_leave_gather_free Model.collaborators 0 e [] eq_refl).
Defined.

(** X14.  The two entry points.  [optimize_hexagon_instructions], the
    selector followed by the eliminator, returns a statement as it is
    when none of its expressions has a vector multiply, add,
    subtract, maximum or cast, nor a marker; and
    [optimize_hexagon_shuffles] returns a statement as it is when none
    of its expressions has a gather. *)
Theorem drivers_leave_plain_code (C : Collaborators) (fuel : nat) (s : Stmt) :
  (every_expr (fun e => (depth e <=? fuel)%nat && selector_inert e) s = true ->
   every_expr marker_free s = true ->
   optimize_hexagon_instructions fuel s = Ok s)
  /\ (every_expr gather_free s = true ->
      optimize_hexagon_shuffles fuel s = Ok s).
Proof.
  split.
  - intros Hs Hm. unfold optimize_hexagon_instructions.
    rewrite optimize_patterns_stmt_unchanged by assumption.
    rewrite marker_free_stmt_unchanged by (apply marker_free_every; assumption).
    reflexivity.
  - intros Hg. unfold optimize_hexagon_shuffles.
    rewrite shuffles_stmt_unchanged by assumption. reflexivity.
Qed.

Lemma drivers_leave_plain_code_witness :
  let i := Variable_ (Int 32 1) "i" in
  let s := LetStmt "j" (Add i (IntImm (Int 32 1) 1))
             (Store "out" (Examples.lut Examples.ramp) Examples.ramp) in
  optimize_hexagon_instructions (C := Model.collaborators) 4 s = Ok s /\
  optimize_hexagon_shuffles (C := Model.collaborators) 4 s = Ok s.
Proof.
  intros i s. split.
  - exact (proj1 (@drivers_leave_plain_code Model.collaborators 4 s) eq_refl eq_refl).
  - exact (proj2 (@drivers_leave_plain_code Model.collaborators 4 s) eq_refl).
Defined.

(* ================================================================= *)
(** ** Further properties: the pattern engine and negation            *)
(* ================================================================= *)

Section EmitFacts.
Context {C : Collaborators}.
Variable S : Type.

Lemma mapM_length {A B} (f : A -> M S B) (l : list A) (s s' : S) (l' : list B) :
  mapM f l s = Ok (l', s') -> List.length l' = List.length l.
Proof.
  revert s l'. induction l as [|a l IH]; intros s l' H; simpl in H.
  - inversion H; reflexivity.
  - unfold bind at 1 in H. destruct (f a s) as [[b s1]|]; [|discriminate].
    unfold bind at 1 in H. destruct (mapM f l s1) as [[bs s2]|] eqn:E; [|discriminate].
    inversion H; subst. simpl. f_equal. eapply IH; eassumption.
Qed.

Lemma mapM_fails {A B} (f : A -> M S B) (l : list A) (s : S) (w : failure) :
  mapM f l s = Fail w -> exists a s0, In a l /\ f a s0 = Fail w.
Proof.
  revert s. induction l as [|a l IH]; intros s H; simpl in H; [discriminate|].
  unfold bind at 1 in H. destruct (f a s) as [[b s1]|] eqn:E.
  - unfold bind at 1 in H. destruct (mapM f l s1) as [[bs s2]|] eqn:E2; [discriminate|].
    inversion H; subst. destruct (IH _ E2) as (a0 & s0 & Hin & Hf).
    exists a0, s0. split; [right; exact Hin | exact Hf].
  - inversion H; subst. exists a, s. split; [left; reflexivity | exact E].
Qed.

Lemma swap_ops01_length (flags : Z) (l l' : list Expr) :
  swap_ops01 flags l = Ok l' -> List.length l' = List.length l.
Proof.
  unfold swap_ops01. destruct (has_flag _ _); [|intros H; inversion H; reflexivity].
  destruct l as [|a [|b r]]; intros H; inversion H; reflexivity.
Qed.

Lemma swap_ops12_length (flags : Z) (l l' : list Expr) :
  swap_ops12 flags l = Ok l' -> List.length l' = List.length l.
Proof.
  unfold swap_ops12. destruct (has_flag _ _); [|intros H; inversion H; reflexivity].
  destruct l as [|a [|b [|c r]]]; intros H; inversion H; reflexivity.
Qed.

Lemma deinterleave_operands_fails (flags i : Z) (l : list Expr) (w : failure) :
  deinterleave_operands flags i l = Fail w ->
  w = internal_error /\
  exists k m,
    nth_error l k = Some m /\
    has_flag flags (Z.shiftl Pattern.DeinterleaveOp0 (i + Z.of_nat k)) = true /\
    (is_vector (type_of m) = false \/ native_deinterleave m = Fail internal_error).
Proof.
  revert i. induction l as [|m rest IH]; intros i H; simpl in H; [discriminate|].
  destruct (has_flag flags (Z.shiftl Pattern.DeinterleaveOp0 i)) eqn:Hf.
  - destruct (is_vector (type_of m)) eqn:Hv.
    + destruct (native_deinterleave m) as [m'|w'] eqn:Hd.
      * destruct (deinterleave_operands flags (i + 1) rest) eqn:E; [discriminate|].
        inversion H; subst. destruct (IH _ E) as (-> & k & m0 & Hn & Hk & Hm).
        split; [reflexivity|]. exists (Datatypes.S k), m0.
        split; [exact Hn|]. split; [|exact Hm].
        rewrite <- Hk. f_equal. f_equal. lia.
      * inversion H; subst.
        assert (w = internal_error).
        { unfold native_deinterleave in Hd. break_in Hd. congruence. }
        subst. split; [reflexivity|]. exists O, m.
        rewrite Z.add_0_r. auto.
    + inversion H; subst. split; [reflexivity|]. exists O, m.
      rewrite Z.add_0_r. auto.
  - destruct (deinterleave_operands flags (i + 1) rest) eqn:E; [discriminate|].
    inversion H; subst. destruct (IH _ E) as (-> & k & m0 & Hn & Hk & Hm).
    split; [reflexivity|]. exists (Datatypes.S k), m0.
    split; [exact Hn|]. split; [|exact Hm].
    rewrite <- Hk. f_equal. f_equal. lia.
Qed.

(** X16.  [emit] halts only because a deinterleave flag sits on an
    operand that is not a vector or has no marker, because a swap
    flag asks for more operands than were bound, because the operand
    mutator halts, or because the result is to be interleaved and has
    no marker. *)
Theorem emit_halts_only_on_assertions (x : Expr) (p : Pattern)
    (op_mutator : Expr -> M S Expr) (operands : list Expr) (s : S) (w : failure) :
  emit x p op_mutator operands s = Fail w ->
  (w = internal_error /\
   exists k m,
     nth_error operands k = Some m /\
     has_flag (Pattern.flags p) (Z.shiftl Pattern.DeinterleaveOp0 (Z.of_nat k)) = true /\
     (is_vector (type_of m) = false \/ native_deinterleave m = Fail internal_error))
  \/ (w = internal_error /\
      has_flag (Pattern.flags p) Pattern.SwapOps01 = true /\
      (List.length operands < 2)%nat)
  \/ (w = internal_error /\
      has_flag (Pattern.flags p) Pattern.SwapOps12 = true /\
      (List.length operands < 3)%nat)
  \/ (exists m s0, op_mutator m s0 = Fail w)
  \/ (w = internal_error /\
      has_flag (Pattern.flags p) Pattern.InterleaveResult = true /\
      bits (type_of x) <> 8 /\ bits (type_of x) <> 16 /\ bits (type_of x) <> 32).
Proof.
  unfold emit. intros H.
  unfold bind at 1 in H. unfold lift at 1 in H.
  destruct (deinterleave_operands (Pattern.flags p) 0 operands) as [m1|w1] eqn:E1.
  2:{ inversion H; subst. left.
      destruct (deinterleave_operands_fails _ _ _ E1) as (-> & k & m & Hn & Hk & Hm).
      split; [reflexivity|]. exists k, m. auto. }
  pose proof (deinterleave_operands_length _ _ _ E1) as L1.
  unfold bind at 1 in H. unfold lift at 1 in H.
  destruct (swap_ops01 (Pattern.flags p) m1) as [m2|w2] eqn:E2.
  2:{ inversion H; subst. right; left. unfold swap_ops01 in E2.
      destruct (has_flag _ Pattern.SwapOps01); [|discriminate].
      destruct m1 as [|a [|b r]]; inversion E2; subst;
        (split; [reflexivity|]); (split; [reflexivity|]); simpl in L1; lia. }
  pose proof (swap_ops01_length _ _ E2) as L2.
  unfold bind at 1 in H. unfold lift at 1 in H.
  destruct (swap_ops12 (Pattern.flags p) m2) as [m3|w3] eqn:E3.
  2:{ inversion H; subst. right; right; left. unfold swap_ops12 in E3.
      destruct (has_flag _ Pattern.SwapOps12); [|discriminate].
      destruct m2 as [|a [|b [|c r]]]; inversion E3; subst;
        (split; [reflexivity|]); (split; [reflexivity|]); simpl in L2; lia. }
  unfold bind at 1 in H.
  destruct (mapM op_mutator m3 s) as [[m4 s4]|w4] eqn:E4.
  2:{ inversion H; subst. right; right; right; left.
      destruct (mapM_fails _ _ _ E4) as (a & s0 & _ & Hf). eauto. }
  destruct (has_flag (Pattern.flags p) Pattern.InterleaveResult) eqn:Hi;
    [|discriminate H].
  right; right; right; right.
  unfold lift, native_interleave in H. cbn [type_of] in H.
  destruct (bits (type_of x) =? 8) eqn:B8; [discriminate|].
  destruct (bits (type_of x) =? 16) eqn:B16; [discriminate|].
  destruct (bits (type_of x) =? 32) eqn:B32; [discriminate|].
  apply Z.eqb_neq in B8, B16, B32. inversion H. auto.
Qed.

Lemma emitted_call_arity (x x' : Expr) (p : Pattern)
    (op_mutator : Expr -> M S Expr) (operands : list Expr) (s s' : S) :
  emit x p op_mutator operands s = Ok (x', s') ->
  exists args,
    List.length args = List.length operands /\
    let call := Call (type_of x) (Pattern.intrin p) args PureExtern in
    if has_flag (Pattern.flags p) Pattern.InterleaveResult
    then native_interleave call = Ok x'
    else x' = call.
Proof.
  unfold emit. intros H.
  unfold bind at 1 in H. unfold lift at 1 in H.
  destruct (deinterleave_operands (Pattern.flags p) 0 operands) as [m1|] eqn:E1;
    [|discriminate].
  unfold bind at 1 in H. unfold lift at 1 in H.
  destruct (swap_ops01 (Pattern.flags p) m1) as [m2|] eqn:E2; [|discriminate].
  unfold bind at 1 in H. unfold lift at 1 in H.
  destruct (swap_ops12 (Pattern.flags p) m2) as [m3|] eqn:E3; [|discriminate].
  unfold bind at 1 in H.
  destruct (mapM op_mutator m3 s) as [[m4 s4]|] eqn:E4; [|discriminate].
  exists m4. split.
  - apply mapM_length in E4. apply swap_ops12_length in E3.
    apply swap_ops01_length in E2. apply deinterleave_operands_length in E1.
    congruence.
  - cbv zeta. destruct (has_flag (Pattern.flags p) Pattern.InterleaveResult).
    + unfold lift in H. destruct (native_interleave _); congruence.
    + unfold ret in H. congruence.
Qed.
End EmitFacts.

Lemma emit_halts_only_on_assertions_witness :
  let p := Pattern.make "halide.hexagon.trunclo.vh" wild_i16x Pattern.DeinterleaveOp0 in
  let scalar := Variable_ (Int 16 1) "s" in
  exists k m,
    nth_error [scalar] k = Some m /\
    has_flag (Pattern.flags p) (Z.shiftl Pattern.DeinterleaveOp0 (Z.of_nat k)) = true /\
    (is_vector (type_of m) = false \/ native_deinterleave m = Fail internal_error).
Proof.
  intros p scalar.
  destruct (@emit_halts_only_on_assertions unit scalar p (fun e => ret e) [scalar] tt
              internal_error eq_refl)
    as [[_ H]|[[_ [H _]]|[[_ [H _]]|[[m [s0 H]]|[_ [H _]]]]]];
    [exact H | discriminate H | discriminate H | discriminate H | discriminate H].
Defined.

(** X17.  With a matcher that binds one operand per wildcard, the
    intrinsic call [apply_patterns] emits for an accepted pattern has
    one argument per wildcard of the pattern's template; it has the
    type of the matched expression, and sits under an interleave
    marker exactly when the pattern asks for one. *)
Theorem intrinsic_call_arity (C : Collaborators) (S : Type) (x x' : Expr) (p : Pattern)
    (op_mutator : Expr -> M S Expr) (operands : list Expr) (s s' : S) :
  (forall tmpl e ms, expr_match tmpl e = Some ms ->
                     List.length ms = List.length (wildcards tmpl)) ->
  accepted_operands p x = Some operands ->
  emit x p op_mutator operands s = Ok (x', s') ->
  exists args,
    List.length args = List.length (wildcards (Pattern.pattern p)) /\
    let call := Call (type_of x) (Pattern.intrin p) args PureExtern in
    if has_flag (Pattern.flags p) Pattern.InterleaveResult
    then native_interleave call = Ok x'
    else x' = call.
Proof.
  intros Hm Ha He.
  destruct (emitted_call_arity _ _ _ _ _ He) as (args & L & Hs).
  exists args. split; [|exact Hs].
  unfold accepted_operands in Ha.
  destruct (expr_match (Pattern.pattern p) x) as [ms|] eqn:Em; [|discriminate].
  destruct (narrow_operands (Pattern.flags p) ms) as [ms1|] eqn:En; [|discriminate].
  apply exact_log2_operands_length in Ha.
  apply narrow_operands_length in En.
  apply Hm in Em. congruence.
Qed.

Lemma intrinsic_call_arity_witness :
  let a := Variable_ Examples.i32x64 "a" in
  let b := Variable_ Examples.i32x64 "b" in
  let p := Pattern.make "halide.hexagon.add_shl.vw.vw.w"
             (binop OpAdd wild_i32x (binop OpMul (bc wild_i32) wild_i32x))
             (Z.lor Pattern.ExactLog2Op1 Pattern.SwapOps12) in
  exists args,
    List.length args = 3%nat /\
    Call Examples.i32x64 "halide.hexagon.add_shl.vw.vw.w" [a; b; IntImm (Int 32 1) 3]
         PureExtern =
    Call Examples.i32x64 "halide.hexagon.add_shl.vw.vw.w" args PureExtern.
Proof.
  intros a b p.
  exact (@intrinsic_call_arity Model.collaborators unit
           (Add a (Mul (Examples.k 8) b))
           (Call Examples.i32x64 "halide.hexagon.add_shl.vw.vw.w"
                 [a; b; IntImm (Int 32 1) 3] PureExtern)
           p (fun e => ret e) [a; IntImm (Int 32 1) 3; b] tt tt
           expr_match_length eq_refl eq_refl).
Defined.

(* ================================================================= *)
(** ** Further properties: types and hoisting                         *)
(* ================================================================= *)

Section KeepsTypes.
Context {C : Collaborators}.
Import EliminateInterleaves.

Lemma HType_eqb_refl (t : HType) : HType_eqb t t = true.
Proof. apply HType_eqb_eq. reflexivity. Qed.

Lemma remove_interleave_kept (vars : Scope bool) (x y : Expr) :
  markers_typed x = true -> remove_interleave vars x = Ok y -> kept x y.
Proof.
  unfold remove_interleave, kept. intros Hx H.
  destruct (is_native_interleave x) eqn:Hi.
  - destruct x as [| | | | | | | | | |t n [|a r] ct|]; try discriminate.
    inversion H; subst y. clear H.
    change (markers_typed (Call t n (a :: r) ct) = true) with
      ((if is_native_interleave (Call t n (a :: r) ct) ||
           is_native_deinterleave (Call t n (a :: r) ct)
        then HType_eqb t (type_of a) else true) &&
       (markers_typed a && forallb markers_typed r) = true) in Hx.
    rewrite Hi in Hx. simpl in Hx.
    apply andb_true_iff in Hx as [Ht Hx]. apply andb_true_iff in Hx as [Ha _].
    apply HType_eqb_eq in Ht. simpl. auto.
  - destruct (is_scalar (type_of x) || is_broadcast x).
    + inversion H; subst; auto.
    + destruct x; try discriminate.
      destruct (contains vars (deinterleaved name)); [|discriminate].
      inversion H; subst; simpl; auto.
Qed.

Lemma native_interleave_kept (x ix : Expr) :
  markers_typed x = true -> native_interleave x = Ok ix -> kept x ix.
Proof.
  intros Hx H. apply native_interleave_inv in H as (n & -> & Hn).
  split; [reflexivity|].
  change (markers_typed (Call (type_of x) n [x] PureExtern)) with
    ((if is_native_interleave (Call (type_of x) n [x] PureExtern) ||
         is_native_deinterleave (Call (type_of x) n [x] PureExtern)
      then HType_eqb (type_of x) (type_of x) else true) &&
     (markers_typed x && true)).
  rewrite HType_eqb_refl, Hx. destruct (_ || _); reflexivity.
Qed.

Lemma remove_interleaves_kept (vars : Scope bool) (l l' : list Expr) :
  forallb markers_typed l = true -> remove_interleaves vars l = Ok l' -> all_kept l l'.
Proof.
  revert l'. induction l as [|x r IH]; simpl; intros l' Hl H.
  - inversion H; subst. split; reflexivity.
  - apply andb_true_iff in Hl as [Hx Hr].
    destruct (remove_interleave vars x) as [y|] eqn:Ey; [|discriminate].
    destruct (remove_interleaves vars r) as [r'|] eqn:Er; [|discriminate].
    inversion H; subst l'. clear H.
    assert (Ky := Ey). apply remove_interleave_kept in Ky as [Ty My]; [|assumption].
    destruct (IH _ Hr eq_refl) as [Tr Mr].
    split; simpl; [congruence | rewrite My, Mr; reflexivity].
Qed.

Lemma all_kept_trans (l l' l'' : list Expr) :
  all_kept l l' -> all_kept l' l'' -> all_kept l l''.
Proof. intros [T1 _] [T2 M2]. split; [congruence | assumption]. Qed.

(** A call keeps the typing of its marker when its operands keep
    their types. *)
Lemma call_kept (t : HType) (n : string) (ct : CallType) (args args' : list Expr) :
  markers_typed (Call t n args ct) = true ->
  all_kept args args' ->
  kept (Call t n args ct) (Call t n args' ct).
Proof.
  intros Hm [T M]. split; [reflexivity|].
  change (markers_typed (Call t n args ct) = true) with
    ((if is_native_interleave (Call t n args ct) || is_native_deinterleave (Call t n args ct)
      then match args with x :: _ => HType_eqb t (type_of x) | [] => true end
      else true) && forallb markers_typed args = true) in Hm.
  change (markers_typed (Call t n args' ct)) with
    ((if is_native_interleave (Call t n args' ct) || is_native_deinterleave (Call t n args' ct)
      then match args' with x :: _ => HType_eqb t (type_of x) | [] => true end
      else true) && forallb markers_typed args').
  rewrite M, andb_true_r. apply andb_true_iff in Hm as [Hm _].
  destruct args' as [|a' r']; [destruct (_ || _); reflexivity|].
  destruct args as [|a r]; [discriminate T|].
  simpl in T. injection T as Ta Tr.
  assert (L : List.length r' = List.length r)
    by (rewrite <- (length_map type_of r'), <- (length_map type_of r); congruence).
  assert (E : forall p, is_native_interleave_op (Call t n (a' :: r') ct) p =
                        is_native_interleave_op (Call t n (a :: r) ct) p).
  { intros p. unfold is_native_interleave_op.
    destruct r' as [|? ?], r as [|? ?]; try discriminate L; reflexivity. }
  unfold is_native_interleave, is_native_deinterleave in *.
  rewrite !E, Ta. exact Hm.
Qed.

Lemma find_alt_kept (name : string) (alt : DeinterleavingAlternative) (t : HType)
    (ct : CallType) (args : list Expr) :
  find_alt name deinterleaving_alts = Some alt ->
  forallb markers_typed args = true ->
  markers_typed (Call t (alt_name alt) (args ++ extra_args alt) ct) = true.
Proof.
  intros H Ha.
  assert (A : (is_native_interleave (Call t (alt_name alt) (args ++ extra_args alt) ct) ||
               is_native_deinterleave (Call t (alt_name alt) (args ++ extra_args alt) ct)
               = false) /\ forallb markers_typed (extra_args alt) = true).
  { unfold deinterleaving_alts in H. cbn [find_alt] in H.
    unfold is_native_interleave, is_native_deinterleave, is_native_interleave_op.
    repeat match type of H with
           | context [String.eqb ?a name] =>
               destruct (String.eqb a name);
               [inversion H; subst alt; cbn [alt_name extra_args];
                split; [destruct (args ++ _) as [|? [|? ?]]; reflexivity | reflexivity]|]
           end.
    discriminate H. }
  destruct A as [A1 A2].
  change (markers_typed (Call t (alt_name alt) (args ++ extra_args alt) ct)) with
    ((if is_native_interleave (Call t (alt_name alt) (args ++ extra_args alt) ct) ||
         is_native_deinterleave (Call t (alt_name alt) (args ++ extra_args alt) ct)
      then match args ++ extra_args alt with
           | x :: _ => HType_eqb t (type_of x) | [] => true end
      else true) && forallb markers_typed (args ++ extra_args alt)).
  rewrite A1, forallb_app, Ha, A2. reflexivity.
Qed.

Lemma mutate_args_kept (f : Expr -> M (Scope bool) (Expr * bool)) (args : list Expr) :
  Forall (fun a => forall s r s', markers_typed a = true ->
                                  f a s = Ok (r, s') -> kept a (fst r)) args ->
  forall s r s',
    forallb markers_typed args = true ->
    IRMutator.mutate_args f args s = Ok (r, s') -> all_kept args (fst r).
Proof.
  induction 1 as [|a rest Ha _ IH]; simpl; intros s r s' Hm H.
  - inversion H; subst. split; reflexivity.
  - apply andb_true_iff in Hm as [Hma Hmr].
    unfold bind, ret in H.
    destruct (f a s) as [[a' s1]|] eqn:Ea; [|discriminate].
    destruct (IRMutator.mutate_args f rest s1) as [[r' s2]|] eqn:Er; [|discriminate].
    inversion H; subst. clear H. simpl.
    destruct (Ha _ _ _ Hma Ea) as [Ta Ma].
    destruct (IH _ _ _ Hmr Er) as [Tr Mr].
    split; simpl; [congruence | rewrite Ma, Mr; reflexivity].
Qed.

Lemma visit_let_kept (f : Expr -> M (Scope bool) (Expr * bool)) (name : string)
    (value body : Expr) :
  (forall s r s', markers_typed value = true -> f value s = Ok (r, s') -> kept value (fst r)) ->
  (forall s r s', markers_typed body = true -> f body s = Ok (r, s') -> kept body (fst r)) ->
  forall s r s',
    markers_typed (LetE name value body) = true ->
    visit_let f f expr_uses_var LetE (LetE name value body) name value body s = Ok (r, s') ->
    kept (LetE name value body) (fst r).
Proof.
  intros Hv Hb s r s' Hm H. simpl in Hm. apply andb_true_iff in Hm as [Hmv Hmb].
  unfold visit_let in H. unfold bind at 1 in H.
  destruct (f value s) as [[v' s1]|] eqn:Ev; [|discriminate].
  destruct (Hv _ _ _ Hmv Ev) as [Tv Mv].
  unfold bind at 1 in H.
  match type of H with
  | match ?c s1 with _ => _ end = _ => destruct (c s1) as [[b' s2]|] eqn:Eb; [|discriminate]
  end.
  assert (Kb : kept body (fst b')).
  { destruct (is_native_interleave (fst v')).
    - unfold bind, modify, ret in Eb.
      destruct (f body (push (deinterleaved name) true s1)) as [[b0 s3]|] eqn:E0;
        [|discriminate].
      inversion Eb; subst. eapply Hb; eassumption.
    - eapply Hb; eassumption. }
  destruct Kb as [Tb Mb].
  destruct (snd v' && snd b').
  { inversion H; subst. split; simpl; [reflexivity | rewrite Hmv, Hmb; reflexivity]. }
  destruct (snd b').
  { inversion H; subst. split; simpl; [assumption | rewrite Mv, Mb; reflexivity]. }
  unfold bind at 1, get at 1 in H.
  destruct (expr_uses_var (fst b') (deinterleaved name) && expr_uses_var (fst b') name).
  { unfold bind at 1, lift at 1 in H.
    destruct (remove_interleave s2 (fst v')) as [d|] eqn:Ed; [|discriminate].
    assert (Kd := Ed). apply remove_interleave_kept in Kd as [Td Md]; [|assumption].
    unfold bind at 1, lift at 1 in H.
    destruct (native_interleave (Variable_ (type_of d) (deinterleaved name))) as [m|] eqn:Em;
      [|discriminate].
    assert (Kv : markers_typed (Variable_ (type_of d) (deinterleaved name)) = true)
      by reflexivity.
    assert (Km := Em). apply native_interleave_kept in Km as [_ Mm]; [|assumption].
    inversion H; subst. split; simpl; [assumption | rewrite Md, Mm, Mb; reflexivity]. }
  destruct (expr_uses_var (fst b') (deinterleaved name)).
  { unfold bind at 1, lift at 1 in H.
    destruct (remove_interleave s2 (fst v')) as [d|] eqn:Ed; [|discriminate].
    assert (Kd := Ed). apply remove_interleave_kept in Kd as [Td Md]; [|assumption].
    inversion H; subst. split; simpl; [assumption | rewrite Md, Mb; reflexivity]. }
  destruct (expr_uses_var (fst b') name).
  { inversion H; subst. split; simpl; [assumption | rewrite Mv, Mb; reflexivity]. }
  destruct (negb (expr_uses_var body name)); [|discriminate].
  inversion H; subst. split; simpl; assumption.
Qed.

Lemma kept_refl (e : Expr) : markers_typed e = true -> kept e e.
Proof. intros H. split; [reflexivity | assumption]. Qed.

Lemma binary_type (o : BinOp) (a b a' b' : Expr) :
  type_of a' = type_of a -> type_of (Binary o a' b') = type_of (Binary o a b).
Proof. intros H. simpl. rewrite H. reflexivity. Qed.

Lemma visit_binary_kept (f : Expr -> M (Scope bool) (Expr * bool)) (o : BinOp)
    (a b : Expr) :
  keeps f a -> keeps f b ->
  forall s r s',
    markers_typed (Binary o a b) = true ->
    visit_binary f o a b s = Ok (r, s') -> kept (Binary o a b) (fst r).
Proof.
  intros Ha Hb s r s' Hm H. assert (Hm' := Hm). simpl in Hm'.
  apply andb_true_iff in Hm' as [Hma Hmb].
  unfold visit_binary in H. unfold bind at 1 in H.
  destruct (f a s) as [[a' s1]|] eqn:Ea; [|discriminate].
  destruct (Ha _ _ _ Hma Ea) as [Ta Ma].
  unfold bind at 1 in H.
  destruct (f b s1) as [[b' s2]|] eqn:Eb; [|discriminate].
  destruct (Hb _ _ _ Hmb Eb) as [Tb Mb].
  unfold bind at 1, get at 1 in H. cbn [fst snd] in H.
  destruct (yields_removable_interleave s2 [fst a'; fst b']).
  - unfold bind at 1, lift at 1 in H.
    destruct (remove_interleave s2 (fst a')) as [a2|] eqn:Ea2; [|discriminate].
    assert (Ka := Ea2). apply remove_interleave_kept in Ka as [Ta2 Ma2]; [|assumption].
    unfold bind at 1, lift at 1 in H.
    destruct (remove_interleave s2 (fst b')) as [b2|] eqn:Eb2; [|discriminate].
    assert (Kb := Eb2). apply remove_interleave_kept in Kb as [Tb2 Mb2]; [|assumption].
    unfold bind at 1, lift at 1 in H.
    destruct (native_interleave (Binary o a2 b2)) as [m|] eqn:Em; [|discriminate].
    assert (Km := Em). apply native_interleave_kept in Km as [Tm Mm];
      [|simpl; rewrite Ma2, Mb2; reflexivity].
    inversion H; subst. split; [|assumption].
    cbn [fst]. rewrite Tm. apply binary_type. congruence.
  - destruct (negb (snd a') || negb (snd b')); inversion H; subst; cbn [fst].
    + split; [apply binary_type; assumption | simpl; rewrite Ma, Mb; reflexivity].
    + apply kept_refl; assumption.
Qed.

Lemma visit_Not_kept (f : Expr -> M (Scope bool) (Expr * bool)) (a : Expr) :
  keeps f a ->
  forall s r s',
    markers_typed (Not a) = true ->
    visit_Not f a s = Ok (r, s') -> kept (Not a) (fst r).
Proof.
  intros Ha s r s' Hm H. assert (Hma := Hm). simpl in Hma.
  unfold visit_Not in H. unfold bind at 1 in H.
  destruct (f a s) as [[a' s1]|] eqn:Ea; [|discriminate].
  destruct (Ha _ _ _ Hma Ea) as [Ta Ma].
  unfold bind at 1, get at 1 in H. cbn [fst snd] in H.
  destruct (is_native_interleave (fst a')).
  - unfold bind at 1, lift at 1 in H.
    destruct (remove_interleave s1 (fst a')) as [a2|] eqn:Ea2; [|discriminate].
    assert (Ka := Ea2). apply remove_interleave_kept in Ka as [Ta2 Ma2]; [|assumption].
    unfold bind at 1, lift at 1 in H.
    destruct (native_interleave (Not a2)) as [m|] eqn:Em; [|discriminate].
    assert (Km := Em). apply native_interleave_kept in Km as [Tm Mm]; [|assumption].
    inversion H; subst. split; [|assumption].
    cbn [fst]. rewrite Tm. simpl. congruence.
  - destruct (negb (snd a')); inversion H; subst; cbn [fst].
    + split; [simpl; assumption | simpl; assumption].
    + apply kept_refl; assumption.
Qed.

Lemma visit_Select_kept (f : Expr -> M (Scope bool) (Expr * bool)) (c t e : Expr) :
  keeps f c -> keeps f t -> keeps f e ->
  forall s r s',
    markers_typed (Select c t e) = true ->
    visit_Select f c t e s = Ok (r, s') -> kept (Select c t e) (fst r).
Proof.
  intros Hc Ht He s r s' Hm H. assert (Hm' := Hm). simpl in Hm'.
  apply andb_true_iff in Hm' as [Hm' Hme]. apply andb_true_iff in Hm' as [Hmc Hmt].
  unfold visit_Select in H. unfold bind at 1 in H.
  destruct (f c s) as [[c' s1]|] eqn:Ec; [|discriminate].
  destruct (Hc _ _ _ Hmc Ec) as [Tc Mc].
  unfold bind at 1 in H.
  destruct (f t s1) as [[t' s2]|] eqn:Et; [|discriminate].
  destruct (Ht _ _ _ Hmt Et) as [Tt Mt].
  unfold bind at 1 in H.
  destruct (f e s2) as [[e' s3]|] eqn:Ee; [|discriminate].
  destruct (He _ _ _ Hme Ee) as [Te Me].
  unfold bind at 1, get at 1 in H. cbn [fst snd] in H.
  destruct (yields_removable_interleave s3 [fst c'; fst t'; fst e']).
  - unfold bind at 1, lift at 1 in H.
    destruct (remove_interleave s3 (fst c')) as [c2|] eqn:Ec2; [|discriminate].
    assert (Kc := Ec2). apply remove_interleave_kept in Kc as [Tc2 Mc2]; [|assumption].
    unfold bind at 1, lift at 1 in H.
    destruct (remove_interleave s3 (fst t')) as [t2|] eqn:Et2; [|discriminate].
    assert (Kt := Et2). apply remove_interleave_kept in Kt as [Tt2 Mt2]; [|assumption].
    unfold bind at 1, lift at 1 in H.
    destruct (remove_interleave s3 (fst e')) as [e2|] eqn:Ee2; [|discriminate].
    assert (Ke := Ee2). apply remove_interleave_kept in Ke as [Te2 Me2]; [|assumption].
    unfold bind at 1, lift at 1 in H.
    destruct (native_interleave (Select c2 t2 e2)) as [m|] eqn:Em; [|discriminate].
    assert (Km := Em). apply native_interleave_kept in Km as [Tm Mm];
      [|simpl; rewrite Mc2, Mt2, Me2; reflexivity].
    inversion H; subst. split; [|assumption].
    cbn [fst]. rewrite Tm. simpl. congruence.
  - destruct (negb (snd c') || negb (snd t') || negb (snd e')); inversion H; subst; cbn [fst].
    + split; [simpl; assumption | simpl; rewrite Mc, Mt, Me; reflexivity].
    + apply kept_refl; assumption.
Qed.

Lemma visit_Cast_kept (f : Expr -> M (Scope bool) (Expr * bool)) (t : HType) (v : Expr) :
  keeps f v ->
  forall s r s',
    markers_typed (Cast t v) = true ->
    visit_Cast f t v s = Ok (r, s') -> kept (Cast t v) (fst r).
Proof.
  intros Hv s r s' Hm H. assert (Hmv := Hm). simpl in Hmv.
  unfold visit_Cast in H.
  destruct (bits t =? bits (type_of v)).
  - unfold bind at 1 in H.
    destruct (f v s) as [[v' s1]|] eqn:Ev; [|discriminate].
    destruct (Hv _ _ _ Hmv Ev) as [Tv Mv].
    unfold bind at 1, get at 1 in H. cbn [fst snd] in H.
    destruct (is_native_interleave (fst v')).
    + unfold bind at 1, lift at 1 in H.
      destruct (remove_interleave s1 (fst v')) as [v2|] eqn:Ev2; [|discriminate].
      assert (Kv := Ev2). apply remove_interleave_kept in Kv as [Tv2 Mv2]; [|assumption].
      unfold bind at 1, lift at 1 in H.
      destruct (native_interleave (Cast t v2)) as [m|] eqn:Em; [|discriminate].
      assert (Km := Em). apply native_interleave_kept in Km as [Tm Mm]; [|assumption].
      inversion H; subst. split; assumption.
    + destruct (negb (snd v')); inversion H; subst; cbn [fst].
      * split; [reflexivity | assumption].
      * apply kept_refl; assumption.
  - unfold IRMutator.visit in H. unfold bind at 1 in H.
    destruct (f v s) as [[v' s1]|] eqn:Ev; [|discriminate].
    destruct (Hv _ _ _ Hmv Ev) as [Tv Mv].
    destruct (snd v'); inversion H; subst; cbn [fst].
    + apply kept_refl; assumption.
    + split; [reflexivity | assumption].
Qed.

Lemma markers_typed_args (t : HType) (n : string) (args : list Expr) (ct : CallType) :
  markers_typed (Call t n args ct) = true -> forallb markers_typed args = true.
Proof.
  intros H.
  change (markers_typed (Call t n args ct) = true) with
    ((if is_native_interleave (Call t n args ct) || is_native_deinterleave (Call t n args ct)
      then match args with x :: _ => HType_eqb t (type_of x) | [] => true end
      else true) && forallb markers_typed args = true) in H.
  apply andb_true_iff in H as [_ H]. exact H.
Qed.

Lemma deinterleave_operand_type (t : HType) (n : string) (args : list Expr) (ct : CallType) :
  markers_typed (Call t n args ct) = true ->
  is_native_deinterleave (Call t n args ct) = true ->
  exists a, args = [a] /\ type_of a = t.
Proof.
  intros Hm Hd.
  change (markers_typed (Call t n args ct) = true) with
    ((if is_native_interleave (Call t n args ct) || is_native_deinterleave (Call t n args ct)
      then match args with x :: _ => HType_eqb t (type_of x) | [] => true end
      else true) && forallb markers_typed args = true) in Hm.
  rewrite Hd, orb_true_r in Hm. apply andb_true_iff in Hm as [Hm _].
  destruct args as [|a [|b r]]; try discriminate Hd.
  apply HType_eqb_eq in Hm. eauto.
Qed.

Lemma visit_Call_kept (f : Expr -> M (Scope bool) (Expr * bool)) (t : HType)
    (n : string) (args : list Expr) (ct : CallType) :
  Forall (keeps f) args ->
  forall s r s',
    markers_typed (Call t n args ct) = true ->
    visit_Call f t n args ct s = Ok (r, s') -> kept (Call t n args ct) (fst r).
Proof.
  intros Ha s r s' Hm H.
  assert (Hma := markers_typed_args _ _ _ _ Hm).
  unfold visit_Call in H. unfold bind at 1 in H.
  destruct (IRMutator.mutate_args f args s) as [[args' s1]|] eqn:Ea; [|discriminate].
  assert (Ka : all_kept args (fst args')).
  { eapply mutate_args_kept; [exact Ha | exact Hma | exact Ea]. }
  unfold bind at 1, get at 1 in H. cbn [fst snd] in H.
  destruct (is_native_deinterleave (Call t n args ct)) eqn:Hd.
  - destruct (deinterleave_operand_type _ _ _ _ Hm Hd) as (a & -> & Ta).
    destruct Ka as [Tk Mk].
    destruct (fst args') as [|a' [|? ?]]; try discriminate Tk.
    simpl in Tk. injection Tk as Tk. simpl in Mk. rewrite andb_true_r in Mk.
    cbn [andb] in H.
    destruct (yields_interleave s1 a').
    + unfold bind at 1, lift at 1 in H.
      destruct (remove_interleave s1 a') as [y|] eqn:Ey; [|discriminate].
      assert (Ky := Ey). apply remove_interleave_kept in Ky as [Ty My]; [|assumption].
      inversion H; subst. split; [|assumption]. cbn [fst]. simpl. congruence.
    + assert (K : kept (Call t n [a] ct) (Call t n [a'] ct)).
      { apply call_kept; [assumption|]. split; simpl; [congruence | rewrite Mk; reflexivity]. }
      destruct (is_interleavable t n [a] && yields_removable_interleave s1 [a']).
      * unfold bind at 1, lift at 1 in H.
        destruct (remove_interleaves s1 [a']) as [l|] eqn:El; [|discriminate].
        assert (Kl := El). apply remove_interleaves_kept in Kl;
          [|simpl; rewrite Mk; reflexivity].
        unfold bind at 1, lift at 1 in H.
        destruct (native_interleave (Call t n l ct)) as [m|] eqn:Em; [|discriminate].
        assert (K2 : kept (Call t n [a'] ct) (Call t n l ct))
          by (apply call_kept; [apply K | assumption]).
        assert (Km := Em). apply native_interleave_kept in Km as [Tm Mm]; [|apply K2].
        inversion H; subst. split; assumption.
      * destruct (find_alt n deinterleaving_alts) as [alt|] eqn:Ealt.
        -- destruct (yields_removable_interleave s1 [a']).
           ++ unfold bind at 1, lift at 1 in H.
              destruct (remove_interleaves s1 [a']) as [l|] eqn:El; [|discriminate].
              assert (Kl := El). apply remove_interleaves_kept in Kl as [_ Ml];
                [|simpl; rewrite Mk; reflexivity].
              inversion H; subst. split; [reflexivity|].
              cbn [fst]. eapply find_alt_kept; [exact Ealt | assumption].
           ++ destruct (negb (snd args')); inversion H; subst; cbn [fst];
                [exact K | apply kept_refl; assumption].
        -- destruct (negb (snd args')); inversion H; subst; cbn [fst];
             [exact K | apply kept_refl; assumption].
  - cbn [andb] in H.
    assert (K : kept (Call t n args ct) (Call t n (fst args') ct))
      by (apply call_kept; assumption).
    destruct (is_interleavable t n args && yields_removable_interleave s1 (fst args')).
    + unfold bind at 1, lift at 1 in H.
      destruct (remove_interleaves s1 (fst args')) as [l|] eqn:El; [|discriminate].
      assert (Kl := El). apply remove_interleaves_kept in Kl; [|apply Ka].
      unfold bind at 1, lift at 1 in H.
      destruct (native_interleave (Call t n l ct)) as [m|] eqn:Em; [|discriminate].
      assert (K2 : kept (Call t n (fst args') ct) (Call t n l ct))
        by (apply call_kept; [apply K | assumption]).
      assert (Km := Em). apply native_interleave_kept in Km as [Tm Mm]; [|apply K2].
      inversion H; subst. split; assumption.
    + destruct (find_alt n deinterleaving_alts) as [alt|] eqn:Ealt.
      * destruct (yields_removable_interleave s1 (fst args')).
        -- unfold bind at 1, lift at 1 in H.
           destruct (remove_interleaves s1 (fst args')) as [l|] eqn:El; [|discriminate].
           assert (Kl := El). apply remove_interleaves_kept in Kl as [_ Ml]; [|apply Ka].
           inversion H; subst. split; [reflexivity|].
           cbn [fst]. eapply find_alt_kept; [exact Ealt | assumption].
        -- destruct (negb (snd args')); inversion H; subst; cbn [fst];
             [exact K | apply kept_refl; assumption].
      * destruct (negb (snd args')); inversion H; subst; cbn [fst];
          [exact K | apply kept_refl; assumption].
Qed.

Lemma mutate_kept (e : Expr) : keeps mutate e.
Proof.
  induction e using Expr_ind'; unfold keeps; rewrite mutate_unfold;
    cbn [visit]; intros s r s' Hm Hr.
  - inversion Hr; subst. apply kept_refl; assumption.
  - inversion Hr; subst. apply kept_refl; assumption.
  - eapply visit_Cast_kept; eassumption.
  - inversion Hr; subst. apply kept_refl; assumption.
  - eapply visit_binary_kept; eassumption.
  - eapply visit_Not_kept; eassumption.
  - eapply visit_Select_kept; eassumption.
  - (* Load *)
    unfold IRMutator.visit in Hr. unfold bind at 1 in Hr.
    assert (Hme := Hm). simpl in Hme.
    destruct (mutate e s) as [[v' s1]|] eqn:Ev; [|discriminate].
    destruct (IHe _ _ _ Hme Ev) as [Tv Mv].
    destruct (snd v'); inversion Hr; subst; cbn [fst].
    + apply kept_refl; assumption.
    + split; [reflexivity | assumption].
  - (* Ramp *)
    unfold IRMutator.visit in Hr. unfold bind at 1 in Hr.
    assert (Hm' := Hm). simpl in Hm'. apply andb_true_iff in Hm' as [Hm1 Hm2].
    destruct (mutate e1 s) as [[a' s1]|] eqn:Ea; [|discriminate].
    destruct (IHe1 _ _ _ Hm1 Ea) as [Ta Ma].
    unfold bind at 1 in Hr.
    destruct (mutate e2 s1) as [[b' s2]|] eqn:Eb; [|discriminate].
    destruct (IHe2 _ _ _ Hm2 Eb) as [Tb Mb].
    destruct (snd a' && snd b'); inversion Hr; subst; cbn [fst].
    + apply kept_refl; assumption.
    + split; [simpl; congruence | simpl; rewrite Ma, Mb; reflexivity].
  - (* Broadcast *)
    unfold IRMutator.visit in Hr. unfold bind at 1 in Hr.
    assert (Hme := Hm). simpl in Hme.
    destruct (mutate e s) as [[v' s1]|] eqn:Ev; [|discriminate].
    destruct (IHe _ _ _ Hme Ev) as [Tv Mv].
    destruct (snd v'); inversion Hr; subst; cbn [fst].
    + apply kept_refl; assumption.
    + split; [simpl; congruence | assumption].
  - eapply visit_Call_kept; eassumption.
  - eapply visit_let_kept; eassumption.
Qed.

End KeepsTypes.

(** X18.  The interleave eliminator never changes the type of an
    expression: when every marker of a tree has the type of its
    operand, the tree the eliminator returns has the type of the tree
    it was given, and its markers again have the type of their
    operands. *)
Theorem eliminator_keeps_types (C : Collaborators) (e e' : Expr) (same : bool)
    (vars vars' : Scope bool) :
  markers_typed e = true ->
  EliminateInterleaves.mutate e vars = Ok ((e', same), vars') ->
  type_of e' = type_of e /\ markers_typed e' = true.
Proof.
  intros Hm H. assert (K := H). apply mutate_kept in K; [|exact Hm]. exact K.
Qed.

Lemma eliminator_keeps_types_witness :
  type_of (LetE "x.deinterleaved" Examples.v
             (Add Examples.x_deinterleaved Examples.x_deinterleaved)) =
    Examples.i16x64.
Proof.
  exact (proj1 (@eliminator_keeps_types Model.collaborators
                  (LetE "x" (Examples.interleave_vh Examples.v)
                        (Add (Examples.deinterleave_vh Examples.x)
                             (Examples.deinterleave_vh Examples.x)))
                  (LetE "x.deinterleaved" Examples.v
                        (Add Examples.x_deinterleaved Examples.x_deinterleaved))
                  false [] [] eq_refl eq_refl)).
Defined.

Section Hoisting.
Context {C : Collaborators}.
Import EliminateInterleaves.

Lemma operand_yields (x ix : Expr) (vars : Scope bool) :
  marker_free x = true ->
  interleaved_or_uniform x ix ->
  mutate ix vars = Ok ((ix, true), vars) /\
  yields_interleave vars ix = true /\
  remove_interleave vars ix = Ok x.
Proof.
  intros Hm [H|[-> H]].
  - apply native_interleave_inv in H as (n & -> & Hn).
    rewrite mutate_interleave by exact Hn. rewrite marker_free_unchanged by assumption.
    unfold yields_interleave, remove_interleave.
    destruct Hn as [<-|[<-|[<-|[]]]]; repeat split; reflexivity.
  - rewrite marker_free_unchanged by assumption.
    unfold yields_interleave, remove_interleave.
    rewrite marker_free_not_interleave by assumption. rewrite H. repeat split; reflexivity.
Qed.

Lemma interleave_of_binary (o : BinOp) (x y ix : Expr) :
  is_boolean_op o = false ->
  native_interleave x = Ok ix ->
  exists n, native_interleave (Binary o x y) = Ok (Call (type_of x) n [Binary o x y] PureExtern) /\
            In n ["halide.hexagon.interleave.vb"; "halide.hexagon.interleave.vh";
                  "halide.hexagon.interleave.vw"].
Proof.
  intros Ho H. unfold native_interleave in *.
  assert (T : type_of (Binary o x y) = type_of x) by (destruct o; try discriminate Ho; reflexivity).
  rewrite T.
  destruct (bits (type_of x) =? 8); [eexists; split; [reflexivity | simpl; auto]|].
  destruct (bits (type_of x) =? 16); [eexists; split; [reflexivity | simpl; auto]|].
  destruct (bits (type_of x) =? 32); [eexists; split; [reflexivity | simpl; auto]|].
  discriminate H.
Qed.

Lemma hoisted (o : BinOp) (x y ix iy : Expr) (vars : Scope bool) :
  is_boolean_op o = false ->
  marker_free x = true -> marker_free y = true ->
  native_interleave x = Ok ix ->
  interleaved_or_uniform y iy ->
  exists m,
    native_interleave (Binary o x y) = Ok m /\
    is_native_interleave m = true /\
    mutate (Binary o ix iy) vars = Ok ((m, false), vars) /\
    remove_interleave vars m = Ok (Binary o x y).
Proof.
  intros Ho Hx Hy Hix Hiy.
  destruct (@interleave_of_binary o x y ix Ho Hix) as (n & Hm & Hn).
  destruct (@operand_yields x ix vars Hx (or_introl Hix)) as (Mx & Yx & Rx).
  destruct (@operand_yields y iy vars Hy Hiy) as (My & Yy & Ry).
  assert (Ix : is_native_interleave ix = true).
  { apply native_interleave_inv in Hix as (k & -> & Hk).
    destruct Hk as [<-|[<-|[<-|[]]]]; reflexivity. }
  exists (Call (type_of x) n [Binary o x y] PureExtern).
  split; [exact Hm|]. split; [destruct Hn as [<-|[<-|[<-|[]]]]; reflexivity|].
  split.
  - rewrite mutate_unfold. cbn [visit]. unfold visit_binary.
    unfold bind at 1. rewrite Mx. unfold bind at 1. rewrite My.
    unfold bind at 1, get at 1. cbn [fst snd].
    unfold yields_removable_interleave.
    rewrite yields_removable_interleave_from_spec. cbn [existsb forallb].
    rewrite Ix, Yx, Yy. cbn [orb andb].
    unfold bind at 1, lift at 1. rewrite Rx.
    unfold bind at 1, lift at 1. rewrite Ry.
    unfold bind at 1, lift at 1. rewrite Hm. reflexivity.
  - unfold remove_interleave.
    destruct Hn as [<-|[<-|[<-|[]]]]; reflexivity.
Qed.

End Hoisting.

(** X19.  An interleave passes through a pointwise binary operation
    and cancels against a deinterleave above it: with [x] and [y]
    free of markers, [op(interleave x, iy)], where [iy] is the
    interleave of [y] or [y] itself when it is a scalar or a
    broadcast, becomes [interleave (op(x, y))], and its deinterleave
    becomes [op(x, y)], for every arithmetic [op]. *)
Theorem interleave_hoists_and_cancels (C : Collaborators) (o : BinOp)
    (x y ix iy : Expr) (vars : Scope bool) :
  is_boolean_op o = false ->
  marker_free x = true -> marker_free y = true ->
  native_interleave x = Ok ix ->
  interleaved_or_uniform y iy ->
  exists m,
    native_interleave (Binary o x y) = Ok m /\
    EliminateInterleaves.mutate (Binary o ix iy) vars = Ok ((m, false), vars) /\
    forall d, native_deinterleave (Binary o ix iy) = Ok d ->
              EliminateInterleaves.mutate d vars = Ok ((Binary o x y, false), vars).
Proof.
  intros Ho Hx Hy Hix Hiy.
  destruct (@hoisted C o x y ix iy vars Ho Hx Hy Hix Hiy) as (m & Hm & Im & Mm & Rm).
  exists m. split; [exact Hm|]. split; [exact Mm|].
  intros d Hd. apply native_deinterleave_inv in Hd as (n & -> & Hn).
  rewrite mutate_unfold. cbn [EliminateInterleaves.visit].
  unfold EliminateInterleaves.visit_Call.
  unfold bind at 1. cbn [IRMutator.mutate_args].
  unfold bind at 1. rewrite Mm. unfold bind at 1, ret at 1. unfold ret at 1.
  unfold bind at 1, get at 1. cbn [fst snd].
  assert (Y : EliminateInterleaves.yields_interleave vars m = true)
    by (unfold EliminateInterleaves.yields_interleave; rewrite Im; reflexivity).
  rewrite Y.
  assert (D : is_native_deinterleave
                (Call (type_of (Binary o ix iy)) n [Binary o ix iy] PureExtern) = true)
    by (destruct Hn as [<-|[<-|[<-|[]]]]; reflexivity).
  rewrite D. cbn [andb].
  unfold bind, lift. rewrite Rm. reflexivity.
Qed.

Lemma interleave_hoists_and_cancels_witness :
  EliminateInterleaves.mutate (C := Model.collaborators)
    (Examples.deinterleave_vh
       (Add (Examples.interleave_vh Examples.v)
            (Broadcast (IntImm (Int 16 1) 3) 64))) [] =
    Ok ((Add Examples.v (Broadcast (IntImm (Int 16 1) 3) 64), false), []).
Proof.
  destruct (@interleave_hoists_and_cancels Model.collaborators OpAdd
              Examples.v (Broadcast (IntImm (Int 16 1) 3) 64)
              (Examples.interleave_vh Examples.v) (Broadcast (IntImm (Int 16 1) 3) 64) []
              eq_refl eq_refl eq_refl eq_refl (or_intror (conj eq_refl eq_refl)))
    as (m & _ & _ & H).
  exact (H _ eq_refl).
Defined.

(* ================================================================= *)
(** ** Further properties: no pair survives                           *)
(* ================================================================= *)

Section PairFree.
Context {C : Collaborators}.
Import EliminateInterleaves.

Lemma pair_free_call (t : HType) (n : string) (args : list Expr) (ct : CallType) :
  pair_free (Call t n args ct) =
    negb (is_native_deinterleave (Call t n args ct) &&
          match args with a :: _ => is_native_interleave a | [] => false end) &&
    forallb pair_free args.
Proof. reflexivity. Qed.

Lemma remove_interleave_pair_free (vars : Scope bool) (x y : Expr) :
  pair_free x = true -> remove_interleave vars x = Ok y -> pair_free y = true.
Proof.
  unfold remove_interleave. intros Hx H.
  destruct (is_native_interleave x) eqn:Hi.
  - destruct x as [| | | | | | | | | |t n [|a r] ct|]; try discriminate.
    inversion H; subst y. rewrite pair_free_call in Hx.
    apply andb_true_iff in Hx as [_ Hx]. simpl in Hx.
    apply andb_true_iff in Hx as [Ha _]. exact Ha.
  - destruct (is_scalar (type_of x) || is_broadcast x).
    + inversion H; subst; assumption.
    + destruct x; try discriminate.
      destruct (contains vars (deinterleaved name)); [|discriminate].
      inversion H; subst; reflexivity.
Qed.

Lemma remove_interleaves_pair_free (vars : Scope bool) (l l' : list Expr) :
  forallb pair_free l = true -> remove_interleaves vars l = Ok l' ->
  forallb pair_free l' = true /\ List.length l' = List.length l.
Proof.
  revert l'. induction l as [|x r IH]; simpl; intros l' Hl H.
  - inversion H; subst. split; reflexivity.
  - apply andb_true_iff in Hl as [Hx Hr].
    destruct (remove_interleave vars x) as [y|] eqn:Ey; [|discriminate].
    destruct (remove_interleaves vars r) as [r'|] eqn:Er; [|discriminate].
    inversion H; subst l'. clear H.
    apply remove_interleave_pair_free in Ey; [|assumption].
    destruct (IH _ Hr eq_refl) as [Mr Lr].
    split; simpl; [rewrite Ey, Mr; reflexivity | congruence].
Qed.

Lemma native_interleave_pair_free (x ix : Expr) :
  pair_free x = true -> native_interleave x = Ok ix -> pair_free ix = true.
Proof.
  intros Hx H. apply native_interleave_inv in H as (n & -> & Hn).
  rewrite pair_free_call. simpl forallb. rewrite Hx.
  destruct Hn as [<-|[<-|[<-|[]]]]; reflexivity.
Qed.

Lemma deinterleave_same_length (t : HType) (n : string) (ct : CallType)
    (args args' : list Expr) :
  List.length args' = List.length args ->
  is_native_deinterleave (Call t n args' ct) = is_native_deinterleave (Call t n args ct).
Proof.
  intros L. unfold is_native_deinterleave, is_native_interleave_op.
  destruct args' as [|? [|? ?]], args as [|? [|? ?]]; try discriminate L; reflexivity.
Qed.

Lemma find_alt_pair_free (name : string) (alt : DeinterleavingAlternative) (t : HType)
    (ct : CallType) (args : list Expr) :
  find_alt name deinterleaving_alts = Some alt ->
  forallb pair_free args = true ->
  pair_free (Call t (alt_name alt) (args ++ extra_args alt) ct) = true.
Proof.
  intros H Ha.
  assert (A : is_native_deinterleave (Call t (alt_name alt) (args ++ extra_args alt) ct)
              = false /\ forallb pair_free (extra_args alt) = true).
  { unfold deinterleaving_alts in H. cbn [find_alt] in H.
    unfold is_native_deinterleave, is_native_interleave_op.
    repeat match type of H with
           | context [String.eqb ?a name] =>
               destruct (String.eqb a name);
               [inversion H; subst alt; cbn [alt_name extra_args];
                split; [destruct (args ++ _) as [|? [|? ?]]; reflexivity | reflexivity]|]
           end.
    discriminate H. }
  destruct A as [A1 A2].
  rewrite pair_free_call, A1, forallb_app, Ha, A2. reflexivity.
Qed.

Lemma mutate_args_settles (f : Expr -> M (Scope bool) (Expr * bool)) (args : list Expr) :
  Forall (settles pair_free f) args ->
  forall s r s',
    IRMutator.mutate_args f args s = Ok (r, s') ->
    forallb pair_free (fst r) = true /\
    List.length (fst r) = List.length args /\
    (snd r = true -> fst r = args).
Proof.
  induction 1 as [|a rest Ha _ IH]; simpl; intros s r s' H.
  - inversion H; subst. repeat split; reflexivity.
  - unfold bind, ret in H.
    destruct (f a s) as [[a' s1]|] eqn:Ea; [|discriminate].
    destruct (IRMutator.mutate_args f rest s1) as [[r' s2]|] eqn:Er; [|discriminate].
    inversion H; subst. clear H. simpl.
    destruct (Ha _ _ _ Ea) as [Pa Sa].
    destruct (IH _ _ _ Er) as (Pr & Lr & Sr).
    repeat split.
    + rewrite Pa, Pr. reflexivity.
    + congruence.
    + intros E. apply andb_true_iff in E as [E1 E2]. rewrite Sa, Sr by assumption.
      reflexivity.
Qed.

Lemma yields_of_marker (vars : Scope bool) (a : Expr) :
  yields_interleave vars a = false -> is_native_interleave a = false.
Proof.
  unfold yields_interleave. destruct (is_native_interleave a); [discriminate | reflexivity].
Qed.

Lemma visit_binary_settles (f : Expr -> M (Scope bool) (Expr * bool)) (o : BinOp)
    (a b : Expr) :
  settles pair_free f a -> settles pair_free f b ->
  forall s r s', visit_binary f o a b s = Ok (r, s') -> pair_free (fst r) = true.
Proof.
  intros Ha Hb s r s' H.
  unfold visit_binary in H. unfold bind at 1 in H.
  destruct (f a s) as [[a' s1]|] eqn:Ea; [|discriminate].
  destruct (Ha _ _ _ Ea) as [Pa Sa].
  unfold bind at 1 in H.
  destruct (f b s1) as [[b' s2]|] eqn:Eb; [|discriminate].
  destruct (Hb _ _ _ Eb) as [Pb Sb].
  unfold bind at 1, get at 1 in H. cbn [fst snd] in H.
  destruct (yields_removable_interleave s2 [fst a'; fst b']).
  - unfold bind at 1, lift at 1 in H.
    destruct (remove_interleave s2 (fst a')) as [a2|] eqn:Ea2; [|discriminate].
    apply remove_interleave_pair_free in Ea2; [|assumption].
    unfold bind at 1, lift at 1 in H.
    destruct (remove_interleave s2 (fst b')) as [b2|] eqn:Eb2; [|discriminate].
    apply remove_interleave_pair_free in Eb2; [|assumption].
    unfold bind at 1, lift at 1 in H.
    destruct (native_interleave (Binary o a2 b2)) as [m|] eqn:Em; [|discriminate].
    apply native_interleave_pair_free in Em; [|simpl; rewrite Ea2, Eb2; reflexivity].
    inversion H; subst. exact Em.
  - destruct (negb (snd a') || negb (snd b')) eqn:E; inversion H; subst; cbn [fst].
    + simpl. rewrite Pa, Pb. reflexivity.
    + apply orb_false_iff in E as [E1 E2]. apply negb_false_iff in E1, E2.
      rewrite <- (Sa E1), <- (Sb E2). simpl. rewrite Pa, Pb. reflexivity.
Qed.

Lemma visit_Not_settles (f : Expr -> M (Scope bool) (Expr * bool)) (a : Expr) :
  settles pair_free f a ->
  forall s r s', visit_Not f a s = Ok (r, s') -> pair_free (fst r) = true.
Proof.
  intros Ha s r s' H.
  unfold visit_Not in H. unfold bind at 1 in H.
  destruct (f a s) as [[a' s1]|] eqn:Ea; [|discriminate].
  destruct (Ha _ _ _ Ea) as [Pa Sa].
  unfold bind at 1, get at 1 in H. cbn [fst snd] in H.
  destruct (is_native_interleave (fst a')).
  - unfold bind at 1, lift at 1 in H.
    destruct (remove_interleave s1 (fst a')) as [a2|] eqn:Ea2; [|discriminate].
    apply remove_interleave_pair_free in Ea2; [|assumption].
    unfold bind at 1, lift at 1 in H.
    destruct (native_interleave (Not a2)) as [m|] eqn:Em; [|discriminate].
    apply native_interleave_pair_free in Em; [|assumption].
    inversion H; subst. exact Em.
  - destruct (negb (snd a')) eqn:E; inversion H; subst; cbn [fst].
    + exact Pa.
    + apply negb_false_iff in E. rewrite <- (Sa E). exact Pa.
Qed.

Lemma visit_Select_settles (f : Expr -> M (Scope bool) (Expr * bool)) (c t e : Expr) :
  settles pair_free f c -> settles pair_free f t -> settles pair_free f e ->
  forall s r s', visit_Select f c t e s = Ok (r, s') -> pair_free (fst r) = true.
Proof.
  intros Hc Ht He s r s' H.
  unfold visit_Select in H. unfold bind at 1 in H.
  destruct (f c s) as [[c' s1]|] eqn:Ec; [|discriminate].
  destruct (Hc _ _ _ Ec) as [Pc Sc].
  unfold bind at 1 in H.
  destruct (f t s1) as [[t' s2]|] eqn:Et; [|discriminate].
  destruct (Ht _ _ _ Et) as [Pt St_].
  unfold bind at 1 in H.
  destruct (f e s2) as [[e' s3]|] eqn:Ee; [|discriminate].
  destruct (He _ _ _ Ee) as [Pe Se].
  unfold bind at 1, get at 1 in H. cbn [fst snd] in H.
  destruct (yields_removable_interleave s3 [fst c'; fst t'; fst e']).
  - unfold bind at 1, lift at 1 in H.
    destruct (remove_interleave s3 (fst c')) as [c2|] eqn:Ec2; [|discriminate].
    apply remove_interleave_pair_free in Ec2; [|assumption].
    unfold bind at 1, lift at 1 in H.
    destruct (remove_interleave s3 (fst t')) as [t2|] eqn:Et2; [|discriminate].
    apply remove_interleave_pair_free in Et2; [|assumption].
    unfold bind at 1, lift at 1 in H.
    destruct (remove_interleave s3 (fst e')) as [e2|] eqn:Ee2; [|discriminate].
    apply remove_interleave_pair_free in Ee2; [|assumption].
    unfold bind at 1, lift at 1 in H.
    destruct (native_interleave (Select c2 t2 e2)) as [m|] eqn:Em; [|discriminate].
    apply native_interleave_pair_free in Em; [|simpl; rewrite Ec2, Et2, Ee2; reflexivity].
    inversion H; subst. exact Em.
  - destruct (negb (snd c') || negb (snd t') || negb (snd e')) eqn:E;
      inversion H; subst; cbn [fst].
    + simpl. rewrite Pc, Pt, Pe. reflexivity.
    + apply orb_false_iff in E as [E E3]. apply orb_false_iff in E as [E1 E2].
      apply negb_false_iff in E1, E2, E3.
      rewrite <- (Sc E1), <- (St_ E2), <- (Se E3). simpl. rewrite Pc, Pt, Pe. reflexivity.
Qed.

Lemma visit_Cast_settles (f : Expr -> M (Scope bool) (Expr * bool)) (t : HType) (v : Expr) :
  settles pair_free f v ->
  forall s r s', visit_Cast f t v s = Ok (r, s') -> pair_free (fst r) = true.
Proof.
  intros Hv s r s' H.
  unfold visit_Cast in H.
  destruct (bits t =? bits (type_of v)).
  - unfold bind at 1 in H.
    destruct (f v s) as [[v' s1]|] eqn:Ev; [|discriminate].
    destruct (Hv _ _ _ Ev) as [Pv Sv].
    unfold bind at 1, get at 1 in H. cbn [fst snd] in H.
    destruct (is_native_interleave (fst v')).
    + unfold bind at 1, lift at 1 in H.
      destruct (remove_interleave s1 (fst v')) as [v2|] eqn:Ev2; [|discriminate].
      apply remove_interleave_pair_free in Ev2; [|assumption].
      unfold bind at 1, lift at 1 in H.
      destruct (native_interleave (Cast t v2)) as [m|] eqn:Em; [|discriminate].
      apply native_interleave_pair_free in Em; [|assumption].
      inversion H; subst. exact Em.
    + destruct (negb (snd v')) eqn:E; inversion H; subst; cbn [fst].
      * exact Pv.
      * apply negb_false_iff in E. rewrite <- (Sv E). exact Pv.
  - unfold IRMutator.visit in H. unfold bind at 1 in H.
    destruct (f v s) as [[v' s1]|] eqn:Ev; [|discriminate].
    destruct (Hv _ _ _ Ev) as [Pv Sv].
    destruct (snd v'); inversion H; subst; cbn [fst].
    + rewrite <- (Sv eq_refl). exact Pv.
    + exact Pv.
Qed.

(** A call kept over mutated operands: had its operand been an
    interleave under a deinterleave, the pair would have been
    removed. *)
Lemma kept_call_pair_free (t : HType) (n : string) (ct : CallType)
    (args : list Expr) (vars : Scope bool) :
  forallb pair_free args = true ->
  is_native_deinterleave (Call t n args ct) &&
    match args with a :: _ => yields_interleave vars a | [] => false end = false ->
  pair_free (Call t n args ct) = true.
Proof.
  intros Pa H. rewrite pair_free_call, Pa, andb_true_r.
  apply negb_true_iff.
  destruct (is_native_deinterleave (Call t n args ct)); [|reflexivity].
  destruct args as [|a r]; [reflexivity|].
  simpl in H |- *. eapply yields_of_marker; eassumption.
Qed.

Lemma removable_head (vars : Scope bool) (a : Expr) (r : list Expr) :
  yields_removable_interleave vars (a :: r) = true -> yields_interleave vars a = true.
Proof.
  unfold yields_removable_interleave. rewrite yields_removable_interleave_from_spec.
  intros H. apply andb_true_iff in H as [_ H]. simpl in H.
  apply andb_true_iff in H as [H _]. exact H.
Qed.

Lemma visit_Call_settles (f : Expr -> M (Scope bool) (Expr * bool)) (t : HType)
    (n : string) (args : list Expr) (ct : CallType) :
  Forall (settles pair_free f) args ->
  forall s r s', visit_Call f t n args ct s = Ok (r, s') -> pair_free (fst r) = true.
Proof.
  intros Ha s r s' H.
  unfold visit_Call in H. unfold bind at 1 in H.
  destruct (IRMutator.mutate_args f args s) as [[args' s1]|] eqn:Ea; [|discriminate].
  destruct (@mutate_args_settles f args Ha s args' s1 Ea) as (Pa & La & Sa).
  unfold bind at 1, get at 1 in H. cbn [fst snd] in H.
  rewrite <- (@deinterleave_same_length t n ct args (fst args') La) in H.
  destruct (is_native_deinterleave (Call t n (fst args') ct) &&
            match fst args' with a :: _ => yields_interleave s1 a | [] => false end) eqn:Hd.
  - destruct (fst args') as [|a' rest]; [discriminate|].
    unfold bind at 1, lift at 1 in H.
    destruct (remove_interleave s1 a') as [y|] eqn:Ey; [|discriminate].
    simpl in Pa. apply andb_true_iff in Pa as [Pa _].
    apply remove_interleave_pair_free in Ey; [|assumption].
    inversion H; subst. exact Ey.
  - assert (K : pair_free (Call t n (fst args') ct) = true)
      by (eapply kept_call_pair_free; eassumption).
    assert (Hop : snd args' = true -> Call t n args ct = Call t n (fst args') ct)
      by (intros E; rewrite (Sa E); reflexivity).
    destruct (is_interleavable t n args && yields_removable_interleave s1 (fst args')) eqn:Hi.
    + apply andb_true_iff in Hi as [_ Hy].
      unfold bind at 1, lift at 1 in H.
      destruct (remove_interleaves s1 (fst args')) as [l|] eqn:El; [|discriminate].
      destruct (@remove_interleaves_pair_free s1 (fst args') l Pa El) as [Pl Ll].
      unfold bind at 1, lift at 1 in H.
      destruct (native_interleave (Call t n l ct)) as [m|] eqn:Em; [|discriminate].
      apply native_interleave_pair_free in Em.
      * inversion H; subst. exact Em.
      * rewrite pair_free_call, Pl, andb_true_r.
        rewrite (@deinterleave_same_length t n ct (fst args') l Ll).
        destruct (is_native_deinterleave (Call t n (fst args') ct)); [|reflexivity].
        destruct (fst args') as [|a' rest]; [discriminate Hy|].
        apply removable_head in Hy. simpl in Hd. congruence.
    + destruct (find_alt n deinterleaving_alts) as [alt|] eqn:Ealt.
      * destruct (yields_removable_interleave s1 (fst args')).
        -- unfold bind at 1, lift at 1 in H.
           destruct (remove_interleaves s1 (fst args')) as [l|] eqn:El; [|discriminate].
           destruct (@remove_interleaves_pair_free s1 (fst args') l Pa El) as [Pl Ll].
           inversion H; subst. cbn [fst].
           eapply find_alt_pair_free; [exact Ealt | assumption].
        -- destruct (negb (snd args')) eqn:E; inversion H; subst; cbn [fst];
             [exact K | apply negb_false_iff in E; rewrite (Hop E); exact K].
      * destruct (negb (snd args')) eqn:E; inversion H; subst; cbn [fst];
          [exact K | apply negb_false_iff in E; rewrite (Hop E); exact K].
Qed.

Lemma visit_let_settles {N : Type} (P : N -> bool)
    (f : Expr -> M (Scope bool) (Expr * bool)) (g : N -> M (Scope bool) (N * bool))
    (uses : N -> string -> bool) (make : string -> Expr -> N -> N)
    (name : string) (value : Expr) (body : N) :
  (forall n v b, pair_free v = true -> P b = true -> P (make n v b) = true) ->
  settles pair_free f value -> settles P g body ->
  forall s r s',
    visit_let f g uses make (make name value body) name value body s = Ok (r, s') ->
    P (fst r) = true.
Proof.
  intros Hmake Hv Hb s r s' H.
  unfold visit_let in H. unfold bind at 1 in H.
  destruct (f value s) as [[v' s1]|] eqn:Ev; [|discriminate].
  destruct (Hv _ _ _ Ev) as [Pv Sv].
  unfold bind at 1 in H.
  match type of H with
  | match ?c s1 with _ => _ end = _ => destruct (c s1) as [[b' s2]|] eqn:Eb; [|discriminate]
  end.
  assert (Kb : P (fst b') = true /\ (snd b' = true -> fst b' = body)).
  { destruct (is_native_interleave (fst v')).
    - unfold bind, modify, ret in Eb.
      destruct (g body (push (deinterleaved name) true s1)) as [[b0 s3]|] eqn:E0;
        [|discriminate].
      inversion Eb; subst. eapply Hb; eassumption.
    - eapply Hb; eassumption. }
  destruct Kb as [Pb Sb].
  destruct (snd v' && snd b') eqn:E.
  { apply andb_true_iff in E as [E1 E2].
    inversion H; subst. cbn [fst]. rewrite <- (Sv E1), <- (Sb E2). apply Hmake; assumption. }
  destruct (snd b').
  { inversion H; subst. apply Hmake; assumption. }
  unfold bind at 1, get at 1 in H.
  destruct (uses (fst b') (deinterleaved name) && uses (fst b') name).
  { unfold bind at 1, lift at 1 in H.
    destruct (remove_interleave s2 (fst v')) as [d|] eqn:Ed; [|discriminate].
    apply remove_interleave_pair_free in Ed; [|assumption].
    unfold bind at 1, lift at 1 in H.
    destruct (native_interleave (Variable_ (type_of d) (deinterleaved name))) as [m|] eqn:Em;
      [|discriminate].
    apply native_interleave_pair_free in Em; [|reflexivity].
    inversion H; subst. cbn [fst]. apply Hmake; [assumption|]. apply Hmake; assumption. }
  destruct (uses (fst b') (deinterleaved name)).
  { unfold bind at 1, lift at 1 in H.
    destruct (remove_interleave s2 (fst v')) as [d|] eqn:Ed; [|discriminate].
    apply remove_interleave_pair_free in Ed; [|assumption].
    inversion H; subst. apply Hmake; assumption. }
  destruct (uses (fst b') name).
  { inversion H; subst. apply Hmake; assumption. }
  destruct (negb (uses body name)); [|discriminate].
  inversion H; subst. assumption.
Qed.

Lemma mutate_settles (e : Expr) : settles pair_free mutate e.
Proof.
  induction e using Expr_ind'; intros s r s' Hr;
    (split; [|destruct r as [e' same]; cbn [fst snd]; intros ->;
              eapply mutate_same; eassumption]);
    rewrite mutate_unfold in Hr; cbn [visit] in Hr.
  - inversion Hr; subst. reflexivity.
  - inversion Hr; subst. reflexivity.
  - eapply visit_Cast_settles; eassumption.
  - inversion Hr; subst. reflexivity.
  - eapply visit_binary_settles; [exact IHe1 | exact IHe2 | exact Hr].
  - eapply visit_Not_settles; eassumption.
  - eapply visit_Select_settles; [exact IHe1 | exact IHe2 | exact IHe3 | exact Hr].
  - (* Load *)
    unfold IRMutator.visit in Hr. unfold bind at 1 in Hr.
    destruct (mutate e s) as [[v' s1]|] eqn:Ev; [|discriminate].
    destruct (IHe _ _ _ Ev) as [Pv Sv].
    destruct (snd v'); inversion Hr; subst; cbn [fst].
    + rewrite <- (Sv eq_refl). exact Pv.
    + exact Pv.
  - (* Ramp *)
    unfold IRMutator.visit in Hr. unfold bind at 1 in Hr.
    destruct (mutate e1 s) as [[a' s1]|] eqn:Ea; [|discriminate].
    destruct (IHe1 _ _ _ Ea) as [Pa Sa].
    unfold bind at 1 in Hr.
    destruct (mutate e2 s1) as [[b' s2]|] eqn:Eb; [|discriminate].
    destruct (IHe2 _ _ _ Eb) as [Pb Sb].
    destruct (snd a' && snd b') eqn:E; inversion Hr; subst; cbn [fst].
    + apply andb_true_iff in E as [E1 E2].
      rewrite <- (Sa E1), <- (Sb E2). simpl. rewrite Pa, Pb. reflexivity.
    + simpl. rewrite Pa, Pb. reflexivity.
  - (* Broadcast *)
    unfold IRMutator.visit in Hr. unfold bind at 1 in Hr.
    destruct (mutate e s) as [[v' s1]|] eqn:Ev; [|discriminate].
    destruct (IHe _ _ _ Ev) as [Pv Sv].
    destruct (snd v'); inversion Hr; subst; cbn [fst].
    + rewrite <- (Sv eq_refl). exact Pv.
    + exact Pv.
  - eapply visit_Call_settles; eassumption.
  - eapply (@visit_let_settles Expr pair_free mutate mutate expr_uses_var LetE);
      [ | exact IHe1 | exact IHe2 | exact Hr ].
    intros ? ? ? Hv Hb. simpl. rewrite Hv, Hb. reflexivity.
Qed.

Lemma mutate_stmt_settles (s : Stmt) : settles pair_free_stmt mutate_stmt s.
Proof.
  induction s; intros vars r vars' Hr; simpl in Hr.
  - (* LetStmt *)
    assert (P : pair_free_stmt (fst r) = true).
    { eapply (@visit_let_settles Stmt pair_free_stmt mutate mutate_stmt stmt_uses_var
                LetStmt);
        [ | apply mutate_settles | exact IHs | exact Hr ].
      intros ? ? ? Hv Hb. simpl. rewrite Hv, Hb. reflexivity. }
    split; [exact P|].
    unfold visit_let in Hr. destruct r as [s' same]. cbn [fst snd]. intros ->.
    run. break_in Hr; congruence.
  - (* Evaluate *)
    unfold IRMutator.visit_stmt in Hr. unfold bind at 1 in Hr.
    destruct (mutate value vars) as [[v' s1]|] eqn:Ev; [|discriminate].
    destruct (@mutate_settles value vars v' s1 Ev) as [Pv Sv].
    destruct (snd v'); inversion Hr; subst; cbn [fst snd].
    + split; [rewrite <- (Sv eq_refl); exact Pv | reflexivity].
    + split; [exact Pv | discriminate].
  - (* Store *)
    unfold IRMutator.visit_stmt in Hr. unfold bind at 1 in Hr.
    destruct (mutate value vars) as [[v' s1]|] eqn:Ev; [|discriminate].
    destruct (@mutate_settles value vars v' s1 Ev) as [Pv Sv].
    unfold bind at 1 in Hr.
    destruct (mutate index s1) as [[i' s2]|] eqn:Ei; [|discriminate].
    destruct (@mutate_settles index s1 i' s2 Ei) as [Pi Si].
    destruct (snd v' && snd i') eqn:E; inversion Hr; subst; cbn [fst snd].
    + apply andb_true_iff in E as [E1 E2].
      split; [|reflexivity]. rewrite <- (Sv E1), <- (Si E2). simpl. rewrite Pv, Pi. reflexivity.
    + split; [simpl; rewrite Pv, Pi; reflexivity | discriminate].
  - (* Block *)
    unfold IRMutator.visit_stmt in Hr. unfold bind at 1 in Hr.
    destruct (mutate_stmt s1 vars) as [[a' v1]|] eqn:Ea; [|discriminate].
    destruct (IHs1 _ _ _ Ea) as [Pa Sa].
    unfold bind at 1 in Hr.
    destruct (mutate_stmt s2 v1) as [[b' v2]|] eqn:Eb; [|discriminate].
    destruct (IHs2 _ _ _ Eb) as [Pb Sb].
    destruct (snd a' && snd b') eqn:E; inversion Hr; subst; cbn [fst snd].
    + apply andb_true_iff in E as [E1 E2].
      split; [|reflexivity]. rewrite <- (Sa E1), <- (Sb E2). simpl. rewrite Pa, Pb. reflexivity.
    + split; [simpl; rewrite Pa, Pb; reflexivity | discriminate].
Qed.

End PairFree.

(** X20.  Whatever tree or statement it is given, the eliminator
    returns one in which no deinterleave marker sits directly on an
    interleave marker: every such pair has been cancelled. *)
Theorem no_pair_survives (C : Collaborators) (vars vars' : Scope bool) :
  (forall e r, EliminateInterleaves.mutate e vars = Ok (r, vars') ->
               pair_free (fst r) = true)
  /\ (forall s r, EliminateInterleaves.mutate_stmt s vars = Ok (r, vars') ->
                  pair_free_stmt (fst r) = true).
Proof.
  split.
  - intros e r H. apply mutate_settles in H. apply H.
  - intros s r H. apply mutate_stmt_settles in H. apply H.
Qed.

Lemma no_pair_survives_witness :
  pair_free (Add Examples.v Examples.x) = true.
Proof.
  exact (proj1 (@no_pair_survives Model.collaborators [] [])
           (Examples.deinterleave_vh
              (Add (Examples.interleave_vh Examples.v) (Examples.interleave_vh Examples.x)))
           (Add Examples.v Examples.x, false) eq_refl).
Defined.

(* ================================================================= *)
(** ** Further properties: upper bounds                                *)
(* ================================================================= *)

Section BoundInert.
Context {C : Collaborators}.
Import UpperBound.

Lemma visit_Sub_plain (f : Expr -> M unit (Expr * bool)) (a b : Expr) :
  f a tt = Ok ((a, true), tt) ->
  f b tt = Ok ((b, true), tt) ->
  clamped_difference a b = false ->
  visit_Sub f a b tt = Ok ((Sub a b, true), tt).
Proof.
  intros Ha Hb H. unfold visit_Sub.
  unfold bind at 1. rewrite Ha. unfold bind at 1. rewrite Hb. cbn [fst snd negb orb].
  destruct a as [| | | |oa a1 a2| | | | | | |]; try reflexivity.
  destruct oa; try reflexivity;
    destruct b as [| | | |ob b1 b2| | | | | | |]; try reflexivity;
    destruct ob; try reflexivity;
    simpl in H; rewrite H; reflexivity.
Qed.

Lemma bound_args_unchanged (fuel : nat) (args : list Expr) :
  Forall (fun a => forall fuel, (depth a <= fuel)%nat -> bound_inert a = true ->
                   mutate fuel a tt = Ok ((a, true), tt)) args ->
  (fold_right (fun a n => Nat.max (depth a) n) O args <= fuel)%nat ->
  forallb bound_inert args = true ->
  IRMutator.mutate_args (mutate fuel) args tt = Ok ((args, true), tt).
Proof.
  induction 1 as [|a r Ha _ IH]; simpl; intros Hd H; [reflexivity|].
  apply andb_true_iff in H as [Hm Hr].
  unfold bind at 1. rewrite (Ha fuel) by (assumption || lia).
  unfold bind at 1. rewrite IH by (assumption || lia). reflexivity.
Qed.

Lemma bound_inert_unchanged (e : Expr) (fuel : nat) :
  (depth e <= fuel)%nat -> bound_inert e = true ->
  mutate fuel e tt = Ok ((e, true), tt).
Proof.
  revert fuel. induction e using Expr_ind'; intros fuel Hd Hm;
    (destruct fuel as [|fuel]; [simpl in Hd; lia|]);
    simpl in Hd; simpl in Hm; rewrite ?andb_true_iff in Hm.
  - reflexivity.
  - reflexivity.
  - cbn [mutate visit IRMutator.visit]. unfold bind.
    rewrite IHe by (assumption || lia). reflexivity.
  - reflexivity.
  - (* Binary *)
    destruct Hm as [[Ho Ha] Hb].
    assert (D : IRMutator.visit (mutate fuel) (Binary op e1 e2) tt =
                Ok ((Binary op e1 e2, true), tt)).
    { cbn [IRMutator.visit]. unfold bind.
      rewrite IHe1, IHe2 by (assumption || lia). reflexivity. }
    cbn [mutate]. destruct op; cbn [visit]; try exact D.
    apply negb_true_iff in Ho.
    apply visit_Sub_plain; [apply IHe1 | apply IHe2 | exact Ho]; assumption || lia.
  - cbn [mutate visit IRMutator.visit]. unfold bind.
    rewrite IHe by (assumption || lia). reflexivity.
  - destruct Hm as [[Hc Ht] Hf]. cbn [mutate visit IRMutator.visit]. unfold bind.
    rewrite IHe1, IHe2, IHe3 by (assumption || lia). reflexivity.
  - cbn [mutate visit IRMutator.visit]. unfold bind.
    rewrite IHe by (assumption || lia). reflexivity.
  - destruct Hm as [Ha Hb]. cbn [mutate visit IRMutator.visit]. unfold bind.
    rewrite IHe1, IHe2 by (assumption || lia). reflexivity.
  - cbn [mutate visit IRMutator.visit]. unfold bind.
    rewrite IHe by (assumption || lia). reflexivity.
  - cbn [mutate visit IRMutator.visit]. unfold bind at 1.
    rewrite bound_args_unchanged; [reflexivity|exact H|lia|exact Hm].
  - destruct Hm as [Ha Hb]. cbn [mutate visit IRMutator.visit]. unfold bind.
    rewrite IHe1, IHe2 by (assumption || lia). reflexivity.
Qed.

End BoundInert.

(** X21.  [upper_bound] is the simplifier except on differences of
    two maxima or of two minima with equal second operands: on a tree
    without such a difference [UpperBound] returns the very tree, for
    every step count that covers its depth, and [upper_bound] returns
    its simplification. *)
Theorem upper_bound_of_plain_code (C : Collaborators) (e : Expr) (fuel : nat) :
  (depth e <= fuel)%nat ->
  bound_inert e = true ->
  UpperBound.mutate fuel e tt = Ok ((e, true), tt) /\
  upper_bound fuel e = Ok (simplify e).
Proof.
  intros Hd Hb.
  assert (H : UpperBound.mutate fuel e tt = Ok ((e, true), tt))
    by (apply bound_inert_unchanged; assumption).
  split; [exact H|]. unfold upper_bound. rewrite H. reflexivity.
Qed.

Lemma upper_bound_of_plain_code_witness :
  let x := Variable_ (Int 32 1) "x" in
  let y := Variable_ (Int 32 1) "y" in
  let e := Sub (Max x (IntImm (Int 32 1) 0)) (Max y (IntImm (Int 32 1) 1)) in
  upper_bound (C := Model.collaborators) 3 e = Ok (Model.simplify e).
Proof.
  intros x y e.
  refine (proj2 (@upper_bound_of_plain_code Model.collaborators e 3 _ eq_refl)).
  simpl. lia.
Defined.

(* ================================================================= *)
(** ** Loads and lookups                                              *)
(* ================================================================= *)

Section ShuffleFacts.
Context {C : Collaborators}.
Import OptimizeShuffles.

Lemma visit_Load_direct (fuel : nat) (mutate : Expr -> M (Scope Interval) (Expr * bool))
    (t : HType) (name : string) (op_index : Expr) (s : Scope Interval) :
  is_vector t = false \/ is_ramp op_index = true ->
  visit_Load fuel mutate t name op_index s =
    match mutate op_index s with
    | Ok ((index, same), s1) =>
        if same then Ok ((Load t name op_index, true), s1)
        else Ok ((Load t name index, false), s1)
    | Fail w => Fail w
    end.
Proof.
  intros H. unfold visit_Load.
  assert (E : negb (is_vector t) || is_ramp op_index = true).
  { destruct H as [-> | ->]; [reflexivity | apply orb_true_r]. }
  rewrite E. cbn [IRMutator.visit]. unfold bind.
  destruct (mutate op_index s) as [[[index same] s1]|]; [|reflexivity].
  destruct same; reflexivity.
Qed.

Lemma visit_Load_unbounded (fuel : nat) (mutate : Expr -> M (Scope Interval) (Expr * bool))
    (t : HType) (name : string) (op_index index : Expr) (same : bool)
    (s s1 : Scope Interval) :
  is_vector t = true ->
  is_ramp op_index = false ->
  mutate op_index s = Ok ((index, same), s1) ->
  min (bounds_of_expr_in_scope index s1) = None \/
  max (bounds_of_expr_in_scope index s1) = None ->
  visit_Load fuel mutate t name op_index s = Fail user_error.
Proof.
  intros Hv Hr Hm Hb. unfold visit_Load. rewrite Hv, Hr. cbn [negb orb].
  unfold bind at 1. rewrite Hm. unfold bind at 1. unfold get at 1.
  cbn [fst snd].
  destruct Hb as [Hb|Hb]; rewrite Hb;
    destruct (max (bounds_of_expr_in_scope index s1));
    try destruct (min (bounds_of_expr_in_scope index s1)); try discriminate Hb;
    reflexivity.
Qed.

Lemma visit_Load_bounded (fuel : nat) (mutate : Expr -> M (Scope Interval) (Expr * bool))
    (t : HType) (name : string) (op_index index index_max index_min : Expr)
    (same : bool) (s s1 : Scope Interval) :
  is_vector t = true ->
  is_ramp op_index = false ->
  mutate op_index s = Ok ((index, same), s1) ->
  max (bounds_of_expr_in_scope index s1) = Some index_max ->
  min (bounds_of_expr_in_scope index s1) = Some index_min ->
  visit_Load fuel mutate t name op_index s =
    match upper_bound fuel (index_span index_max index_min) with
    | Fail w => Fail w
    | Ok span =>
        if is_one (simplify (binop_int OpLT span 256)) then
          if 1 <? table_extent span
          then Ok ((lookup t name index span index_min, false), s1)
          else Fail internal_error
        else if same then Ok ((Load t name op_index, true), s1)
             else Ok ((Load t name index, false), s1)
    end.
Proof.
  intros Hv Hr Hm Hmax Hmin. unfold visit_Load. rewrite Hv, Hr. cbn [negb orb].
  unfold bind at 1. rewrite Hm. unfold bind at 1. unfold get at 1.
  cbn [fst snd]. rewrite Hmax, Hmin.
  unfold bind at 1. unfold index_span. unfold lift at 1.
  destruct (upper_bound fuel _) as [span|w]; [|reflexivity].
  destruct (is_one _); [|destruct same; reflexivity].
  unfold bind at 1, lift at 1, Ramp_make, lookup, table_extent.
  destruct (1 <? _); reflexivity.
Qed.

(** Where the span has no difference of maxima or minima for
    [UpperBound] to rewrite, [upper_bound] returns, with its
    simplification. *)
Lemma upper_bound_of_inert (fuel : nat) (e : Expr) :
  (depth e <= fuel)%nat -> bound_inert e = true ->
  upper_bound fuel e = Ok (simplify e).
Proof.
  intros Hd Hb. unfold upper_bound.
  rewrite bound_inert_unchanged by assumption. reflexivity.
Qed.
End ShuffleFacts.

(** C3.  Scalar loads and loads through a ramp are never converted.
    For a vector load with another index, [visit_Load] takes the
    bounds of the mutated index.  Where a bound is undefined (the
    index is unbounded) it halts with an error: the difference of the
    bounds is formed without a test, so the load is not left as it
    is.  Where both are defined, the load becomes a lookup exactly
    when the simplifier proves the widened span less than 256; the
    lookup is a [dynamic_shuffle] call of four arguments: the table,
    loaded through a ramp of [span + 1] lanes from the simplified
    minimum of the index (256 lanes when the span is not a constant),
    the index minus that minimum cast to 8 bit unsigned lanes, a zero,
    and the length of the table; building the ramp halts when
    [span + 1] is 1 or less.  Otherwise the load stays a load of the
    mutated index.  The widening returns whenever the span holds no
    difference of two maxima or minima.  With the model of the
    collaborators a span of 255 is converted and a span of 256 is not;
    an index loaded from 32 bit words, which has no bounds, and a
    constant index, whose span is 0, make the pass halt. *)
Theorem indirect_load_to_lookup :
  (forall (C : Collaborators) (fuel : nat)
          (mutate : Expr -> M (Scope Interval) (Expr * bool))
          (t : HType) (name : string) (op_index : Expr) (s : Scope Interval),
      is_vector t = false \/ OptimizeShuffles.is_ramp op_index = true ->
      OptimizeShuffles.visit_Load fuel mutate t name op_index s =
        match mutate op_index s with
        | Ok ((index, same), s1) =>
            if same then Ok ((Load t name op_index, true), s1)
            else Ok ((Load t name index, false), s1)
        | Fail w => Fail w
        end)
  /\ (forall (C : Collaborators) (fuel : nat)
             (mutate : Expr -> M (Scope Interval) (Expr * bool))
             (t : HType) (name : string) (op_index index : Expr) (same : bool)
             (s s1 : Scope Interval),
         is_vector t = true ->
         OptimizeShuffles.is_ramp op_index = false ->
         mutate op_index s = Ok ((index, same), s1) ->
         min (bounds_of_expr_in_scope index s1) = None \/
         max (bounds_of_expr_in_scope index s1) = None ->
         OptimizeShuffles.visit_Load fuel mutate t name op_index s = Fail user_error)
  /\ (forall (C : Collaborators) (fuel : nat)
             (mutate : Expr -> M (Scope Interval) (Expr * bool))
             (t : HType) (name : string) (op_index index index_max index_min : Expr)
             (same : bool) (s s1 : Scope Interval),
         is_vector t = true ->
         OptimizeShuffles.is_ramp op_index = false ->
         mutate op_index s = Ok ((index, same), s1) ->
         max (bounds_of_expr_in_scope index s1) = Some index_max ->
         min (bounds_of_expr_in_scope index s1) = Some index_min ->
         OptimizeShuffles.visit_Load fuel mutate t name op_index s =
           match upper_bound fuel (index_span index_max index_min) with
           | Fail w => Fail w
           | Ok span =>
               if is_one (simplify (binop_int OpLT span 256)) then
                 if 1 <? table_extent span
                 then Ok ((lookup t name index span index_min, false), s1)
                 else Fail internal_error
               else if same then Ok ((Load t name op_index, true), s1)
                    else Ok ((Load t name index, false), s1)
           end)
  /\ (forall (C : Collaborators) (fuel : nat) (index_max index_min : Expr),
         (depth (index_span index_max index_min) <= fuel)%nat ->
         bound_inert (index_span index_max index_min) = true ->
         upper_bound fuel (index_span index_max index_min) =
           Ok (simplify (index_span index_max index_min)))
  /\ (let run (e : Expr) :=
        OptimizeShuffles.mutate (C := Model.collaborators) 3 e [] in
      let bounds (index : Expr) :=
        Model.bounds_of_expr_in_scope index [] in
      let shuffle (index : Expr) :=
        Call Examples.u8x64 "dynamic_shuffle"
          [Load (UInt 8 256) "lut"
                (Ramp (IntImm (Int 32 1) 0) (IntImm (Int 32 1) 1) 256);
           Cast Examples.u8x64 (Sub index (Examples.k 0));
           IntImm (Int 32 1) 0;
           IntImm (Int 32 1) 256]
          PureIntrinsic in
      let at_255 := Min Examples.halfwords (Examples.k 255) in
      let at_256 := Min Examples.halfwords (Examples.k 256) in
      let constant := Broadcast (IntImm (Int 32 1) 5) 64 in
      bounds Examples.bytes =
        mkInterval (Some (IntImm (Int 32 1) 0)) (Some (IntImm (Int 32 1) 255)) /\
      run (Examples.lut Examples.bytes) = Ok ((shuffle Examples.bytes, false), []) /\
      bounds at_255 =
        mkInterval (Some (IntImm (Int 32 1) 0)) (Some (IntImm (Int 32 1) 255)) /\
      run (Examples.lut at_255) = Ok ((shuffle at_255, false), []) /\
      bounds at_256 =
        mkInterval (Some (IntImm (Int 32 1) 0)) (Some (IntImm (Int 32 1) 256)) /\
      run (Examples.lut at_256) = Ok ((Examples.lut at_256, true), []) /\
      bounds Examples.words = mkInterval None None /\
      run (Examples.lut Examples.words) = Fail user_error /\
      bounds constant =
        mkInterval (Some (IntImm (Int 32 1) 5)) (Some (IntImm (Int 32 1) 5)) /\
      run (Examples.lut constant) = Fail internal_error /\
      run (Load (UInt 8 1) "lut" (Variable_ (Int 32 1) "i")) =
        Ok ((Load (UInt 8 1) "lut" (Variable_ (Int 32 1) "i"), true), []) /\
      run (Examples.lut Examples.ramp) = Ok ((Examples.lut Examples.ramp, true), [])).
Proof.
  split; [intros; apply visit_Load_direct; assumption|].
  split; [intros; eapply visit_Load_unbounded; eassumption|].
  split; [intros; apply visit_Load_bounded; assumption|].
  split; [intros; apply upper_bound_of_inert; assumption|].
  repeat split; reflexivity.
Qed.

Lemma indirect_load_to_lookup_witness :
  OptimizeShuffles.visit_Load (C := Model.collaborators) 3
    (OptimizeShuffles.mutate (C := Model.collaborators) 3)
    Examples.i16x64 "lut" Examples.words [] = Fail user_error.
Proof.
  exact (proj1 (proj2 indirect_load_to_lookup) Model.collaborators 3%nat
           (OptimizeShuffles.mutate (C := Model.collaborators) 3)
           Examples.i16x64 "lut" Examples.words Examples.words true [] []
           eq_refl eq_refl eq_refl (or_introl eq_refl)).
Defined.

(* ================================================================= *)
(** ** Further properties: negation in a lane                         *)
(* ================================================================= *)


Lemma wrap_cases (t : HType) :
  ((code t = TInt \/ code t = TUInt) /\ 2 ^ bits t <> 0) \/ (forall a, wrap t a = a).
Proof.
  destruct (Z.eq_dec (2 ^ bits t) 0) as [E|E].
  - right. intros a. unfold wrap.
    assert (Hb : bits t < 0).
    { destruct (Z_lt_le_dec (bits t) 0) as [Hl|Hl]; [exact Hl|].
      exfalso. assert (0 < 2 ^ bits t) by (apply Z.pow_pos_nonneg; lia). lia. }
    rewrite E. rewrite (Z.pow_neg_r 2 (bits t - 1)) by lia.
    destruct (code t); rewrite ?Z.mod_0_r; lia.
  - destruct (code t) eqn:Ec; try (left; split; [solve [auto] | exact E]);
      right; intros a; unfold wrap; rewrite Ec; reflexivity.
Qed.








Lemma wrap_zero (t : HType) : wrap t 0 = 0.
Proof.
  destruct (wrap_cases t) as [[Hc Hm]|Hid]; [|apply Hid].
  unfold wrap. destruct Hc as [Hc|Hc]; rewrite Hc.
  - destruct (Z_lt_le_dec (bits t) 1) as [Hl|Hl].
    + assert (bits t = 0).
      { destruct (Z_lt_le_dec (bits t) 0) as [Hn|Hn]; [|lia].
        exfalso. apply Hm. apply Z.pow_neg_r. exact Hn. }
      replace (bits t) with 0 by lia. reflexivity.
    + replace (2 ^ bits t) with (2 * 2 ^ (bits t - 1)).
      * assert (0 < 2 ^ (bits t - 1)) by (apply Z.pow_pos_nonneg; lia).
        rewrite Z.add_0_l, Z.mod_small by lia. lia.
      * rewrite <- Z.pow_succ_r by lia. f_equal. lia.
  - apply Z.mod_0_l. exact Hm.
Qed.







Section NegationValue.
Context {C : Collaborators}.

End NegationValue.


